(** * TongueKeeper audio pipeline: a shallow embedding of
    [ml/audio_pipeline.py] and the properties of its chunked transcription
    orchestrator.

    Modelling conventions.
    - Python [str] is [string]; one [ascii] stands for one character, so
      [len(s)] is [String.length s].
    - Python [float] timestamps are exact rationals [Q]; [int] is [Z] (or
      [nat] for list positions produced by [enumerate]).  Binary rounding
      error of IEEE doubles is outside the model.
    - A pydub [AudioSegment] is the list of its one-millisecond frames, so
      [len(audio)] is the length of the list, [audio[a:b]] is a clamped
      sub-list and [+] is concatenation.
    - Insertion-ordered Python dicts whose order is observed ([seen],
      [word_clips]) are association lists; dicts used as plain maps
      ([CONTACT_LANG_TO_WHISPER], [chunk_cache]) are [gmap]s.
    - The remote collaborators (RunPod, R2, Claude, yt-dlp) are oracles
      gathered in records; the completion order of [as_completed] is an
      oracle as well. *)

From Stdlib Require Import ZArith QArith Qround Qabs String Ascii List Lia Lqa.
From stdpp Require Import base list gmap strings sorting.

Local Open Scope Z_scope.

(** ** Python numerics on exact rationals *)

Module PyNum.

(** [round(x)] to the nearest integer, ties to even. *)
Definition round_half_even (x : Q) : Z :=
  let f := Qfloor x in
  match Qcompare (x - inject_Z f) (1 # 2) with
  | Lt => f
  | Gt => f + 1
  | Eq => if Z.even f then f else f + 1
  end.

(** [round(x, 2)]: the result is kept as a fraction over 100. *)
Definition round2 (x : Q) : Q := Qmake (round_half_even (x * 100)) 100.

(** [int(x)] truncates towards zero. *)
Definition py_int (x : Q) : Z :=
  if Qle_bool 0 x then Qfloor x else Qceiling x.

(** [x // n] for a float [x] and an int [n <> 0]. *)
Definition floordiv (x : Q) (n : Z) : Q := inject_Z (Qfloor (x / inject_Z n)).

End PyNum.

(** ** Python strings *)

Module PyStr.

(** [str.isspace] on one character (code points below 256). *)
Definition isspace (c : ascii) : bool :=
  let n := nat_of_ascii c in
  ((9 <=? n)%nat && (n <=? 13)%nat) || ((28 <=? n)%nat && (n <=? 32)%nat)
  || (n =? 133)%nat || (n =? 160)%nat.

Fixpoint lstrip (s : string) : string :=
  match s with
  | EmptyString => EmptyString
  | String c s' => if isspace c then lstrip s' else s
  end.

(** [rstrip] drops the trailing run of whitespace. *)
Fixpoint rstrip (s : string) : string :=
  match s with
  | EmptyString => EmptyString
  | String c s' =>
      match rstrip s' with
      | EmptyString => if isspace c then EmptyString else String c EmptyString
      | r => String c r
      end
  end.

(** [s.strip()] *)
Definition strip (s : string) : string := rstrip (lstrip s).

(** Truthiness of a string: [if s:]. *)
Definition truthy (s : string) : bool :=
  match s with EmptyString => false | _ => true end.

(** [s.startswith(p)] *)
Definition startswith (s p : string) : bool := String.prefix p s.

(** [" ".join(l)] *)
Fixpoint join_space (l : list string) : string :=
  match l with
  | [] => EmptyString
  | [s] => s
  | s :: rest => s +:+ " " +:+ join_space rest
  end.

End PyStr.

(** ** Contact language to Whisper language code *)

Module Whisper.

Definition CONTACT_LANG_TO_WHISPER_items : list (string * string) :=
  [ ("Korean", "ko"); ("Japanese", "ja"); ("Mandarin Chinese", "zh");
    ("Thai", "th"); ("Vietnamese", "vi"); ("Khmer", "km");
    ("Burmese", "my"); ("Malay", "ms"); ("Indonesian", "id");
    ("Filipino", "tl"); ("Hindi", "hi"); ("Bengali", "bn");
    ("Tamil", "ta"); ("Nepali", "ne"); ("Sinhala", "si");
    ("Russian", "ru"); ("Arabic", "ar"); ("Persian", "fa");
    ("Turkish", "tr"); ("French", "fr"); ("Spanish", "es");
    ("Portuguese", "pt"); ("English", "en"); ("German", "de");
    ("Italian", "it"); ("Dutch", "nl"); ("Polish", "pl");
    ("Swedish", "sv"); ("Norwegian", "no"); ("Danish", "da");
    ("Finnish", "fi"); ("Greek", "el"); ("Hebrew", "he");
    ("Swahili", "sw"); ("Amharic", "am"); ("Hausa", "ha");
    ("Yoruba", "yo"); ("Zulu", "zu"); ("Afrikaans", "af");
    ("Urdu", "ur"); ("Gujarati", "gu"); ("Marathi", "mr");
    ("Telugu", "te"); ("Kannada", "kn"); ("Malayalam", "ml");
    ("Punjabi", "pa"); ("Lao", "lo"); ("Georgian", "ka");
    ("Armenian", "hy"); ("Azerbaijani", "az"); ("Kazakh", "kk");
    ("Uzbek", "uz"); ("Mongolian", "mn"); ("Maori", "mi");
    ("Welsh", "cy"); ("Catalan", "ca"); ("Galician", "gl");
    ("Basque", "eu"); ("Irish", "ga"); ("Icelandic", "is");
    ("Estonian", "et"); ("Latvian", "lv"); ("Lithuanian", "lt");
    ("Czech", "cs"); ("Slovak", "sk"); ("Slovenian", "sl");
    ("Croatian", "hr"); ("Serbian", "sr"); ("Bosnian", "bs");
    ("Bulgarian", "bg"); ("Romanian", "ro"); ("Ukrainian", "uk");
    ("Belarusian", "be"); ("Hungarian", "hu"); ("Albanian", "sq");
    ("Macedonian", "mk"); ("Maltese", "mt") ]%string.

Definition CONTACT_LANG_TO_WHISPER : gmap string string :=
  list_to_map CONTACT_LANG_TO_WHISPER_items.

(** The [for lang in contact_languages] loop: the first truthy code found. *)
Fixpoint first_code (contact_languages : list string) : option string :=
  match contact_languages with
  | [] => None
  | lang :: rest =>
      match CONTACT_LANG_TO_WHISPER !! lang with
      | Some code => if PyStr.truthy code then Some code else first_code rest
      | None => first_code rest
      end
  end.

(** [contact_languages] is [Optional[list]]: [None] is Python's [None]. *)
Definition resolve_whisper_language
    (contact_languages : option (list string)) (language_code : string)
  : string :=
  let fallback :=
    if (String.length language_code =? 2)%nat then language_code
    else "en"%string in
  match contact_languages with
  | Some (lang :: rest) =>
      match first_code (lang :: rest) with
      | Some code => code
      | None => fallback
      end
  | _ => fallback
  end.

End Whisper.

(** ** Video identifiers ([extract_video_id]) *)

Module VideoId.

(** The character class [[a-zA-Z0-9_-]]. *)
Definition id_char (c : ascii) : bool :=
  let n := nat_of_ascii c in
  ((97 <=? n)%nat && (n <=? 122)%nat) || ((65 <=? n)%nat && (n <=? 90)%nat)
  || ((48 <=? n)%nat && (n <=? 57)%nat) || (n =? 95)%nat || (n =? 45)%nat.

(** [[a-zA-Z0-9_-]{n}] at the start of [s]: the characters matched. *)
Fixpoint id_chars (n : nat) (s : string) : option string :=
  match n with
  | O => Some EmptyString
  | S n' =>
      match s with
      | EmptyString => None
      | String c s' =>
          if id_char c then option_map (String c) (id_chars n' s') else None
      end
  end.

(** A literal at the start of [s]: what follows it. *)
Fixpoint literal (p s : string) : option string :=
  match p with
  | EmptyString => Some s
  | String a p' =>
      match s with
      | EmptyString => None
      | String b s' => if Ascii.eqb a b then literal p' s' else None
      end
  end.

(** [(?:m1|m2|...)([a-zA-Z0-9_-]{11})] at the start of [s], the markers
    tried in order: group 1 of the match. *)
Fixpoint match_here (markers : list string) (s : string) : option string :=
  match markers with
  | [] => None
  | m :: rest =>
      match literal m s with
      | Some tail =>
          match id_chars 11 tail with
          | Some id => Some id
          | None => match_here rest s
          end
      | None => match_here rest s
      end
  end.

(** [re.search]: the match at the leftmost position that has one. *)
Fixpoint re_search (markers : list string) (s : string) : option string :=
  match match_here markers s with
  | Some id => Some id
  | None =>
      match s with
      | EmptyString => None
      | String _ s' => re_search markers s'
      end
  end.

Definition patterns : list (list string) :=
  [ ["v="; "/v/"; "youtu.be/"]; ["embed/"]; ["shorts/"] ]%string.

(** [for pattern in patterns]: the first pattern found anywhere wins. *)
Fixpoint first_match (patterns : list (list string)) (url : string)
  : option string :=
  match patterns with
  | [] => None
  | markers :: rest =>
      match re_search markers url with
      | Some id => Some id
      | None => first_match rest url
      end
  end.

(** [extract_video_id]; [None] is the [ValueError]. *)
Definition extract_video_id (url : string) : option string :=
  first_match patterns url.

End VideoId.

(** ** Audio segments and the Chunker *)

Module Audio.

(** One list element per millisecond of mono PCM. *)
Definition AudioSegment : Type := list Z.

(** [len(audio)], in milliseconds. *)
Definition len (audio : AudioSegment) : Z := Z.of_nat (length audio).

(** Position of a slice bound inside a sequence of length [n]: a negative
    bound counts from the end, and the result is clamped to [0, n]. *)
Definition bound (n i : Z) : Z :=
  Z.max 0 (Z.min (if i <? 0 then i + n else i) n).

(** [audio[a:b]] *)
Definition slice (audio : AudioSegment) (a b : Z) : AudioSegment :=
  let a' := bound (len audio) a in
  let b' := bound (len audio) b in
  take (Z.to_nat (b' - a')) (drop (Z.to_nat a') audio).

(** [AudioSegment.silent(duration=ms)] *)
Definition silent (ms : Z) : AudioSegment := replicate (Z.to_nat ms) 0.

(** The [while offset < total_ms] loop of [chunk_audio].  The loop does not
    terminate for a non-positive chunk length on non-empty audio, hence the
    fuel: [None] means the fuel ran out. *)
Fixpoint chunk_loop (fuel : nat) (audio : AudioSegment) (chunk_ms offset : Z)
    (chunk_paths : list AudioSegment) : option (list AudioSegment) :=
  match fuel with
  | O => None
  | S fuel' =>
      if offset <? len audio then
        let chunk := slice audio offset (offset + chunk_ms) in
        chunk_loop fuel' audio chunk_ms (offset + chunk_ms)
          (chunk_paths ++ [chunk])
      else Some chunk_paths
  end.

(** [chunk_audio(file_path, chunk_seconds)]: the exported chunk files, in
    order; file number [i] is the element at position [i]. *)
Definition chunk_audio (fuel : nat) (audio : AudioSegment)
    (chunk_seconds : Z) : option (list AudioSegment) :=
  let chunk_ms := chunk_seconds * 1000 in
  chunk_loop fuel audio chunk_ms 0 [].

End Audio.

(** ** Python containers *)

Module PyDict.

Section dict.
Context {V : Type}.

(** An insertion-ordered dict with string keys. *)
Definition dict : Type := list (string * V).

(** [k in d] *)
Fixpoint mem (k : string) (d : dict) : bool :=
  match d with
  | [] => false
  | (k', _) :: rest => if String.eqb k' k then true else mem k rest
  end.

(** [d.get(k)] *)
Fixpoint get (k : string) (d : dict) : option V :=
  match d with
  | [] => None
  | (k', v) :: rest => if String.eqb k' k then Some v else get k rest
  end.

(** [d[k] = v]: an existing key keeps its position, a new one goes last. *)
Fixpoint set (k : string) (v : V) (d : dict) : dict :=
  match d with
  | [] => [(k, v)]
  | (k', v') :: rest =>
      if String.eqb k' k then (k', v) :: rest else (k', v') :: set k v rest
  end.

End dict.

Arguments dict V : clear implicits.

(** [enumerate(l)] *)
Fixpoint enumerate_from {A : Type} (i : nat) (l : list A) : list (nat * A) :=
  match l with
  | [] => []
  | x :: rest => (i, x) :: enumerate_from (S i) rest
  end.

Definition enumerate {A : Type} (l : list A) : list (nat * A) :=
  enumerate_from 0 l.

(** [l[i]] for a Python int [i]: negative indices count from the end, and
    [None] stands for [IndexError]. *)
Definition index {A : Type} (l : list A) (i : Z) : option A :=
  let n := Z.of_nat (length l) in
  if (0 <=? i) && (i <? n) then l !! Z.to_nat i
  else if (i <? 0) && (- n <=? i) then l !! Z.to_nat (n + i)
  else None.

End PyDict.

(** ** Job client, poller, reassembler and retry ([transcribe_chunks]) *)

Module Transcribe.

Import PyNum PyStr PyDict.

(** A word entry [{"word", "start", "end", "probability"}]. *)
Record Word : Type := mkWord {
  word_text : string;
  word_start : Q;
  word_end : Q;
  word_probability : option Q;
}.

(** A segment [{"start", "end", "text", "words"?}]. *)
Record Segment : Type := mkSegment {
  seg_start : Q;
  seg_end : Q;
  seg_text : string;
  seg_words : option (list Word);
}.

(** The [output] object of a RunPod status reply. *)
Record Output : Type := mkOutput {
  output_error : option string;
  output_segments : option (list Segment);
}.

(** A RunPod status reply [{"status", "error"?, "output"?}]. *)
Record JobData : Type := mkJobData {
  job_status : string;
  job_error : option string;
  job_output : option Output;
}.

(** What [future.result()] gives for one [_poll_runpod_job]: the terminal
    reply, a [TimeoutError], or any other exception. *)
Inductive PollOutcome : Type :=
  | PollData (result : JobData)
  | PollTimeout
  | PollError.

(** The remote backend.  [submit_reply n url lang] is the [id] field of the
    reply to the [n]-th call of [/run] ([None]: the request raised or the
    reply had no id); [completion_order] is the order in which
    [as_completed] yields the futures of the given jobs. *)
Record Backend : Type := mkBackend {
  submit_reply : nat -> string -> string -> option string;
  poll_reply : string -> PollOutcome;
  completion_order : list (nat * string) -> list (nat * string);
}.

(** Module-level configuration read from the environment. *)
Record Config : Type := mkConfig {
  RUNPOD_ENDPOINT_ID : string;
  RUNPOD_API_KEY : string;
  ANTHROPIC_API_KEY : string;
  CLOUDFLARE_WORKER_URL : string;
}.

(** The logger lines about submissions. *)
Inductive LogEvent : Type :=
  | Submitted (chunk_index : nat) (job_id : string)
  | SubmitFailed (chunk_index : nat)
  | RetrySubmitted (chunk_index : nat) (job_id : string)
  | RetrySubmitFailed (chunk_index : nat)
  | NoChunksSubmitted.

(** State threaded through the submissions: how many [/run] calls were
    made, and the log. *)
Record Client : Type := mkClient {
  calls : nat;
  log : list LogEvent;
}.

(** [_submit_runpod_job]: [None] stands for a raised exception. *)
Definition _submit_runpod_job (b : Backend) (audio_url language : string)
    (c : Client) : option string * Client :=
  let c' := mkClient (S (calls c)) (log c) in
  match submit_reply b (calls c) audio_url language with
  | Some job_id => if truthy job_id then (Some job_id, c') else (None, c')
  | None => (None, c')
  end.

Definition logged (e : LogEvent) (c : Client) : Client :=
  mkClient (calls c) (log c ++ [e]).

(** Phase 1: [for i, url in enumerate(r2_urls)]. *)
Fixpoint submit_phase (b : Backend) (language : string)
    (items : list (nat * string)) (jobs : list (nat * string)) (c : Client)
  : list (nat * string) * Client :=
  match items with
  | [] => (jobs, c)
  | (i, url) :: rest =>
      match _submit_runpod_job b url language c with
      | (Some job_id, c') =>
          submit_phase b language rest (jobs ++ [(i, job_id)])
            (logged (Submitted i job_id) c')
      | (None, c') =>
          submit_phase b language rest jobs (logged (SubmitFailed i) c')
      end
  end.

(** [_process_result]: the segments of a successful reply, or [None]. *)
Definition _process_result (result : JobData) : option (list Segment) :=
  if String.eqb (job_status result) "FAILED" then None
  else
    let output := default (mkOutput None None) (job_output result) in
    match output_error output with
    | Some _ => None
    | None => Some (default [] (output_segments output))
    end.

(** The word entry built inside the loop, shifted by [offset]. *)
Definition offset_word (offset : Z) (w : Word) : Word :=
  {| word_text := word_text w;
     word_start := round2 (word_start w + inject_Z offset);
     word_end := round2 (word_end w + inject_Z offset);
     word_probability := word_probability w |}.

(** The [entry] built for one segment of a chunk. *)
Definition offset_segment (offset : Z) (seg : Segment) : Segment :=
  {| seg_start := round2 (seg_start seg + inject_Z offset);
     seg_end := round2 (seg_end seg + inject_Z offset);
     seg_text := seg_text seg;
     seg_words := option_map (map (offset_word offset)) (seg_words seg) |}.

(** [r2_urls[chunk_index]]; the index comes from [enumerate(r2_urls)]. *)
Definition url_at (r2_urls : list string) (chunk_index : nat) : string :=
  default EmptyString (r2_urls !! chunk_index).

(** Phase 2: [for future in as_completed(futures)]. *)
Fixpoint poll_phase (b : Backend) (r2_urls : list string) (chunk_seconds : Z)
    (arrived : list (nat * string))
    (all_segments : list Segment) (failed_chunks : list (nat * string))
  : list Segment * list (nat * string) :=
  match arrived with
  | [] => (all_segments, failed_chunks)
  | (chunk_index, job_id) :: rest =>
      let offset := Z.of_nat chunk_index * chunk_seconds in
      let failed := failed_chunks ++ [(chunk_index, url_at r2_urls chunk_index)] in
      match poll_reply b job_id with
      | PollTimeout | PollError =>
          poll_phase b r2_urls chunk_seconds rest all_segments failed
      | PollData result =>
          match _process_result result with
          | None => poll_phase b r2_urls chunk_seconds rest all_segments failed
          | Some segments =>
              poll_phase b r2_urls chunk_seconds rest
                (all_segments ++ map (offset_segment offset) segments)
                failed_chunks
          end
      end
  end.

(** Phase 3, submissions: [for chunk_index, url in failed_chunks]. *)
Fixpoint retry_submit_phase (b : Backend) (language : string)
    (failed_chunks : list (nat * string)) (retry_jobs : list (nat * string))
    (c : Client) : list (nat * string) * Client :=
  match failed_chunks with
  | [] => (retry_jobs, c)
  | (chunk_index, url) :: rest =>
      match _submit_runpod_job b url language c with
      | (Some job_id, c') =>
          retry_submit_phase b language rest
            (retry_jobs ++ [(chunk_index, job_id)])
            (logged (RetrySubmitted chunk_index job_id) c')
      | (None, c') =>
          retry_submit_phase b language rest retry_jobs
            (logged (RetrySubmitFailed chunk_index) c')
      end
  end.

(** Phase 3, polling: a chunk that fails again is dropped. *)
Fixpoint retry_poll_phase (b : Backend) (chunk_seconds : Z)
    (arrived : list (nat * string)) (all_segments : list Segment)
  : list Segment :=
  match arrived with
  | [] => all_segments
  | (chunk_index, job_id) :: rest =>
      let offset := Z.of_nat chunk_index * chunk_seconds in
      match poll_reply b job_id with
      | PollTimeout | PollError =>
          retry_poll_phase b chunk_seconds rest all_segments
      | PollData result =>
          match _process_result result with
          | None => retry_poll_phase b chunk_seconds rest all_segments
          | Some segments =>
              retry_poll_phase b chunk_seconds rest
                (all_segments ++ map (offset_segment offset) segments)
          end
      end
  end.

(** [list.sort(key=lambda s: s["start"])] is stable: an element is placed
    after every element already there whose key is not greater. *)
Fixpoint insert_by_start (s : Segment) (sorted : list Segment) : list Segment :=
  match sorted with
  | [] => [s]
  | t :: rest =>
      match Qcompare (seg_start t) (seg_start s) with
      | Lt => t :: insert_by_start s rest
      | _ => s :: t :: rest
      end
  end.

Definition sort_by_start (l : list Segment) : list Segment :=
  foldr insert_by_start [] l.

(** The state after phases 1 and 2; with no job at all nothing is polled. *)
Record FirstPass : Type := mkFirstPass {
  fp_jobs : list (nat * string);
  fp_segments : list Segment;
  fp_failed_chunks : list (nat * string);
  fp_client : Client;
}.

Definition first_pass (b : Backend) (r2_urls : list string)
    (language : string) (chunk_seconds : Z) : FirstPass :=
  let '(jobs, c) :=
    submit_phase b language (enumerate r2_urls) [] (mkClient 0 []) in
  match jobs with
  | [] => mkFirstPass [] [] [] c
  | _ =>
      let '(all_segments, failed_chunks) :=
        poll_phase b r2_urls chunk_seconds (completion_order b jobs) [] [] in
      mkFirstPass jobs all_segments failed_chunks c
  end.

(** Phase 3 as a whole. *)
Definition retry_pass (b : Backend) (language : string) (chunk_seconds : Z)
    (fp : FirstPass) : list Segment * Client :=
  match fp_failed_chunks fp with
  | [] => (fp_segments fp, fp_client fp)
  | failed_chunks =>
      let '(retry_jobs, c) :=
        retry_submit_phase b language failed_chunks [] (fp_client fp) in
      match retry_jobs with
      | [] => (fp_segments fp, c)
      | _ =>
          (retry_poll_phase b chunk_seconds (completion_order b retry_jobs)
             (fp_segments fp), c)
      end
  end.

(** Exceptions that leave [process_video]. *)
Inductive Raised : Type :=
  | VideoIdError
  | DownloadError
  | ChunkingDiverges
  | UploadError (chunk_index : nat)
  | RunpodConfigError
  | CorrectionError.

(** [transcribe_chunks]: the sorted segments (or the [RuntimeError] of the
    configuration check), with the submissions that were made. *)
Definition transcribe_chunks (cfg : Config) (b : Backend)
    (r2_urls : list string) (language : string) (chunk_seconds : Z)
  : (Raised + list Segment) * Client :=
  if negb (truthy (RUNPOD_ENDPOINT_ID cfg)) || negb (truthy (RUNPOD_API_KEY cfg))
  then (inl RunpodConfigError, mkClient 0 [])
  else
    let fp := first_pass b r2_urls language chunk_seconds in
    match fp_jobs fp with
    | [] => (inr [], logged NoChunksSubmitted (fp_client fp))
    | _ =>
        let '(all_segments, c) := retry_pass b language chunk_seconds fp in
        (inr (sort_by_start all_segments), c)
    end.

(** The Reassembler on its own: per-chunk results, in arrival order, are
    shifted, merged and sorted. *)
Definition merge_chunk (chunk_seconds : Z) (r : nat * list Segment)
  : list Segment :=
  map (offset_segment (Z.of_nat (fst r) * chunk_seconds)) (snd r).

Definition reassemble (chunk_seconds : Z) (results : list (nat * list Segment))
  : list Segment :=
  sort_by_start (concat (map (merge_chunk chunk_seconds) results)).

(** [" ".join(s["text"] for s in segments)] *)
Definition full_text (segments : list Segment) : string :=
  join_space (map seg_text segments).

End Transcribe.

(** ** Word Extractor ([clip_and_upload_words]) *)

Module WordClips.

Import PyNum PyStr PyDict Audio Transcribe.

(** The local machine and the object store.  [r2_put_chunk video_id i] and
    [r2_put_clip n path key] are [upload_to_r2] for source chunk [i] and for
    the [n]-th clip task ([None]: it raised); [clip_hash text start] is the
    first 12 hex digits of the SHA-256 of ["{text}:{start}"]; [claude] is
    the correction request ([None]: it raised). *)
Record Host : Type := mkHost {
  video_id_of : string -> option string;
  download : string -> option AudioSegment;
  r2_put_chunk : string -> nat -> option string;
  r2_put_clip : nat -> string -> string -> option string;
  clip_hash : string -> Q -> string;
  tmpdir : string;
  claude : string -> string -> string -> option (list string) -> option string;
}.

(** The test of the collecting loop, on the stripped text. *)
Definition keep_word (text : string) (w : Word) (seen : dict Word) : bool :=
  let duration := (word_end w - word_start w)%Q in
  truthy text && (1 <? String.length text)%nat
  && Qle_bool (2 # 10) duration && negb (mem text seen).

(** [for w in seg.get("words", [])] *)
Fixpoint collect_words (ws : list Word) (seen : dict Word) : dict Word :=
  match ws with
  | [] => seen
  | w :: rest =>
      let text := strip (word_text w) in
      if keep_word text w seen then collect_words rest (set text w seen)
      else collect_words rest seen
  end.

(** [for seg in segments] *)
Fixpoint collect_seen (segments : list Segment) (seen : dict Word)
  : dict Word :=
  match segments with
  | [] => seen
  | seg :: rest =>
      collect_seen rest (collect_words (default [] (seg_words seg)) seen)
  end.

(** State of the clipping loop; [exported] lists the files written by
    [clip.export]. *)
Record Clipper : Type := mkClipper {
  chunk_cache : gmap Z AudioSegment;
  word_clips : dict string;
  clip_tasks : list (string * string);
  exported : list (string * AudioSegment);
}.

(** [min(int(w["start"] // chunk_seconds), len(chunk_paths) - 1)];
    [None] is the [ZeroDivisionError]. *)
Definition chunk_idx_of (w : Word) (chunk_seconds : Z) (n_chunks : nat)
  : option Z :=
  if chunk_seconds =? 0 then None
  else Some (Z.min (py_int (floordiv (word_start w) chunk_seconds))
                   (Z.of_nat n_chunks - 1)).

Definition local_start (w : Word) (chunk_idx chunk_seconds : Z) : Q :=
  (word_start w - inject_Z (chunk_idx * chunk_seconds))%Q.

Definition local_end (w : Word) (chunk_idx chunk_seconds : Z) : Q :=
  (word_end w - inject_Z (chunk_idx * chunk_seconds))%Q.

(** The slice, padded with 50 ms of silence on both sides when short. *)
Definition cut_clip (audio : AudioSegment) (local_start local_end : Q)
  : AudioSegment :=
  let clip :=
    slice audio (py_int (local_start * 1000)) (py_int (local_end * 1000)) in
  if len clip <? 300 then silent 50 ++ clip ++ silent 50 else clip.

(** The cached load of a chunk file: the audio and the new cache. *)
Definition load_chunk (chunk_paths : list AudioSegment) (chunk_idx : Z)
    (cache : gmap Z AudioSegment)
  : option (AudioSegment * gmap Z AudioSegment) :=
  match cache !! chunk_idx with
  | Some audio => Some (audio, cache)
  | None =>
      match index chunk_paths chunk_idx with
      | Some audio => Some (audio, <[chunk_idx := audio]> cache)
      | None => None
      end
  end.

Definition clip_path_of (h : Host) (hash : string) : string :=
  tmpdir h +:+ "/word_" +:+ hash +:+ ".wav".

Definition r2_key_of (video_id hash : string) : string :=
  "words/" +:+ video_id +:+ "/" +:+ hash +:+ ".wav".

(** One turn of [for text, w in seen.items()]; an exception inside the
    [try] leaves the state as it was. *)
Definition clip_word (h : Host) (chunk_paths : list AudioSegment)
    (video_id : string) (chunk_seconds : Z) (st : Clipper)
    (item : string * Word) : Clipper :=
  let '(text, w) := item in
  match chunk_idx_of w chunk_seconds (length chunk_paths) with
  | None => st
  | Some chunk_idx =>
      match load_chunk chunk_paths chunk_idx (chunk_cache st) with
      | None => st
      | Some (audio, cache) =>
          let clip :=
            cut_clip audio (local_start w chunk_idx chunk_seconds)
              (local_end w chunk_idx chunk_seconds) in
          let hash := clip_hash h text (word_start w) in
          let clip_path := clip_path_of h hash in
          let r2_key := r2_key_of video_id hash in
          {| chunk_cache := cache;
             word_clips := set text r2_key (word_clips st);
             clip_tasks := clip_tasks st ++ [(clip_path, r2_key)];
             exported := exported st ++ [(clip_path, clip)] |}
      end
  end.

Definition clip_all (h : Host) (chunk_paths : list AudioSegment)
    (video_id : string) (chunk_seconds : Z) (seen : dict Word) : Clipper :=
  foldl (clip_word h chunk_paths video_id chunk_seconds)
    (mkClipper ∅ [] [] []) seen.

(** [upload_clip], for the [n]-th task. *)
Definition upload_clip (h : Host) (cfg : Config) (n : nat)
    (task : string * string) : string * option string :=
  let '(clip_path, r2_key) := task in
  match r2_put_clip h n clip_path r2_key with
  | Some relative_url => (r2_key, Some (CLOUDFLARE_WORKER_URL cfg +:+ relative_url))
  | None => (r2_key, None)
  end.

(** The inner [for text, key in word_clips.items()] with its [break]. *)
Fixpoint mark_uploaded (r2_key full_url : string) (word_clips : dict string)
  : dict string :=
  match word_clips with
  | [] => []
  | (text, key) :: rest =>
      if String.eqb key r2_key then (text, full_url) :: rest
      else (text, key) :: mark_uploaded r2_key full_url rest
  end.

(** [for r2_key, full_url in executor.map(upload_clip, clip_tasks)] *)
Fixpoint collect_uploads (results : list (string * option string))
    (word_clips : dict string) : dict string :=
  match results with
  | [] => word_clips
  | (r2_key, Some full_url) :: rest =>
      if truthy full_url
      then collect_uploads rest (mark_uploaded r2_key full_url word_clips)
      else collect_uploads rest word_clips
  | (_, None) :: rest => collect_uploads rest word_clips
  end.

(** [{k: v for k, v in word_clips.items() if v.startswith("http")}] *)
Definition only_uploaded (word_clips : dict string) : dict string :=
  filter (fun kv => Is_true (startswith (snd kv) "http")) word_clips.

Definition clip_and_upload_words (h : Host) (cfg : Config)
    (segments : list Segment) (chunk_paths : list AudioSegment)
    (video_id : string) (chunk_seconds : Z) : dict string :=
  match collect_seen segments [] with
  | [] => []
  | seen =>
      let st := clip_all h chunk_paths video_id chunk_seconds seen in
      let results := imap (upload_clip h cfg) (clip_tasks st) in
      only_uploaded (collect_uploads results (word_clips st))
  end.

End WordClips.

(** ** Correction and the orchestrator ([process_video]) *)

Module Pipeline.

Import PyNum PyStr PyDict Audio Transcribe WordClips.

(** [correct_transcription]: without an API key the transcript is returned
    as it is, before any request is made. *)
Definition correct_transcription (h : Host) (cfg : Config)
    (transcript language_name contact_language : string)
    (known_vocabulary : option (list string)) : Raised + string :=
  if negb (truthy (ANTHROPIC_API_KEY cfg)) then inr transcript
  else
    match claude h transcript language_name contact_language known_vocabulary with
    | Some corrected => inr corrected
    | None => inl CorrectionError
    end.

(** [upload_chunks_to_r2]: the first failing upload raises. *)
Fixpoint upload_chunks_loop (h : Host) (cfg : Config) (video_id : string)
    (items : list (nat * AudioSegment)) (r2_urls : list string)
  : Raised + list string :=
  match items with
  | [] => inr r2_urls
  | (i, _) :: rest =>
      match r2_put_chunk h video_id i with
      | Some relative_url =>
          upload_chunks_loop h cfg video_id rest
            (r2_urls ++ [CLOUDFLARE_WORKER_URL cfg +:+ relative_url])
      | None => inl (UploadError i)
      end
  end.

Definition upload_chunks_to_r2 (h : Host) (cfg : Config)
    (chunk_paths : list AudioSegment) (video_id : string)
  : Raised + list string :=
  upload_chunks_loop h cfg video_id (enumerate chunk_paths) [].

(** The dict returned by [process_video]. *)
Record Result : Type := mkResult {
  res_video_url : string;
  res_video_id : string;
  res_transcript : string;
  res_corrected_transcript : string;
  res_audio_urls : list string;
  res_segments : list Segment;
  res_duration_seconds : Q;
  res_word_clips : dict string;
}.

(** [process_video].  Event emission and the cache write cannot fail the
    run (both swallow their exceptions) and are left out; [fuel] bounds the
    chunking loop. *)
Definition process_video (h : Host) (cfg : Config) (b : Backend) (fuel : nat)
    (video_url : string) (chunk_seconds : Z)
    (known_vocabulary : option (list string))
    (language_name language_code : string)
    (contact_languages : option (list string)) : Raised + Result :=
  match video_id_of h video_url with
  | None => inl VideoIdError
  | Some video_id =>
  match download h video_url with
  | None => inl DownloadError
  | Some audio =>
  let duration_seconds := Qmake (len audio) 1000 in
  match chunk_audio fuel audio chunk_seconds with
  | None => inl ChunkingDiverges
  | Some chunk_paths =>
  match upload_chunks_to_r2 h cfg chunk_paths video_id with
  | inl e => inl e
  | inr r2_urls =>
  let whisper_lang :=
    Whisper.resolve_whisper_language contact_languages language_code in
  match fst (transcribe_chunks cfg b r2_urls whisper_lang chunk_seconds) with
  | inl e => inl e
  | inr segments =>
  let transcript := full_text segments in
  let word_clips :=
    match segments, chunk_paths with
    | _ :: _, _ :: _ =>
        clip_and_upload_words h cfg segments chunk_paths video_id chunk_seconds
    | _, _ => []
    end in
  let contact_lang_name :=
    match contact_languages with
    | Some (first :: _) => first
    | _ => "English"%string
    end in
  let corrected :=
    if truthy (strip transcript)
    then correct_transcription h cfg transcript language_name
           contact_lang_name known_vocabulary
    else inr transcript in
  match corrected with
  | inl e => inl e
  | inr corrected_transcript =>
      inr {| res_video_url := video_url;
             res_video_id := video_id;
             res_transcript := transcript;
             res_corrected_transcript := corrected_transcript;
             res_audio_urls := r2_urls;
             res_segments := segments;
             res_duration_seconds := round2 duration_seconds;
             res_word_clips := word_clips |}
  end end end end end end.

End Pipeline.

(** ** The Whisper handler's reply ([runpod_handler.handler]) *)

Module Handler.

Import PyNum PyStr Transcribe.

(** A word and a segment as [faster-whisper] yields them. *)
Record RawWord : Type := mkRawWord {
  raw_word : string;
  raw_start : Q;
  raw_end : Q;
  raw_probability : Q;
}.

Record RawSegment : Type := mkRawSegment {
  raw_seg_start : Q;
  raw_seg_end : Q;
  raw_seg_text : string;
  raw_seg_words : option (list RawWord);
}.

(** [round(x, 3)] *)
Definition round3 (x : Q) : Q := Qmake (round_half_even (x * 1000)) 1000.

(** One entry of [seg_data["words"]]. *)
Definition word_entry (w : RawWord) : Word :=
  {| word_text := strip (raw_word w);
     word_start := round2 (raw_start w);
     word_end := round2 (raw_end w);
     word_probability := Some (round3 (raw_probability w)) |}.

(** [seg_data]: the ["words"] key is set only [if seg.words]. *)
Definition seg_data (seg : RawSegment) : Segment :=
  {| seg_start := round2 (raw_seg_start seg);
     seg_end := round2 (raw_seg_end seg);
     seg_text := strip (raw_seg_text seg);
     seg_words :=
       match raw_seg_words seg with
       | Some (w :: ws) => Some (map word_entry (w :: ws))
       | _ => None
       end |}.

(** The ["segments"] and ["text"] fields of the reply, built by
    [for seg in segments_gen]. *)
Definition handler_segments (segments_gen : list RawSegment) : list Segment :=
  map seg_data segments_gen.

Definition handler_text (segments_gen : list RawSegment) : string :=
  join_space (map (fun seg => strip (raw_seg_text seg)) segments_gen).

End Handler.

(** ** Auxiliary notions used to state the properties *)

Module ChunkerSpec.

Import Audio.

(** The frames of [audio] from millisecond [a] up to millisecond [b]. *)
Definition frames (audio : AudioSegment) (a b : Z) : AudioSegment :=
  take (Z.to_nat (b - a)) (drop (Z.to_nat a) audio).

(** [n] successive slices of [chunk_ms] milliseconds, from [offset] on. *)
Fixpoint tiles (n : nat) (audio : AudioSegment) (chunk_ms offset : Z)
  : list AudioSegment :=
  match n with
  | O => []
  | S n' =>
      slice audio offset (offset + chunk_ms)
      :: tiles n' audio chunk_ms (offset + chunk_ms)
  end.

(** Number of turns of the loop left at [offset]. *)
Definition turns (audio : AudioSegment) (chunk_ms offset : Z) : nat :=
  Z.to_nat ((len audio - offset + chunk_ms - 1) / chunk_ms).

End ChunkerSpec.

(** ** Notions used to state the transcription properties *)

Module TranscribeSpec.

Import PyNum Transcribe.

(** The segments a job ends with when it succeeds; [None] covers a timeout,
    a poll exception, a [FAILED] status and a handler error. *)
Definition poll_segments (b : Backend) (job_id : string)
  : option (list Segment) :=
  match poll_reply b job_id with
  | PollData result => _process_result result
  | PollTimeout | PollError => None
  end.

(** The per-chunk result handed to the Reassembler, if the job succeeded. *)
Definition chunk_result (b : Backend) (job : nat * string)
  : option (nat * list Segment) :=
  match poll_segments b (snd job) with
  | Some segments => Some (fst job, segments)
  | None => None
  end.

(** The chunk a log line is about. *)
Definition event_chunk (e : LogEvent) : option nat :=
  match e with
  | Submitted i _ | SubmitFailed i | RetrySubmitted i _ | RetrySubmitFailed i =>
      Some i
  | NoChunksSubmitted => None
  end.

Definition is_retry (e : LogEvent) : bool :=
  match e with
  | RetrySubmitted _ _ | RetrySubmitFailed _ => true
  | _ => false
  end.

(** How often chunk [i] was handed to [_submit_runpod_job], and how often
    in the retry round. *)
Definition submissions (i : nat) (lg : list LogEvent) : nat :=
  length (filter (fun e => event_chunk e = Some i) lg).

Definition resubmissions (i : nat) (lg : list LogEvent) : nat :=
  length (filter (fun e => is_retry e = true /\ event_chunk e = Some i) lg).

(** The job of a submission line. *)
Definition event_job (e : LogEvent) : option (nat * string) :=
  match e with
  | Submitted i job_id | RetrySubmitted i job_id => Some (i, job_id)
  | _ => None
  end.

(** [q] is a whole number of hundredths. *)
Definition hundredths (q : Q) : Prop := exists n : Z, q = Qmake n 100.

(** [q] is [x] rounded to two decimals: a number of hundredths at most half
    a hundredth away from [x], and [x] itself when [x] has two decimals. *)
Definition rounded_to_hundredths (x q : Q) : Prop :=
  hundredths q
  /\ (Qabs (q - x) <= 1 # 200)%Q
  /\ (forall n : Z, (x == Qmake n 100)%Q -> (q == x)%Q).

(** [global] is the word [local] moved by [offset] seconds. *)
Definition word_shifted (offset : Z) (local global : Word) : Prop :=
  word_text global = word_text local
  /\ word_probability global = word_probability local
  /\ rounded_to_hundredths (word_start local + inject_Z offset) (word_start global)
  /\ rounded_to_hundredths (word_end local + inject_Z offset) (word_end global).

(** [global] is the segment [local] moved by [offset] seconds, words
    included. *)
Definition segment_shifted (offset : Z) (local global : Segment) : Prop :=
  seg_text global = seg_text local
  /\ rounded_to_hundredths (seg_start local + inject_Z offset) (seg_start global)
  /\ rounded_to_hundredths (seg_end local + inject_Z offset) (seg_end global)
  /\ match seg_words local, seg_words global with
     | Some ws, Some ws' => Forall2 (word_shifted offset) ws ws'
     | None, None => True
     | _, _ => False
     end.

(** Ascending by [start]. *)
Definition sorted_by_start (l : list Segment) : Prop :=
  StronglySorted (fun s t => (seg_start s <= seg_start t)%Q) l.

(** Two lists of segments with no [start] in common. *)
Definition no_common_start (l1 l2 : list Segment) : Prop :=
  forall s t, s ∈ l1 -> t ∈ l2 -> ~ (seg_start s == seg_start t)%Q.

(** No two lists of [blocks] have a [start] in common. *)
Inductive apart : list (list Segment) -> Prop :=
  | apart_nil : apart []
  | apart_cons (x : list Segment) (l : list (list Segment)) :
      Forall (no_common_start x) l -> apart l -> apart (x :: l).

(** What a first-pass submission logs for an item. *)
Definition first_event (item : nat * string) (e : LogEvent) : Prop :=
  e = SubmitFailed (fst item) \/ exists job_id, e = Submitted (fst item) job_id.

(** What a retry submission logs for a failed chunk. *)
Definition retry_event (item : nat * string) (e : LogEvent) : Prop :=
  e = RetrySubmitFailed (fst item)
  \/ exists job_id, e = RetrySubmitted (fst item) job_id.

(** The segments merged from the jobs in [arrived]. *)
Definition merged (b : Backend) (chunk_seconds : Z)
    (arrived : list (nat * string)) : list Segment :=
  concat (map (merge_chunk chunk_seconds) (omap (chunk_result b) arrived)).

(** The retry list built from the jobs in [arrived]. *)
Definition failures (b : Backend) (r2_urls : list string)
    (arrived : list (nat * string)) : list (nat * string) :=
  map (fun job => (fst job, url_at r2_urls (fst job)))
    (filter (fun job => poll_segments b (snd job) = None) arrived).

(** [s] starts at [k]. *)
Definition starts_at (k : Q) (s : Segment) : Prop := (seg_start s == k)%Q.

#[export] Instance starts_at_dec (k : Q) (s : Segment) : Decision (starts_at k s) :=
  Qeq_dec (seg_start s) k.

End TranscribeSpec.

(** ** Notions used to state the word extractor properties *)

Module WordSpec.

Import PyStr PyDict Transcribe WordClips.

(** The words of a transcript in document order. *)
Definition all_words (segments : list Segment) : list Word :=
  concat (map (fun seg => default [] (seg_words seg)) segments).

(** The text a word is known by: its text without surrounding whitespace. *)
Definition key (w : Word) : string := strip (word_text w).

(** A word qualifies for clipping. *)
Definition qualifies (w : Word) : Prop :=
  key w <> EmptyString
  /\ (1 < String.length (key w))%nat
  /\ (2 # 10 <= word_end w - word_start w)%Q.

(** [w] is the first qualifying word of [ws] known by [text]. *)
Definition first_occurrence (ws : list Word) (text : string) (w : Word) : Prop :=
  exists pre post,
    ws = pre ++ w :: post /\ key w = text /\ qualifies w
    /\ forall w', w' ∈ pre -> qualifies w' -> key w' <> text.

(** The Word Extractor as the specification words it: words are told
    apart by their text as it stands, and the tests bear on that text. *)
Definition spec_keep_word (w : Word) (seen : dict Word) : bool :=
  truthy (word_text w) && (1 <? String.length (word_text w))%nat
  && Qle_bool (2 # 10) (word_end w - word_start w)
  && negb (mem (word_text w) seen).

Fixpoint spec_collect_words (ws : list Word) (seen : dict Word) : dict Word :=
  match ws with
  | [] => seen
  | w :: rest =>
      if spec_keep_word w seen
      then spec_collect_words rest (seen ++ [(word_text w, w)])
      else spec_collect_words rest seen
  end.

Definition spec_collect_seen (segments : list Segment) : dict Word :=
  spec_collect_words (all_words segments) [].

(** What the clipping loop keeps true, [texts] being the texts gone through:
    the cache holds chunk files, the tasks and the placeholders go in pairs,
    a placeholder never looks like a URL. *)
Definition clipper_ok (chunk_paths : list Audio.AudioSegment)
    (texts : list string) (st : Clipper) : Prop :=
  (forall idx audio,
      chunk_cache st !! idx = Some audio -> index chunk_paths idx = Some audio)
  /\ (word_clips st).*2 = (clip_tasks st).*2
  /\ (word_clips st).*1 `sublist_of` texts
  /\ Forall (fun key => startswith key "http" = false) (word_clips st).*2.

(** The value a word ends with after the uploads: its URL if the upload
    gave a non-empty one, its placeholder otherwise. *)
Definition settled (entry : string * string) (result : string * option string)
  : string * string :=
  match snd result with
  | Some full_url => if truthy full_url then (fst entry, full_url) else entry
  | None => entry
  end.

End WordSpec.

(** ** Notions used to state the video identifier properties *)

Module VideoIdSpec.

Import VideoId.

(** An identifier: eleven characters of the class. *)
Definition is_id (id : string) : Prop :=
  String.length id = 11%nat
  /\ forall c, c ∈ list_ascii_of_string id -> id_char c = true.

(** [url] holds one of [markers] followed by the identifier [id]. *)
Definition holds (markers : list string) (url id : string) : Prop :=
  exists before marker after,
    marker ∈ markers /\ url = before +:+ marker +:+ id +:+ after /\ is_id id.

End VideoIdSpec.

(** ** Concrete environments used in examples *)

Module Scenario.

Import Audio Transcribe WordClips.

(** RunPod is configured, the correction service is not. *)
Definition cfg : Config :=
  {| RUNPOD_ENDPOINT_ID := "endpoint";
     RUNPOD_API_KEY := "key";
     ANTHROPIC_API_KEY := "";
     CLOUDFLARE_WORKER_URL := "https://worker.example" |}.

(** 2.5 seconds of audio; every upload is accepted. *)
Definition host : Host :=
  {| video_id_of := fun _ => Some "dQw4w9WgXcQ"%string;
     download := fun _ => Some (replicate 2500 0);
     r2_put_chunk := fun _ _ => Some "/audio/chunk.wav"%string;
     r2_put_clip := fun _ _ key => Some ("/audio/" +:+ key);
     clip_hash := fun text _ => text;
     tmpdir := "/tmp";
     claude := fun _ _ _ _ => None |}.

(** A backend that rejects every submission. *)
Definition rejecting : Backend :=
  {| submit_reply := fun _ _ _ => None;
     poll_reply := fun _ => PollTimeout;
     completion_order := fun jobs => jobs |}.

(** Four chunks of 30 seconds: the submission of chunk 0 is rejected, the
    job of chunk 1 times out and succeeds when retried, chunks 2 and 3
    succeed at once; the futures complete in reverse order. *)
Definition urls4 : list string := ["u0"; "u1"; "u2"; "u3"]%string.

Definition completed (segments : list Segment) : PollOutcome :=
  PollData {| job_status := "COMPLETED"; job_error := None;
              job_output := Some {| output_error := None;
                                    output_segments := Some segments |} |}.

Definition flaky : Backend :=
  {| submit_reply := fun n _ _ =>
       match n with
       | 0%nat => None
       | 1%nat => Some "job-1"%string
       | 2%nat => Some "job-2"%string
       | 3%nat => Some "job-3"%string
       | _ => Some "job-1-retry"%string
       end;
     poll_reply := fun job_id =>
       if String.eqb job_id "job-1-retry" then
         completed [mkSegment (1 # 2) (3 # 2) "annyeong"
                      (Some [mkWord " annyeong" (1 # 2) (3 # 2) None])]
       else if String.eqb job_id "job-2" then
         completed [mkSegment 0 (5 # 2) "hello there" None]
       else if String.eqb job_id "job-3" then
         completed [mkSegment 2 (23 # 10) "hello"
                      (Some [mkWord "hello" 2 (23 # 10) (Some (9 # 10))])]
       else PollTimeout;
     completion_order := fun jobs => reverse jobs |}.

(** Two chunks of 30 seconds whose segments land on the same global start:
    chunk 0 ends with a segment at local 30.0 s, chunk 1 begins with one at
    local 0.0 s.  [order] is the completion order of the futures. *)
Definition urls2 : list string := ["u0"; "u1"]%string.

Definition tie (order : list (nat * string) -> list (nat * string)) : Backend :=
  {| submit_reply := fun n _ _ =>
       match n with
       | 0%nat => Some "job-0"%string
       | _ => Some "job-1"%string
       end;
     poll_reply := fun job_id =>
       if String.eqb job_id "job-0" then
         completed [mkSegment 30 (61 # 2) "late" None]
       else completed [mkSegment 0 1 "early" None];
     completion_order := order |}.

(** 2.5 seconds of audio whose frame at millisecond [t] holds [t], cut in
    one-second chunks, and a transcript of it with three words. *)
Definition ramp (a n : nat) : AudioSegment := map Z.of_nat (seq a n).

Definition chunks3 : list AudioSegment :=
  [ramp 0 1000; ramp 1000 1000; ramp 2000 500].

Definition annyeong : Word := mkWord " annyeong" (2 # 10) (7 # 10) None.
Definition hello : Word := mkWord "hello" (11 # 10) (135 # 100) None.
Definition hi : Word := mkWord "hi" (21 # 10) (245 # 100) None.

Definition spoken : list Segment :=
  [ mkSegment (2 # 10) (135 # 100) "annyeong hello" (Some [annyeong; hello]);
    mkSegment (21 # 10) (245 # 100) "hi" (Some [hi]) ].

(** The upload of the second clip fails. *)
Definition second_upload_fails : Host :=
  {| video_id_of := fun _ => Some "dQw4w9WgXcQ"%string;
     download := fun _ => Some (ramp 0 2500);
     r2_put_chunk := fun _ _ => Some "/audio/chunk.wav"%string;
     r2_put_clip := fun n _ key =>
       match n with 1%nat => None | _ => Some ("/audio/" +:+ key) end;
     clip_hash := fun text _ => text;
     tmpdir := "/tmp";
     claude := fun _ _ _ _ => None |}.

(** What the model yields for one chunk: padded texts, timestamps with
    more than two decimals. *)
Definition heard : list Handler.RawSegment :=
  [ Handler.mkRawSegment (1234 # 1000) (2999 # 1000) " annyeong hello "
      (Some [ Handler.mkRawWord " annyeong" (1234 # 1000) (1876 # 1000) (9 # 10);
              Handler.mkRawWord " hello" (2001 # 1000) (2999 # 1000) (8 # 10) ]);
    Handler.mkRawSegment (3500 # 1000) (3900 # 1000) " hello" None ].

End Scenario.

(** * Properties *)

(** ** [resolve_whisper_language] *)

Section WhisperFacts.

Import Whisper.

Lemma first_code_cons (lang : string) (rest : list string) :
  first_code (lang :: rest)
  = match CONTACT_LANG_TO_WHISPER !! lang with
    | Some code => if PyStr.truthy code then Some code else first_code rest
    | None => first_code rest
    end.
Proof. reflexivity. Qed.

Lemma table_codes_truthy (lang code : string) :
  CONTACT_LANG_TO_WHISPER !! lang = Some code -> PyStr.truthy code = true.
Proof.
  intros Hlook. apply elem_of_list_to_map_2 in Hlook.
  assert (Hall : forallb (fun kv => PyStr.truthy (snd kv))
                   CONTACT_LANG_TO_WHISPER_items = true) by (vm_compute; reflexivity).
  rewrite forallb_forall in Hall.
  apply (Hall (lang, code)). now apply list_elem_of_In.
Qed.

Lemma first_code_unmapped (langs : list string) :
  (forall l, l ∈ langs -> CONTACT_LANG_TO_WHISPER !! l = None) ->
  first_code langs = None.
Proof.
  induction langs as [|lang rest IH]; intros Hnone; [reflexivity|].
  rewrite first_code_cons, (Hnone lang) by constructor.
  apply IH. intros l Hl. apply Hnone. now constructor.
Qed.

Lemma first_code_first (pre post : list string) (lang code : string) :
  (forall l, l ∈ pre -> CONTACT_LANG_TO_WHISPER !! l = None) ->
  CONTACT_LANG_TO_WHISPER !! lang = Some code ->
  first_code (pre ++ lang :: post) = Some code.
Proof.
  intros Hpre Hlang. induction pre as [|p pre IH].
  - change ([] ++ lang :: post) with (lang :: post).
    rewrite first_code_cons, Hlang.
    now rewrite (table_codes_truthy lang code).
  - change ((p :: pre) ++ lang :: post) with (p :: (pre ++ lang :: post)).
    rewrite first_code_cons, (Hpre p) by constructor.
    apply IH. intros l Hl. apply Hpre. now constructor.
Qed.

Lemma resolve_some (langs : list string) (language_code : string) :
  resolve_whisper_language (Some langs) language_code
  = match first_code langs with
    | Some code => code
    | None => if (String.length language_code =? 2)%nat then language_code
              else "en"%string
    end.
Proof. destruct langs; reflexivity. Qed.

(** C10.  The result is the Whisper code of the first listed contact
    language that the table maps; with no list, an empty list or no mapped
    language in it, the result is [language_code] when that has exactly two
    characters and ["en"] otherwise. *)
Theorem resolve_whisper_language_spec
    (contact_languages : option (list string)) (language_code : string) :
  (forall pre lang post code,
      contact_languages = Some (pre ++ lang :: post) ->
      (forall l, l ∈ pre -> CONTACT_LANG_TO_WHISPER !! l = None) ->
      CONTACT_LANG_TO_WHISPER !! lang = Some code ->
      resolve_whisper_language contact_languages language_code = code)
  /\ ((forall langs l, contact_languages = Some langs -> l ∈ langs ->
          CONTACT_LANG_TO_WHISPER !! l = None) ->
      resolve_whisper_language contact_languages language_code
      = if (String.length language_code =? 2)%nat then language_code
        else "en"%string).
Proof.
  split.
  - intros pre lang post code -> Hpre Hlang.
    rewrite resolve_some.
    now rewrite (first_code_first pre post lang code Hpre Hlang).
  - intros Hnone. destruct contact_languages as [langs|]; [|reflexivity].
    rewrite resolve_some, first_code_unmapped; [reflexivity|].
    intros l Hl. now apply (Hnone langs).
Qed.

Example resolve_first_mapped :
  resolve_whisper_language (Some ["Jejueo"; "Korean"; "Japanese"]%string) "jje"
  = "ko"%string.
Proof. vm_compute. reflexivity. Qed.

Example resolve_fallback_two_letters :
  resolve_whisper_language (Some ["Jejueo"]%string) "fr" = "fr"%string
  /\ resolve_whisper_language None "jje" = "en"%string
  /\ resolve_whisper_language (Some []) "und" = "en"%string.
Proof. vm_compute. repeat split. Qed.

End WhisperFacts.

(** ** The Chunker *)

Section ChunkerFacts.

Import Audio ChunkerSpec.

Lemma bound_nonneg (n i : Z) : 0 <= n -> 0 <= i -> bound n i = Z.min i n.
Proof.
  intros Hn Hi. unfold bound.
  destruct (Z.ltb_spec i 0); lia.
Qed.

Lemma len_nonneg (audio : AudioSegment) : 0 <= len audio.
Proof. unfold len. lia. Qed.

Lemma slice_frames (audio : AudioSegment) (a b : Z) :
  0 <= a -> a <= b ->
  slice audio a b = frames audio a (Z.min b (len audio)).
Proof.
  intros Ha Hab. unfold slice, frames.
  pose proof (len_nonneg audio) as Hn.
  rewrite !bound_nonneg by lia.
  destruct (Z.le_gt_cases a (len audio)) as [Hle|Hgt].
  - now rewrite (Z.min_l a) by lia.
  - rewrite (Z.min_r a), (Z.min_r b) by lia.
    rewrite !drop_ge by (unfold len in *; lia).
    now rewrite !take_nil.
Qed.

Lemma slice_take_drop (audio : AudioSegment) (a c : Z) :
  0 <= a -> 0 <= c ->
  slice audio a (a + c) = take (Z.to_nat c) (drop (Z.to_nat a) audio).
Proof.
  intros Ha Hc. rewrite slice_frames by lia. unfold frames.
  destruct (Z.le_gt_cases (a + c) (len audio)) as [Hle|Hgt].
  - rewrite Z.min_l by lia. f_equal. lia.
  - rewrite Z.min_r by lia.
    rewrite !take_ge; [reflexivity| |]; rewrite length_drop; unfold len in *; lia.
Qed.

Lemma turns_done (audio : AudioSegment) (chunk_ms offset : Z) :
  0 < chunk_ms -> len audio <= offset -> turns audio chunk_ms offset = O.
Proof.
  intros Hc Hoff. unfold turns.
  assert ((len audio - offset + chunk_ms - 1) / chunk_ms <= 0); [|lia].
  assert ((len audio - offset + chunk_ms - 1) / chunk_ms < 1); [|lia].
  apply Z.div_lt_upper_bound; lia.
Qed.

Lemma turns_step (audio : AudioSegment) (chunk_ms offset : Z) :
  0 < chunk_ms -> offset < len audio ->
  turns audio chunk_ms offset = S (turns audio chunk_ms (offset + chunk_ms)).
Proof.
  intros Hc Hoff. unfold turns.
  replace (len audio - offset + chunk_ms - 1)
    with (1 * chunk_ms + (len audio - (offset + chunk_ms) + chunk_ms - 1)) by lia.
  rewrite Z.div_add_l by lia.
  assert (0 <= (len audio - (offset + chunk_ms) + chunk_ms - 1) / chunk_ms)
    by (apply Z.div_pos; lia).
  lia.
Qed.

Lemma chunk_loop_tiles (fuel : nat) (audio : AudioSegment) (chunk_ms : Z) :
  0 < chunk_ms ->
  forall (offset : Z) (acc : list AudioSegment),
    (0 < fuel)%nat -> len audio - offset < Z.of_nat fuel ->
    chunk_loop fuel audio chunk_ms offset acc
    = Some (acc ++ tiles (turns audio chunk_ms offset) audio chunk_ms offset).
Proof.
  intros Hc. induction fuel as [|fuel IH]; intros offset acc Hpos Hfuel; [lia|].
  simpl. destruct (Z.ltb_spec offset (len audio)) as [Hlt|Hge].
  - rewrite IH by lia. rewrite (turns_step audio chunk_ms offset) by lia.
    simpl. now rewrite <- app_assoc.
  - rewrite turns_done by lia. simpl. now rewrite app_nil_r.
Qed.

Lemma tiles_length (n : nat) (audio : AudioSegment) (chunk_ms offset : Z) :
  length (tiles n audio chunk_ms offset) = n.
Proof. revert offset. induction n as [|n IH]; intros offset; simpl; auto. Qed.

Lemma tiles_lookup (n : nat) (audio : AudioSegment) (chunk_ms : Z) :
  forall (offset : Z) (i : nat) (chunk : AudioSegment),
    tiles n audio chunk_ms offset !! i = Some chunk ->
    chunk = slice audio (offset + Z.of_nat i * chunk_ms)
              (offset + (Z.of_nat i + 1) * chunk_ms).
Proof.
  induction n as [|n IH]; intros offset i chunk Hi; [discriminate|].
  destruct i as [|i]; simpl in Hi.
  - injection Hi as <-. f_equal; lia.
  - apply IH in Hi. subst chunk. f_equal; lia.
Qed.

Lemma tiles_concat (n : nat) (audio : AudioSegment) (chunk_ms : Z) :
  0 <= chunk_ms ->
  forall offset : Z, 0 <= offset ->
    concat (tiles n audio chunk_ms offset)
    = take (n * Z.to_nat chunk_ms) (drop (Z.to_nat offset) audio).
Proof.
  intros Hc. induction n as [|n IH]; intros offset Hoff; [reflexivity|].
  simpl. rewrite IH by lia. rewrite slice_take_drop by lia.
  replace (Z.to_nat (offset + chunk_ms))
    with (Z.to_nat offset + Z.to_nat chunk_ms)%nat by lia.
  rewrite <- drop_drop. apply take_take_drop.
Qed.

Lemma turns_ceiling (audio : AudioSegment) (chunk_ms : Z) :
  0 < chunk_ms ->
  (Z.of_nat (turns audio chunk_ms 0) - 1) * chunk_ms < len audio
  /\ len audio <= Z.of_nat (turns audio chunk_ms 0) * chunk_ms.
Proof.
  intros Hc. unfold turns. pose proof (len_nonneg audio) as Hn.
  rewrite Z.sub_0_r.
  set (q := (len audio + chunk_ms - 1) / chunk_ms).
  assert (Hq : 0 <= q) by (apply Z.div_pos; lia).
  rewrite Z2Nat.id by lia.
  pose proof (Z.div_mod (len audio + chunk_ms - 1) chunk_ms ltac:(lia)) as Hdm.
  pose proof (Z.mod_pos_bound (len audio + chunk_ms - 1) chunk_ms Hc) as Hmod.
  fold q in Hdm. nia.
Qed.

Lemma frames_length (audio : AudioSegment) (a b : Z) :
  0 <= a -> a <= b -> b <= len audio -> len (frames audio a b) = b - a.
Proof.
  intros Ha Hab Hb. unfold frames, len in *.
  rewrite length_take, length_drop. lia.
Qed.

(** C4.  For a chunk length of [chunk_seconds > 0] and audio of any
    duration [D = len audio] (in milliseconds), the Chunker returns
    [ceil(D / L)] chunks, [L] being the chunk length in milliseconds; chunk
    [i] holds the frames of [[i*L, min((i+1)*L, D))]; the chunks put end to
    end are the audio itself (no gap, no overlap); every chunk is non-empty
    and only the last one may be shorter than [L]. *)
Theorem chunk_audio_tiles (fuel : nat) (audio : AudioSegment)
    (chunk_seconds : Z) :
  0 < chunk_seconds ->
  (length audio < fuel)%nat ->
  let L := chunk_seconds * 1000 in
  exists chunks : list AudioSegment,
    chunk_audio fuel audio chunk_seconds = Some chunks
    /\ Z.of_nat (length chunks) = (len audio + L - 1) / L
    /\ (Z.of_nat (length chunks) - 1) * L < len audio
       <= Z.of_nat (length chunks) * L
    /\ (forall (i : nat) (chunk : AudioSegment),
          chunks !! i = Some chunk ->
          chunk = frames audio (Z.of_nat i * L)
                    (Z.min ((Z.of_nat i + 1) * L) (len audio))
          /\ 0 < len chunk <= L
          /\ (S i < length chunks -> len chunk = L)%nat)
    /\ concat chunks = audio.
Proof.
  intros Hpos Hfuel L. assert (HL : 0 < L) by (unfold L; lia).
  pose proof (len_nonneg audio) as Hn.
  pose proof (turns_ceiling audio L HL) as [Hlo Hhi].
  exists (tiles (turns audio L 0) audio L 0).
  split; [|split; [|split; [|split]]].
  - unfold chunk_audio. fold L.
    rewrite chunk_loop_tiles; [reflexivity|lia|lia|unfold len; lia].
  - rewrite tiles_length. unfold turns. rewrite Z.sub_0_r.
    rewrite Z2Nat.id; [reflexivity|]. apply Z.div_pos; lia.
  - rewrite tiles_length. lia.
  - intros i chunk Hi.
    assert (Hin : (i < turns audio L 0)%nat).
    { apply lookup_lt_Some in Hi. now rewrite tiles_length in Hi. }
    apply tiles_lookup in Hi. rewrite Z.add_0_l in Hi.
    rewrite Z.add_0_l in Hi. rewrite slice_frames in Hi by nia.
    assert (Hstart : Z.of_nat i * L < len audio) by nia.
    split; [exact Hi|]. subst chunk.
    rewrite frames_length by lia.
    split; [lia|]. rewrite tiles_length. intros Hnext.
    rewrite Z.min_l; nia.
  - rewrite tiles_concat by lia. rewrite drop_0.
    apply take_ge. unfold len in *. nia.
Qed.

(** A recording of 2.5 seconds cut into one-second chunks. *)
Lemma chunk_audio_tiles_witness :
  let audio := replicate 2500 0 in
  let L := 1 * 1000 in
  exists chunks : list AudioSegment,
    chunk_audio 2501 audio 1 = Some chunks
    /\ Z.of_nat (length chunks) = (len audio + L - 1) / L
    /\ (Z.of_nat (length chunks) - 1) * L < len audio
       <= Z.of_nat (length chunks) * L
    /\ (forall (i : nat) (chunk : AudioSegment),
          chunks !! i = Some chunk ->
          chunk = frames audio (Z.of_nat i * L)
                    (Z.min ((Z.of_nat i + 1) * L) (len audio))
          /\ 0 < len chunk <= L
          /\ (S i < length chunks -> len chunk = L)%nat)
    /\ concat chunks = audio.
Proof.
  intros audio L.
  apply (chunk_audio_tiles 2501 audio 1); [lia|].
  unfold audio. rewrite length_replicate. lia.
Defined.

Example chunk_audio_75s :
  option_map (map len)
    (chunk_audio (Z.to_nat 75001) (replicate (Z.to_nat 75000) 0) 30)
  = Some [30000; 30000; 15000].
Proof. vm_compute. reflexivity. Qed.

Example chunk_audio_empty : chunk_audio 1 [] 30 = Some [].
Proof. reflexivity. Qed.

End ChunkerFacts.

(** ** Correction and the orchestrator *)

Section PipelineFacts.

Import PyStr PyDict Audio Transcribe WordClips Pipeline.

Lemma submit_phase_all_rejected (b : Backend) (language : string) :
  (forall n url lang, submit_reply b n url lang = None) ->
  forall items jobs c, fst (submit_phase b language items jobs c) = jobs.
Proof.
  intros Hrej. induction items as [|[i url] rest IH]; intros jobs c; [reflexivity|].
  simpl. unfold _submit_runpod_job. rewrite Hrej. apply IH.
Qed.

Lemma transcribe_chunks_all_rejected (cfg : Config) (b : Backend)
    (r2_urls : list string) (language : string) (chunk_seconds : Z) :
  truthy (RUNPOD_ENDPOINT_ID cfg) = true ->
  truthy (RUNPOD_API_KEY cfg) = true ->
  (forall n url lang, submit_reply b n url lang = None) ->
  fst (transcribe_chunks cfg b r2_urls language chunk_seconds) = inr [].
Proof.
  intros He Hk Hrej. unfold transcribe_chunks. rewrite He, Hk. simpl.
  unfold first_pass.
  pose proof (submit_phase_all_rejected b language Hrej
                (enumerate r2_urls) [] (mkClient 0 [])) as Hjobs.
  destruct (submit_phase b language (enumerate r2_urls) [] (mkClient 0 []))
    as [jobs c]. simpl in Hjobs. subst jobs. reflexivity.
Qed.

Lemma transcribe_chunks_raises (cfg : Config) (b : Backend)
    (r2_urls : list string) (language : string) (chunk_seconds : Z)
    (e : Raised) :
  fst (transcribe_chunks cfg b r2_urls language chunk_seconds) = inl e ->
  e = RunpodConfigError
  /\ (RUNPOD_ENDPOINT_ID cfg = EmptyString \/ RUNPOD_API_KEY cfg = EmptyString).
Proof.
  unfold transcribe_chunks.
  destruct (RUNPOD_ENDPOINT_ID cfg) as [|c1 s1] eqn:He; simpl.
  - intros [= <-]. auto.
  - destruct (RUNPOD_API_KEY cfg) as [|c2 s2] eqn:Hk; simpl.
    + intros [= <-]. auto.
    + destruct (fp_jobs _); [discriminate|].
      destruct (retry_pass _ _ _ _). discriminate.
Qed.

Lemma upload_chunks_loop_raises (h : Host) (cfg : Config) (video_id : string)
    (items : list (nat * AudioSegment)) (r2_urls : list string) (e : Raised) :
  upload_chunks_loop h cfg video_id items r2_urls = inl e ->
  exists i, e = UploadError i /\ r2_put_chunk h video_id i = None.
Proof.
  revert r2_urls. induction items as [|[i a] rest IH]; intros r2_urls; simpl.
  - discriminate.
  - destruct (r2_put_chunk h video_id i) eqn:Hput.
    + apply IH.
    + intros [= <-]. eauto.
Qed.

Lemma correct_transcription_raises (h : Host) (cfg : Config)
    (transcript language_name contact_language : string)
    (known_vocabulary : option (list string)) (e : Raised) :
  correct_transcription h cfg transcript language_name contact_language
    known_vocabulary = inl e ->
  e = CorrectionError /\ ANTHROPIC_API_KEY cfg <> EmptyString
  /\ claude h transcript language_name contact_language known_vocabulary = None.
Proof.
  unfold correct_transcription.
  destruct (ANTHROPIC_API_KEY cfg); simpl; [discriminate|].
  destruct (claude _ _ _ _ _); [discriminate|].
  intros [= <-]. repeat split; auto; discriminate.
Qed.

(** C9.  With no Anthropic API key the correction step returns its input
    unchanged, whatever the transcript; the run is not aborted by it, and
    the result it returns carries the transcript as the corrected text. *)
Theorem correction_skipped_without_key (h : Host) (cfg : Config) :
  ANTHROPIC_API_KEY cfg = EmptyString ->
  (forall transcript language_name contact_language known_vocabulary,
      correct_transcription h cfg transcript language_name contact_language
        known_vocabulary = inr transcript)
  /\ (forall b fuel video_url chunk_seconds known_vocabulary language_name
             language_code contact_languages,
        process_video h cfg b fuel video_url chunk_seconds known_vocabulary
          language_name language_code contact_languages
        <> inl CorrectionError
        /\ forall r,
            process_video h cfg b fuel video_url chunk_seconds
              known_vocabulary language_name language_code contact_languages
            = inr r ->
            res_corrected_transcript r = res_transcript r).
Proof.
  intros Hkey.
  assert (Hskip : forall t ln cl kv,
             correct_transcription h cfg t ln cl kv = inr t).
  { intros. unfold correct_transcription. now rewrite Hkey. }
  split; [exact Hskip|].
  intros b fuel video_url chunk_seconds kv ln lc cls.
  unfold process_video.
  destruct (video_id_of h video_url) as [video_id|]; [|split; [discriminate|discriminate]].
  destruct (download h video_url) as [audio|]; [|split; discriminate].
  destruct (chunk_audio fuel audio chunk_seconds) as [chunk_paths|];
    [|split; discriminate].
  destruct (upload_chunks_to_r2 h cfg chunk_paths video_id) as [e|r2_urls] eqn:Hup.
  { split; [|discriminate]. intros [= ->].
    apply upload_chunks_loop_raises in Hup as (i & Hi & _). discriminate. }
  destruct (fst (transcribe_chunks cfg b r2_urls _ chunk_seconds))
    as [e|segments] eqn:Htr.
  { split; [|discriminate]. intros [= ->].
    apply transcribe_chunks_raises in Htr as [Hi _]. discriminate. }
  rewrite Hskip.
  destruct (truthy (strip (full_text segments)));
    (split; [discriminate|]); intros r [= <-]; reflexivity.
Qed.

Lemma correction_skipped_without_key_witness :
  (forall transcript language_name contact_language known_vocabulary,
      correct_transcription Scenario.host Scenario.cfg transcript
        language_name contact_language known_vocabulary = inr transcript)
  /\ (forall b fuel video_url chunk_seconds known_vocabulary language_name
             language_code contact_languages,
        process_video Scenario.host Scenario.cfg b fuel video_url
          chunk_seconds known_vocabulary language_name language_code
          contact_languages
        <> inl CorrectionError
        /\ forall r,
            process_video Scenario.host Scenario.cfg b fuel video_url
              chunk_seconds known_vocabulary language_name language_code
              contact_languages
            = inr r ->
            res_corrected_transcript r = res_transcript r).
Proof. apply (correction_skipped_without_key Scenario.host Scenario.cfg). reflexivity. Defined.

(** C2 (as amended).  A run raises only when a step outside the per-chunk
    work raises: the video id, the download, the chunking loop, the upload
    of a source chunk, the RunPod configuration check or the correction
    request.  No outcome of a chunk submission or poll makes it raise; when
    every submission is rejected and those steps succeed, the run returns a
    result with no segment, an empty transcript and no word clip. *)
Theorem process_video_failures (h : Host) (cfg : Config) (b : Backend)
    (fuel : nat) (video_url : string) (chunk_seconds : Z)
    (known_vocabulary : option (list string))
    (language_name language_code : string)
    (contact_languages : option (list string)) :
  let run := process_video h cfg b fuel video_url chunk_seconds
               known_vocabulary language_name language_code
               contact_languages in
  (forall e, run = inl e ->
     (e = VideoIdError /\ video_id_of h video_url = None)
     \/ (e = DownloadError /\ download h video_url = None)
     \/ (e = ChunkingDiverges /\ exists audio,
           download h video_url = Some audio
           /\ chunk_audio fuel audio chunk_seconds = None)
     \/ (exists i video_id, e = UploadError i
           /\ r2_put_chunk h video_id i = None)
     \/ (e = RunpodConfigError
         /\ (RUNPOD_ENDPOINT_ID cfg = EmptyString
             \/ RUNPOD_API_KEY cfg = EmptyString))
     \/ (e = CorrectionError /\ ANTHROPIC_API_KEY cfg <> EmptyString
         /\ exists transcript contact_language,
             claude h transcript language_name contact_language
               known_vocabulary = None))
  /\ ((forall n url lang, submit_reply b n url lang = None) ->
      forall video_id audio chunk_paths r2_urls,
        video_id_of h video_url = Some video_id ->
        download h video_url = Some audio ->
        chunk_audio fuel audio chunk_seconds = Some chunk_paths ->
        upload_chunks_to_r2 h cfg chunk_paths video_id = inr r2_urls ->
        truthy (RUNPOD_ENDPOINT_ID cfg) = true ->
        truthy (RUNPOD_API_KEY cfg) = true ->
        exists r, run = inr r
          /\ res_segments r = [] /\ res_transcript r = EmptyString
          /\ res_corrected_transcript r = EmptyString
          /\ res_word_clips r = [] /\ res_audio_urls r = r2_urls).
Proof.
  intros run. subst run. unfold process_video. split.
  - intros e.
    destruct (video_id_of h video_url) as [video_id|]; [|intros [= <-]; auto].
    destruct (download h video_url) as [audio|]; [|intros [= <-]; auto].
    destruct (chunk_audio fuel audio chunk_seconds) as [chunk_paths|] eqn:Hch;
      [|intros [= <-]; right; right; left; eauto].
    destruct (upload_chunks_to_r2 h cfg chunk_paths video_id)
      as [e'|r2_urls] eqn:Hup.
    { intros [= <-]. apply upload_chunks_loop_raises in Hup as (i & -> & Hi).
      right; right; right; left. eauto. }
    destruct (fst (transcribe_chunks cfg b r2_urls _ chunk_seconds))
      as [e'|segments] eqn:Htr.
    { intros [= <-]. apply transcribe_chunks_raises in Htr as [-> Hcfg].
      right; right; right; right; left. auto. }
    destruct (truthy (strip (full_text segments))); [|discriminate].
    destruct (correct_transcription _ _ _ _ _ _) as [e'|c] eqn:Hco;
      [|discriminate].
    intros [= <-]. apply correct_transcription_raises in Hco as (-> & Hk & Hc).
    right; right; right; right; right. eauto.
  - intros Hrej video_id audio chunk_paths r2_urls -> -> -> -> He Hk.
    rewrite (transcribe_chunks_all_rejected cfg b r2_urls _ chunk_seconds He Hk Hrej).
    eexists. split; [reflexivity|]. repeat split.
Qed.

(** C2, as the claim states it, fails: every submission is rejected and
    the run still returns a result. *)
Lemma all_submissions_rejected_run_returns :
  (forall n url lang, submit_reply Scenario.rejecting n url lang = None)
  /\ exists r,
      process_video Scenario.host Scenario.cfg Scenario.rejecting 2501
        "https://youtu.be/dQw4w9WgXcQ" 1 None "Jejueo" "jje"
        (Some ["Korean"%string])
      = inr r.
Proof. split; [reflexivity|]. vm_compute. eexists. reflexivity. Qed.

End PipelineFacts.

(** ** Membership in lists built with [map] and [concat] *)

Section ListFacts.

Context {A B : Type}.

Lemma elem_of_concat (x : A) (ls : list (list A)) :
  x ∈ concat ls <-> exists l, x ∈ l /\ l ∈ ls.
Proof.
  rewrite list_elem_of_In, in_concat. split.
  - intros (l & Hl & Hx). exists l. now rewrite !list_elem_of_In.
  - intros (l & Hx & Hl). exists l. now rewrite <- !list_elem_of_In.
Qed.

Lemma elem_of_map (f : A -> B) (l : list A) (y : B) :
  y ∈ map f l <-> exists x, y = f x /\ x ∈ l.
Proof.
  rewrite list_elem_of_In, in_map_iff. split.
  - intros (x & <- & Hx). exists x. now rewrite list_elem_of_In.
  - intros (x & -> & Hx). exists x. now rewrite <- list_elem_of_In.
Qed.

End ListFacts.

(** ** Rounding to hundredths *)

Section RoundingFacts.

Import PyNum TranscribeSpec.

Lemma round_half_even_close (x : Q) :
  (Qabs (inject_Z (round_half_even x) - x) <= 1 # 2)%Q.
Proof.
  unfold round_half_even.
  pose proof (Qfloor_le x) as Hlo. pose proof (Qlt_floor x) as Hhi.
  rewrite inject_Z_plus in Hhi. change (inject_Z 1) with 1%Q in Hhi.
  apply Qabs_Qle_condition.
  destruct (Qcompare_spec (x - inject_Z (Qfloor x)) (1 # 2)) as [He|Hl|Hg].
  - destruct (Z.even (Qfloor x));
      [|rewrite inject_Z_plus; change (inject_Z 1) with 1%Q]; lra.
  - lra.
  - rewrite inject_Z_plus. change (inject_Z 1) with 1%Q. lra.
Qed.

Lemma round_half_even_Z (n : Z) (x : Q) :
  (x == inject_Z n)%Q -> round_half_even x = n.
Proof.
  intros Hx. unfold round_half_even.
  rewrite (Qfloor_comp _ _ Hx), Qfloor_Z.
  destruct (Qcompare_spec (x - inject_Z n) (1 # 2)) as [He|Hl|Hg];
    [exfalso; lra|reflexivity|exfalso; lra].
Qed.

Lemma Qmake_100 (n : Z) : (Qmake n 100 == inject_Z n / 100)%Q.
Proof.
  unfold Qeq, Qdiv, Qmult, Qinv, inject_Z. simpl. lia.
Qed.

Lemma round2_spec (x : Q) : rounded_to_hundredths x (round2 x).
Proof.
  unfold rounded_to_hundredths, round2. split; [|split].
  - now exists (round_half_even (x * 100)).
  - pose proof (round_half_even_close (x * 100)) as Hc.
    apply Qabs_Qle_condition in Hc. apply Qabs_Qle_condition.
    rewrite Qmake_100. 
    set (r := inject_Z (round_half_even (x * 100))) in *.
    split.
    + apply Qmult_le_r with (z := 100%Q); [reflexivity|]. field_simplify. lra.
    + apply Qmult_le_r with (z := 100%Q); [reflexivity|]. field_simplify. lra.
  - intros n Hx. rewrite (round_half_even_Z n).
    + symmetry. exact Hx.
    + rewrite Hx, Qmake_100. field.
Qed.

End RoundingFacts.

(** ** Job client, poller and retry *)

Section TranscribeFacts.

Import PyNum PyStr PyDict Transcribe TranscribeSpec.

Lemma enumerate_from_fst {A : Type} (l : list A) (n : nat) :
  (enumerate_from n l).*1 = seq n (length l).
Proof.
  revert n. induction l as [|x l IH]; intros n; simpl; [reflexivity|].
  now rewrite IH.
Qed.

Lemma enumerate_from_elem {A : Type} (l : list A) (n i : nat) (x : A) :
  (i, x) ∈ enumerate_from n l <-> (n <= i)%nat /\ l !! (i - n)%nat = Some x.
Proof.
  revert n. induction l as [|y l IH]; intros n; simpl.
  - split; [intros H; inversion H|intros [_ H]; discriminate].
  - rewrite elem_of_cons, IH. split.
    + intros [[= -> ->]|[Hle Hl]].
      * split; [lia|]. now rewrite Nat.sub_diag.
      * split; [lia|]. replace (i - n)%nat with (S (i - S n)) by lia. exact Hl.
    + intros [Hle Hl]. destruct (decide (i = n)) as [->|Hne].
      * left. rewrite Nat.sub_diag in Hl. simpl in Hl. congruence.
      * right. split; [lia|].
        replace (i - n)%nat with (S (i - S n)) in Hl by lia. exact Hl.
Qed.

Lemma submit_phase_log (b : Backend) (language : string) :
  forall items jobs c,
  exists ev,
    submit_phase b language items jobs c
    = (jobs ++ omap event_job ev,
       mkClient (calls c + length items) (log c ++ ev))
    /\ Forall2 first_event items ev.
Proof.
  induction items as [|[i url] rest IH]; intros jobs c.
  - exists []. simpl. rewrite !app_nil_r, Nat.add_0_r. now destruct c.
  - simpl. unfold _submit_runpod_job.
    destruct (submit_reply b (calls c) url language) as [job_id|];
      [destruct (truthy job_id)|].
    + destruct (IH (jobs ++ [(i, job_id)])
                  (logged (Submitted i job_id) (mkClient (S (calls c)) (log c))))
        as (ev & -> & Hev).
      exists (Submitted i job_id :: ev). simpl.
      rewrite <- !app_assoc. simpl. split.
      * do 2 f_equal. lia.
      * constructor; [right; eauto|exact Hev].
    + destruct (IH jobs (logged (SubmitFailed i) (mkClient (S (calls c)) (log c))))
        as (ev & -> & Hev).
      exists (SubmitFailed i :: ev). simpl.
      rewrite <- !app_assoc. simpl. split.
      * do 2 f_equal. lia.
      * constructor; [now left|exact Hev].
    + destruct (IH jobs (logged (SubmitFailed i) (mkClient (S (calls c)) (log c))))
        as (ev & -> & Hev).
      exists (SubmitFailed i :: ev). simpl.
      rewrite <- !app_assoc. simpl. split.
      * do 2 f_equal. lia.
      * constructor; [now left|exact Hev].
Qed.

Lemma retry_submit_phase_log (b : Backend) (language : string) :
  forall failed retry_jobs c,
  exists ev,
    retry_submit_phase b language failed retry_jobs c
    = (retry_jobs ++ omap event_job ev,
       mkClient (calls c + length failed) (log c ++ ev))
    /\ Forall2 retry_event failed ev.
Proof.
  induction failed as [|[i url] rest IH]; intros jobs c.
  - exists []. simpl. rewrite !app_nil_r, Nat.add_0_r. now destruct c.
  - simpl. unfold _submit_runpod_job.
    destruct (submit_reply b (calls c) url language) as [job_id|];
      [destruct (truthy job_id)|].
    + destruct (IH (jobs ++ [(i, job_id)])
                  (logged (RetrySubmitted i job_id)
                     (mkClient (S (calls c)) (log c))))
        as (ev & -> & Hev).
      exists (RetrySubmitted i job_id :: ev). simpl.
      rewrite <- !app_assoc. simpl. split.
      * do 2 f_equal. lia.
      * constructor; [right; eauto|exact Hev].
    + destruct (IH jobs (logged (RetrySubmitFailed i)
                           (mkClient (S (calls c)) (log c))))
        as (ev & -> & Hev).
      exists (RetrySubmitFailed i :: ev). simpl.
      rewrite <- !app_assoc. simpl. split.
      * do 2 f_equal. lia.
      * constructor; [now left|exact Hev].
    + destruct (IH jobs (logged (RetrySubmitFailed i)
                           (mkClient (S (calls c)) (log c))))
        as (ev & -> & Hev).
      exists (RetrySubmitFailed i :: ev). simpl.
      rewrite <- !app_assoc. simpl. split.
      * do 2 f_equal. lia.
      * constructor; [now left|exact Hev].
Qed.

Lemma poll_phase_spec (b : Backend) (r2_urls : list string) (chunk_seconds : Z) :
  forall arrived all_segments failed_chunks,
    poll_phase b r2_urls chunk_seconds arrived all_segments failed_chunks
    = (all_segments ++ merged b chunk_seconds arrived,
       failed_chunks ++ failures b r2_urls arrived).
Proof.
  unfold merged, failures.
  induction arrived as [|[i job_id] rest IH]; intros segs failed.
  - simpl. now rewrite !app_nil_r.
  - rewrite filter_cons. cbn [poll_phase omap list_omap snd fst].
    unfold chunk_result at 1. cbn [snd fst].
    assert (Hps : poll_segments b job_id
                  = match poll_reply b job_id with
                    | PollData result => _process_result result
                    | _ => None
                    end) by reflexivity.
    destruct (poll_reply b job_id) as [result| |];
      [destruct (_process_result result) as [segments|]|..];
      rewrite Hps, IH.
    + rewrite decide_False by discriminate.
      cbn [map concat]. unfold merge_chunk at 1. cbn [fst snd].
      now rewrite <- app_assoc.
    + rewrite decide_True by reflexivity. cbn [map]. now rewrite <- app_assoc.
    + rewrite decide_True by reflexivity. cbn [map]. now rewrite <- app_assoc.
    + rewrite decide_True by reflexivity. cbn [map]. now rewrite <- app_assoc.
Qed.

Lemma retry_poll_phase_spec (b : Backend) (chunk_seconds : Z) :
  forall arrived all_segments,
    retry_poll_phase b chunk_seconds arrived all_segments
    = all_segments ++ merged b chunk_seconds arrived.
Proof.
  unfold merged.
  induction arrived as [|[i job_id] rest IH]; intros segs.
  - simpl. now rewrite app_nil_r.
  - simpl. unfold chunk_result, poll_segments. simpl.
    destruct (poll_reply b job_id) as [result| |];
      [destruct (_process_result result) as [segments|]|..];
      rewrite IH; simpl; try reflexivity.
    unfold merge_chunk at 2. simpl. now rewrite <- app_assoc.
Qed.

Lemma event_chunk_first (item : nat * string) (e : LogEvent) :
  first_event item e -> event_chunk e = Some (fst item) /\ is_retry e = false.
Proof. intros [->|[job_id ->]]; auto. Qed.

Lemma event_chunk_retry (item : nat * string) (e : LogEvent) :
  retry_event item e -> event_chunk e = Some (fst item) /\ is_retry e = true.
Proof. intros [->|[job_id ->]]; auto. Qed.

Lemma count_events (R : nat * string -> LogEvent -> Prop) (i : nat) :
  (forall item e, R item e -> event_chunk e = Some (fst item)) ->
  forall items ev, Forall2 R items ev ->
    length (filter (fun e => event_chunk e = Some i) ev)
    = length (filter (fun item : nat * string => fst item = i) items).
Proof.
  intros HR items ev Hev. induction Hev as [|item e items ev He Hev IH].
  - reflexivity.
  - rewrite !filter_cons. apply HR in He. rewrite He.
    destruct (decide (fst item = i)) as [Heq|Hne].
    + rewrite decide_True by congruence. simpl. now rewrite IH.
    + rewrite decide_False by congruence. exact IH.
Qed.

Lemma count_retries (b : bool) (R : nat * string -> LogEvent -> Prop) (i : nat) :
  (forall item e, R item e -> event_chunk e = Some (fst item) /\ is_retry e = b) ->
  forall items ev, Forall2 R items ev ->
    length (filter (fun e => is_retry e = true /\ event_chunk e = Some i) ev)
    = if b then length (filter (fun item : nat * string => fst item = i) items)
      else O.
Proof.
  intros HR items ev Hev. induction Hev as [|item e items ev He Hev IH].
  - now destruct b.
  - rewrite !filter_cons. apply HR in He as [Hc Hr]. rewrite Hc, Hr.
    destruct b.
    + destruct (decide (fst item = i)) as [Heq|Hne].
      * rewrite decide_True by (split; congruence). simpl. now rewrite IH.
      * rewrite decide_False by (intros [_ ?]; congruence). exact IH.
    + rewrite decide_False by (intros [? _]; congruence). exact IH.
Qed.

Lemma count_index (l : list (nat * string)) (i : nat) :
  NoDup l.*1 ->
  length (filter (fun item : nat * string => fst item = i) l)
  = if decide (i ∈ l.*1) then 1%nat else 0%nat.
Proof.
  induction l as [|[j u] l IH]; intros Hnd.
  - rewrite decide_False; [reflexivity|]. rewrite fmap_nil. apply not_elem_of_nil.
  - rewrite fmap_cons in Hnd. apply NoDup_cons in Hnd as [Hj Hnd].
    rewrite filter_cons, fmap_cons. cbn [fst].
    destruct (decide (j = i)) as [->|Hne]; cbn [length]; rewrite (IH Hnd).
    + rewrite decide_False by exact Hj.
      rewrite decide_True by (left; reflexivity). reflexivity.
    + destruct (decide (i ∈ l.*1)) as [Hin|Hnin].
      * rewrite decide_True by (now right). reflexivity.
      * rewrite decide_False; [reflexivity|].
        intros [?|?]%elem_of_cons; congruence.
Qed.

Lemma jobs_sublist (items : list (nat * string)) (ev : list LogEvent) :
  Forall2 first_event items ev ->
  (omap event_job ev).*1 `sublist_of` items.*1.
Proof.
  induction 1 as [|item e items ev He Hev IH]; [constructor|].
  destruct He as [->|[job_id ->]]; simpl.
  - now apply sublist_cons.
  - now apply sublist_skip.
Qed.

Lemma jobs_submitted (items : list (nat * string)) (ev : list LogEvent)
    (i : nat) (job_id : string) :
  Forall2 first_event items ev ->
  (i, job_id) ∈ omap event_job ev <-> Submitted i job_id ∈ ev.
Proof.
  intros Hev. rewrite list_elem_of_omap. split.
  - intros (e & He & Hjob).
    assert (exists item, first_event item e) as [item Hitem].
    { apply list_elem_of_lookup in He as [k Hk].
      destruct (Forall2_lookup_r _ _ _ _ _ Hev Hk) as (item & _ & Hitem).
      eauto. }
    destruct Hitem as [->|[j ->]]; simpl in Hjob; [discriminate|].
    injection Hjob as Hi Hj. now rewrite <- Hi, <- Hj.
  - intros He. now exists (Submitted i job_id).
Qed.

Lemma rejected_not_a_job (items : list (nat * string)) (ev : list LogEvent)
    (i : nat) :
  NoDup items.*1 -> Forall2 first_event items ev ->
  SubmitFailed i ∈ ev ->
  i ∈ items.*1 /\ i ∉ (omap event_job ev).*1.
Proof.
  intros Hnd Hev. induction Hev as [|item e items ev He Hev IH]; intros Hin.
  - inversion Hin.
  - rewrite fmap_cons in Hnd. apply NoDup_cons in Hnd as [Hhead Hnd].
    pose proof (jobs_sublist items ev Hev) as Hsub.
    apply elem_of_cons in Hin as [Heq|Htail].
    + assert (fst item = i) as <-.
      { destruct He as [->|[j ->]]; [now injection Heq|discriminate]. }
      subst e. split; [rewrite fmap_cons; now left|].
      simpl. intros Hj. apply Hhead. eapply elem_of_sublist; eauto.
    + destruct (IH Hnd Htail) as [Hi Hnj]. split.
      * rewrite fmap_cons. now right.
      * destruct He as [->|[j ->]]; simpl; [exact Hnj|].
        intros [->|?]%elem_of_cons; [|contradiction].
        contradiction.
Qed.

Lemma completion_order_nil (b : Backend) :
  (forall jobs, completion_order b jobs ≡ₚ jobs) -> completion_order b [] = [].
Proof. intros Hperm. now apply Permutation_nil_r. Qed.

Lemma first_pass_spec (b : Backend) (r2_urls : list string)
    (language : string) (chunk_seconds : Z) :
  (forall jobs, completion_order b jobs ≡ₚ jobs) ->
  let fp := first_pass b r2_urls language chunk_seconds in
  exists ev1,
    Forall2 first_event (enumerate r2_urls) ev1
    /\ fp_jobs fp = omap event_job ev1
    /\ log (fp_client fp) = ev1
    /\ fp_segments fp = merged b chunk_seconds (completion_order b (fp_jobs fp))
    /\ fp_failed_chunks fp = failures b r2_urls (completion_order b (fp_jobs fp)).
Proof.
  intros Hperm fp. subst fp. unfold first_pass.
  destruct (submit_phase_log b language (enumerate r2_urls) [] (mkClient 0 []))
    as (ev & Heq & Hev).
  rewrite Heq. cbn [app calls log].
  exists ev. destruct (omap event_job ev) as [|job jobs] eqn:Hjobs.
  - cbn [fp_jobs fp_segments fp_failed_chunks fp_client log].
    rewrite (completion_order_nil b Hperm). repeat split; auto.
  - rewrite poll_phase_spec.
    cbn [fp_jobs fp_segments fp_failed_chunks fp_client log app].
    repeat split; auto.
Qed.

Lemma transcribe_chunks_spec (cfg : Config) (b : Backend)
    (r2_urls : list string) (language : string) (chunk_seconds : Z) :
  truthy (RUNPOD_ENDPOINT_ID cfg) = true ->
  truthy (RUNPOD_API_KEY cfg) = true ->
  (forall jobs, completion_order b jobs ≡ₚ jobs) ->
  let fp := first_pass b r2_urls language chunk_seconds in
  let run := transcribe_chunks cfg b r2_urls language chunk_seconds in
  exists ev1 ev2 tail,
    Forall2 first_event (enumerate r2_urls) ev1
    /\ fp_jobs fp = omap event_job ev1
    /\ Forall2 retry_event (fp_failed_chunks fp) ev2
    /\ Forall (fun e => event_chunk e = None) tail
    /\ log (snd run) = ev1 ++ ev2 ++ tail
    /\ fst run
       = inr (sort_by_start
                (fp_segments fp
                 ++ merged b chunk_seconds
                      (completion_order b (omap event_job ev2)))).
Proof.
  intros He Hk Hperm fp run.
  destruct (first_pass_spec b r2_urls language chunk_seconds Hperm)
    as (ev1 & Hev1 & Hjobs & Hlog & Hsegs & Hfailed).
  fold fp in Hjobs, Hlog, Hsegs, Hfailed.
  subst run. unfold transcribe_chunks. rewrite He, Hk. cbn [negb orb].
  fold fp. exists ev1.
  destruct (fp_jobs fp) as [|job jobs] eqn:Hfpjobs.
  - exists [], [NoChunksSubmitted].
    rewrite (completion_order_nil b Hperm) in Hsegs, Hfailed.
    rewrite Hfailed, Hsegs. cbn [snd fst logged log].
    rewrite Hlog. cbn [omap list_omap]. rewrite (completion_order_nil b Hperm).
    repeat split; auto; repeat constructor.
  - unfold retry_pass.
    destruct (fp_failed_chunks fp) as [|failed faileds] eqn:Hf.
    + exists [], []. cbn [snd fst]. rewrite Hlog, app_nil_r.
      cbn [omap list_omap]. rewrite (completion_order_nil b Hperm).
      unfold merged at 1. cbn [omap list_omap map concat]. rewrite app_nil_r.
      repeat split; auto.
    + destruct (retry_submit_phase_log b language (failed :: faileds) []
                  (fp_client fp)) as (ev2 & Heq & Hev2).
      rewrite Heq. cbn [app]. exists ev2, [].
      destruct (omap event_job ev2) as [|rj rjs] eqn:Hrj.
      * cbn [snd fst log]. rewrite Hlog, app_nil_r.
        rewrite (completion_order_nil b Hperm).
        unfold merged at 1. cbn [omap list_omap map concat]. rewrite app_nil_r.
        repeat split; auto.
      * rewrite retry_poll_phase_spec. cbn [snd fst log].
        rewrite Hlog, app_nil_r. repeat split; auto.
Qed.

Lemma filter_no_chunk (P : LogEvent -> Prop) (D : forall e, Decision (P e))
    (tail : list LogEvent) :
  Forall (fun e => event_chunk e = None) tail ->
  (forall e, P e -> event_chunk e <> None) ->
  filter P tail = [].
Proof.
  intros Htail HP. induction Htail as [|e tl Hnone _ IH]; [reflexivity|].
  rewrite filter_cons, decide_False; [exact IH|].
  intros Hp. now apply (HP e Hp).
Qed.

(** C1 (as amended).  A chunk whose first-pass submission is rejected is
    only logged: it is not put on [failed_chunks] and is never submitted
    again.  The chunks collected for the single retry round are exactly
    those whose job was submitted and did not end in success (timeout, poll
    exception, [FAILED] status or handler error), and each of them is
    submitted exactly once more. *)
Theorem retry_set_spec (cfg : Config) (b : Backend)
    (r2_urls : list string) (language : string) (chunk_seconds : Z) (i : nat) :
  truthy (RUNPOD_ENDPOINT_ID cfg) = true ->
  truthy (RUNPOD_API_KEY cfg) = true ->
  (forall jobs, completion_order b jobs ≡ₚ jobs) ->
  let failed :=
    (fp_failed_chunks (first_pass b r2_urls language chunk_seconds)).*1 in
  let lg := log (snd (transcribe_chunks cfg b r2_urls language chunk_seconds)) in
  (i ∈ failed <->
     exists job_id, Submitted i job_id ∈ lg /\ poll_segments b job_id = None)
  /\ (SubmitFailed i ∈ lg ->
        (i ∉ failed) /\ submissions i lg = 1%nat /\ resubmissions i lg = 0%nat)
  /\ (i ∈ failed -> submissions i lg = 2%nat /\ resubmissions i lg = 1%nat).
Proof.
  intros He Hk Hperm failed lg.
  destruct (transcribe_chunks_spec cfg b r2_urls language chunk_seconds
              He Hk Hperm)
    as (ev1 & ev2 & tail & Hev1 & Hjobs & Hev2 & Htail & Hlog & _).
  destruct (first_pass_spec b r2_urls language chunk_seconds Hperm)
    as (_ & _ & _ & _ & _ & Hfailed).
  set (fp := first_pass b r2_urls language chunk_seconds) in *.
  fold lg in Hlog.
  assert (Hitems : NoDup (enumerate r2_urls).*1).
  { unfold enumerate. rewrite enumerate_from_fst. apply NoDup_seq. }
  assert (Hjobs_nd : NoDup (fp_jobs fp).*1).
  { rewrite Hjobs. eapply sublist_NoDup; [exact Hitems|now apply jobs_sublist]. }
  assert (Hfailed_fst : failed
            = (filter (fun job => poll_segments b (snd job) = None)
                 (completion_order b (fp_jobs fp))).*1).
  { unfold failed. rewrite Hfailed. unfold failures.
    rewrite <- list_fmap_compose. reflexivity. }
  assert (Hfailed_sub : failed `sublist_of` (completion_order b (fp_jobs fp)).*1).
  { rewrite Hfailed_fst. apply fmap_sublist, sublist_filter. }
  assert (Harr_nd : NoDup (completion_order b (fp_jobs fp)).*1).
  { now rewrite (Hperm (fp_jobs fp)). }
  assert (Hfailed_nd : NoDup failed) by (eapply sublist_NoDup; eauto).
  assert (Hfailed_job : forall j, j ∈ failed -> j ∈ (fp_jobs fp).*1).
  { intros j Hj. rewrite <- (Hperm (fp_jobs fp)).
    eapply elem_of_sublist; eauto. }
  assert (Hjob_item : forall j, j ∈ (fp_jobs fp).*1 -> j ∈ (enumerate r2_urls).*1).
  { intros j Hj. rewrite Hjobs in Hj.
    eapply elem_of_sublist; [exact Hj|]. now apply jobs_sublist. }
  assert (Hcount : forall j,
     submissions j lg
     = (((if decide (j ∈ (enumerate r2_urls).*1) then 1 else 0)
         + (if decide (j ∈ failed) then 1 else 0)))%nat
     /\ resubmissions j lg = if decide (j ∈ failed) then 1%nat else 0%nat).
  { intros j. unfold submissions, resubmissions. rewrite Hlog.
    rewrite !filter_app, !length_app.
    rewrite (count_events first_event j
               (fun it e H => proj1 (event_chunk_first it e H)) _ _ Hev1).
    rewrite (count_events retry_event j
               (fun it e H => proj1 (event_chunk_retry it e H)) _ _ Hev2).
    rewrite (count_retries false first_event j event_chunk_first _ _ Hev1).
    rewrite (count_retries true retry_event j event_chunk_retry _ _ Hev2).
    rewrite (count_index _ j Hitems).
    rewrite (count_index (fp_failed_chunks fp) j Hfailed_nd). fold failed.
    rewrite !(filter_no_chunk _ _ tail Htail).
    - simpl. split; lia.
    - intros e [_ Hc]. congruence.
    - intros e Hc. congruence. }
  assert (Hlog_ev1 : forall e, event_chunk e <> None -> is_retry e = false ->
                     e ∈ lg -> e ∈ ev1).
  { intros e Hc Hr. rewrite Hlog, !elem_of_app. intros [?|[Hin|Hin]]; [assumption|..].
    - exfalso. apply list_elem_of_lookup in Hin as [k Hlk].
      destruct (Forall2_lookup_r _ _ _ _ _ Hev2 Hlk) as (item & _ & Hitem).
      apply event_chunk_retry in Hitem as [_ Hitem]. congruence.
    - exfalso. rewrite Forall_forall in Htail. now apply Hc, Htail. }
  split; [|split].
  - rewrite Hfailed_fst, list_elem_of_fmap. split.
    + intros ([j job_id] & -> & [Hnone Harr]%list_elem_of_filter).
      exists job_id. split; [|exact Hnone].
      rewrite (Hperm (fp_jobs fp)), Hjobs in Harr.
      apply (jobs_submitted _ _ _ _ Hev1) in Harr.
      rewrite Hlog. apply elem_of_app. now left.
    + intros (job_id & Hsub & Hnone).
      apply Hlog_ev1 in Hsub; [|discriminate|reflexivity].
      apply (jobs_submitted _ _ _ _ Hev1) in Hsub.
      exists (i, job_id). split; [reflexivity|].
      apply list_elem_of_filter. split; [exact Hnone|].
      rewrite (Hperm (fp_jobs fp)), Hjobs. exact Hsub.
  - intros Hrej. apply Hlog_ev1 in Hrej; [|discriminate|reflexivity].
    destruct (rejected_not_a_job _ _ _ Hitems Hev1 Hrej) as [Hitem Hnj].
    assert (Hnf : i ∉ failed).
    { intros Hf. apply Hnj. rewrite <- Hjobs. now apply Hfailed_job. }
    split; [exact Hnf|].
    destruct (Hcount i) as [-> ->].
    rewrite decide_True by exact Hitem. rewrite decide_False by exact Hnf.
    split; reflexivity.
  - intros Hf. destruct (Hcount i) as [-> ->].
    rewrite decide_True by (apply Hjob_item, Hfailed_job, Hf).
    rewrite decide_True by exact Hf. split; reflexivity.
Qed.

(** Chunk 1 of the flaky backend: its job timed out, it is retried once. *)
Lemma retry_set_spec_witness :
  let failed :=
    (fp_failed_chunks (first_pass Scenario.flaky Scenario.urls4 "ko" 30)).*1 in
  let lg :=
    log (snd (transcribe_chunks Scenario.cfg Scenario.flaky Scenario.urls4
                "ko" 30)) in
  (1%nat ∈ failed <->
     exists job_id,
       Submitted 1 job_id ∈ lg /\ poll_segments Scenario.flaky job_id = None)
  /\ (SubmitFailed 1 ∈ lg ->
        (1%nat ∉ failed)
        /\ submissions 1 lg = 1%nat /\ resubmissions 1 lg = 0%nat)
  /\ (1%nat ∈ failed -> submissions 1 lg = 2%nat /\ resubmissions 1 lg = 1%nat).
Proof.
  apply (retry_set_spec Scenario.cfg Scenario.flaky Scenario.urls4 "ko" 30 1).
  - reflexivity.
  - reflexivity.
  - intros jobs. apply reverse_Permutation.
Defined.

Example flaky_log :
  log (snd (transcribe_chunks Scenario.cfg Scenario.flaky Scenario.urls4
              "ko" 30))
  = [SubmitFailed 0; Submitted 1 "job-1"; Submitted 2 "job-2";
     Submitted 3 "job-3"; RetrySubmitted 1 "job-1-retry"]
  /\ fp_failed_chunks (first_pass Scenario.flaky Scenario.urls4 "ko" 30)
     = [(1%nat, "u1"%string)].
Proof. vm_compute. split; reflexivity. Qed.

(** C1, as the claim states it, fails: the submission of chunk 0 is
    rejected in the first pass, yet chunk 0 is not among the failed chunks
    collected for the retry round and is never submitted again. *)
Lemma rejected_submission_not_retried :
  let failed :=
    (fp_failed_chunks (first_pass Scenario.flaky Scenario.urls4 "ko" 30)).*1 in
  let lg :=
    log (snd (transcribe_chunks Scenario.cfg Scenario.flaky Scenario.urls4
                "ko" 30)) in
  SubmitFailed 0 ∈ lg
  /\ ~ (0%nat ∈ failed)
  /\ submissions 0 lg = 1%nat
  /\ resubmissions 0 lg = 0%nat.
Proof.
  intros failed lg.
  assert (Hlg : lg = [SubmitFailed 0; Submitted 1 "job-1"; Submitted 2 "job-2";
                      Submitted 3 "job-3"; RetrySubmitted 1 "job-1-retry"])
    by (vm_compute; reflexivity).
  assert (Hf : failed = [1%nat]) by (vm_compute; reflexivity).
  rewrite Hlg, Hf. split; [left|split; [|split; vm_compute; reflexivity]].
  intros [H|H]%elem_of_cons; [discriminate|inversion H].
Qed.

Lemma insert_by_start_perm (s : Segment) (l : list Segment) :
  insert_by_start s l ≡ₚ s :: l.
Proof.
  induction l as [|t l IH]; [reflexivity|]. simpl.
  destruct (Qcompare (seg_start t) (seg_start s)); try reflexivity.
  rewrite IH. apply perm_swap.
Qed.

Lemma sort_by_start_perm (l : list Segment) : sort_by_start l ≡ₚ l.
Proof.
  induction l as [|s l IH]; [reflexivity|].
  unfold sort_by_start in *. simpl. rewrite insert_by_start_perm. now rewrite IH.
Qed.

Lemma elem_of_merged (b : Backend) (chunk_seconds : Z)
    (arrived : list (nat * string)) (e : Segment) :
  e ∈ merged b chunk_seconds arrived <->
  exists i job_id segments seg,
    (i, job_id) ∈ arrived /\ poll_segments b job_id = Some segments
    /\ seg ∈ segments
    /\ e = offset_segment (Z.of_nat i * chunk_seconds) seg.
Proof.
  unfold merged. rewrite elem_of_concat. split.
  - intros (block & He & Hblock).
    apply elem_of_map in Hblock as ([i segments] & -> & Hres).
    apply list_elem_of_omap in Hres as ([j job_id] & Hjob & Hres).
    unfold chunk_result in Hres. simpl in Hres.
    destruct (poll_segments b job_id) as [segs|] eqn:Hps; [|discriminate].
    injection Hres as -> ->.
    unfold merge_chunk in He. simpl in He.
    apply elem_of_map in He as (seg & -> & Hseg).
    exists i, job_id, segments, seg. auto.
  - intros (i & job_id & segments & seg & Hjob & Hps & Hseg & ->).
    exists (merge_chunk chunk_seconds (i, segments)). split.
    + unfold merge_chunk. simpl. apply elem_of_map. eauto.
    + apply elem_of_map. exists (i, segments). split; [reflexivity|].
      apply list_elem_of_omap. exists (i, job_id). split; [exact Hjob|].
      unfold chunk_result. simpl. now rewrite Hps.
Qed.

Lemma offset_word_shifted (offset : Z) (w : Word) :
  word_shifted offset w (offset_word offset w).
Proof.
  unfold word_shifted, offset_word. simpl.
  repeat split; try apply round2_spec.
Qed.

Lemma offset_segment_shifted (offset : Z) (seg : Segment) :
  segment_shifted offset seg (offset_segment offset seg).
Proof.
  unfold segment_shifted, offset_segment. simpl.
  split; [reflexivity|]. split; [apply round2_spec|].
  split; [apply round2_spec|].
  destruct (seg_words seg) as [ws|]; simpl; [|exact I].
  induction ws as [|w ws IH]; constructor; [apply offset_word_shifted|exact IH].
Qed.

Lemma retry_jobs_submitted (items : list (nat * string)) (ev : list LogEvent)
    (i : nat) (job_id : string) :
  Forall2 retry_event items ev ->
  (i, job_id) ∈ omap event_job ev <-> RetrySubmitted i job_id ∈ ev.
Proof.
  intros Hev. rewrite list_elem_of_omap. split.
  - intros (e & He & Hjob).
    assert (exists item, retry_event item e) as [item Hitem].
    { apply list_elem_of_lookup in He as [k Hlk].
      destruct (Forall2_lookup_r _ _ _ _ _ Hev Hlk) as (item & _ & Hitem).
      eauto. }
    destruct Hitem as [->|[j ->]]; simpl in Hjob; [discriminate|].
    injection Hjob as Hi Hj. now rewrite <- Hi, <- Hj.
  - intros He. now exists (RetrySubmitted i job_id).
Qed.

(** The jobs that were polled, read off the log, and the merged output. *)
Lemma transcribe_chunks_jobs (cfg : Config) (b : Backend)
    (r2_urls : list string) (language : string) (chunk_seconds : Z) :
  truthy (RUNPOD_ENDPOINT_ID cfg) = true ->
  truthy (RUNPOD_API_KEY cfg) = true ->
  (forall jobs, completion_order b jobs ≡ₚ jobs) ->
  let run := transcribe_chunks cfg b r2_urls language chunk_seconds in
  exists jobs retry_jobs,
    (forall i job_id, (i, job_id) ∈ jobs <-> Submitted i job_id ∈ log (snd run))
    /\ (forall i job_id,
          (i, job_id) ∈ retry_jobs <-> RetrySubmitted i job_id ∈ log (snd run))
    /\ fst run
       = inr (sort_by_start
                (merged b chunk_seconds (completion_order b jobs)
                 ++ merged b chunk_seconds (completion_order b retry_jobs))).
Proof.
  intros He Hk Hperm run.
  destruct (transcribe_chunks_spec cfg b r2_urls language chunk_seconds
              He Hk Hperm)
    as (ev1 & ev2 & tail & Hev1 & Hjobs & Hev2 & Htail & Hlog & Hout).
  destruct (first_pass_spec b r2_urls language chunk_seconds Hperm)
    as (_ & _ & _ & _ & Hsegs & _).
  fold run in Hlog, Hout.
  exists (omap event_job ev1), (omap event_job ev2).
  rewrite Hout, Hsegs, Hjobs, Hlog. split; [|split; [|reflexivity]].
  - intros i job_id. rewrite (jobs_submitted _ _ _ _ Hev1), !elem_of_app.
    split; [auto|]. intros [?|[Hin|Hin]]; [assumption|exfalso..].
    + apply list_elem_of_lookup in Hin as [k Hlk].
      destruct (Forall2_lookup_r _ _ _ _ _ Hev2 Hlk) as (item & _ & Hitem).
      apply event_chunk_retry in Hitem as [_ Hitem]. discriminate.
    + rewrite Forall_forall in Htail. apply Htail in Hin. discriminate.
  - intros i job_id. rewrite (retry_jobs_submitted _ _ _ _ Hev2), !elem_of_app.
    split; [auto|]. intros [Hin|[?|Hin]]; [exfalso|assumption|exfalso].
    + apply list_elem_of_lookup in Hin as [k Hlk].
      destruct (Forall2_lookup_r _ _ _ _ _ Hev1 Hlk) as (item & _ & Hitem).
      apply event_chunk_first in Hitem as [_ Hitem]. discriminate.
    + rewrite Forall_forall in Htail. apply Htail in Hin. discriminate.
Qed.

(** C5.  The merged transcript consists exactly of the segments of the
    successfully completed jobs, each moved from chunk-local to global time:
    a segment of chunk [i] has its [start] and [end], and the [start] and
    [end] of each of its words, shifted by [i * chunk_seconds] and rounded
    to two decimals (the shift is exact when the local time has two
    decimals); text and probabilities are kept. *)
Theorem merged_timestamps (cfg : Config) (b : Backend)
    (r2_urls : list string) (language : string) (chunk_seconds : Z) :
  truthy (RUNPOD_ENDPOINT_ID cfg) = true ->
  truthy (RUNPOD_API_KEY cfg) = true ->
  (forall jobs, completion_order b jobs ≡ₚ jobs) ->
  let run := transcribe_chunks cfg b r2_urls language chunk_seconds in
  let polled i job_id :=
    Submitted i job_id ∈ log (snd run) \/ RetrySubmitted i job_id ∈ log (snd run) in
  exists out,
    fst run = inr out
    /\ (forall e, e ∈ out ->
          exists i job_id segments seg,
            polled i job_id /\ poll_segments b job_id = Some segments
            /\ seg ∈ segments
            /\ e = offset_segment (Z.of_nat i * chunk_seconds) seg
            /\ segment_shifted (Z.of_nat i * chunk_seconds) seg e)
    /\ (forall i job_id segments seg,
          polled i job_id -> poll_segments b job_id = Some segments ->
          seg ∈ segments ->
          exists e, e ∈ out
            /\ segment_shifted (Z.of_nat i * chunk_seconds) seg e).
Proof.
  intros He Hk Hperm run polled.
  destruct (transcribe_chunks_jobs cfg b r2_urls language chunk_seconds
              He Hk Hperm) as (jobs & retry_jobs & Hjobs & Hretry & Hout).
  fold run in Hjobs, Hretry, Hout.
  eexists. split; [exact Hout|]. split.
  - intros e. rewrite sort_by_start_perm, elem_of_app, !elem_of_merged.
    intros [(i & job_id & segments & seg & Hjob & Hps & Hseg & ->)
           |(i & job_id & segments & seg & Hjob & Hps & Hseg & ->)];
      exists i, job_id, segments, seg;
      (split; [|split; [exact Hps|split; [exact Hseg|split;
                 [reflexivity|apply offset_segment_shifted]]]]).
    + left. apply Hjobs. now rewrite <- (Hperm jobs).
    + right. apply Hretry. now rewrite <- (Hperm retry_jobs).
  - intros i job_id segments seg Hpolled Hps Hseg.
    exists (offset_segment (Z.of_nat i * chunk_seconds) seg).
    split; [|apply offset_segment_shifted].
    rewrite sort_by_start_perm, elem_of_app, !elem_of_merged.
    destruct Hpolled as [Hp|Hp]; [left|right];
      exists i, job_id, segments, seg; repeat split; auto.
    + rewrite (Hperm jobs). now apply Hjobs.
    + rewrite (Hperm retry_jobs). now apply Hretry.
Qed.

Lemma merged_timestamps_witness :
  let run :=
    transcribe_chunks Scenario.cfg Scenario.flaky Scenario.urls4 "ko" 30 in
  let polled i job_id :=
    Submitted i job_id ∈ log (snd run) \/ RetrySubmitted i job_id ∈ log (snd run) in
  exists out,
    fst run = inr out
    /\ (forall e, e ∈ out ->
          exists i job_id segments seg,
            polled i job_id
            /\ poll_segments Scenario.flaky job_id = Some segments
            /\ seg ∈ segments
            /\ e = offset_segment (Z.of_nat i * 30) seg
            /\ segment_shifted (Z.of_nat i * 30) seg e)
    /\ (forall i job_id segments seg,
          polled i job_id ->
          poll_segments Scenario.flaky job_id = Some segments ->
          seg ∈ segments ->
          exists e, e ∈ out /\ segment_shifted (Z.of_nat i * 30) seg e).
Proof.
  apply (merged_timestamps Scenario.cfg Scenario.flaky Scenario.urls4 "ko" 30).
  - reflexivity.
  - reflexivity.
  - intros jobs. apply reverse_Permutation.
Defined.

(** A word at chunk-local 2.00 s in chunk 3 of 30-second chunks comes out
    at 92.00 s; chunk 1, which succeeded on retry, is shifted by 30 s. *)
Example flaky_transcript :
  fst (transcribe_chunks Scenario.cfg Scenario.flaky Scenario.urls4 "ko" 30)
  = inr [ mkSegment (3050 # 100) (3150 # 100) "annyeong"
            (Some [mkWord " annyeong" (3050 # 100) (3150 # 100) None]);
          mkSegment (6000 # 100) (6250 # 100) "hello there" None;
          mkSegment (9200 # 100) (9230 # 100) "hello"
            (Some [mkWord "hello" (9200 # 100) (9230 # 100) (Some (9 # 10))]) ]
  /\ (9200 # 100 == 92)%Q.
Proof. split; [vm_compute; reflexivity|reflexivity]. Qed.

(** *** The sort and the order of arrival *)

Lemma insert_by_start_sorted (s : Segment) (l : list Segment) :
  sorted_by_start l -> sorted_by_start (insert_by_start s l).
Proof.
  unfold sorted_by_start. intros Hl. induction Hl as [|t l Hl IH Ht].
  - repeat constructor.
  - simpl. destruct (Qcompare_spec (seg_start t) (seg_start s)) as [He|Hlt|Hgt].
    + constructor; [now constructor|]. constructor; [rewrite He; apply Qle_refl|].
      eapply Forall_impl; [exact Ht|]. intros u Hu. simpl in Hu. now rewrite <- He.
    + constructor; [exact IH|].
      rewrite (insert_by_start_perm s l). constructor; [now apply Qlt_le_weak|exact Ht].
    + constructor; [now constructor|]. constructor; [now apply Qlt_le_weak|].
      eapply Forall_impl; [exact Ht|]. intros u Hu. simpl in Hu.
      eapply Qle_trans; [apply Qlt_le_weak; exact Hgt|exact Hu].
Qed.

Lemma sort_by_start_sorted (l : list Segment) :
  sorted_by_start (sort_by_start l).
Proof.
  induction l as [|s l IH]; [constructor|].
  apply insert_by_start_sorted, IH.
Qed.

(** The sort is stable: segments with the same [start] keep their order. *)
Lemma insert_by_start_stable (k : Q) (s : Segment) (l : list Segment) :
  filter (starts_at k) (insert_by_start s l) = filter (starts_at k) (s :: l).
Proof.
  induction l as [|t l IH]; [reflexivity|]. simpl.
  destruct (Qcompare_spec (seg_start t) (seg_start s)) as [He|Hlt|Hgt];
    try reflexivity.
  rewrite (filter_cons _ t), IH, !filter_cons.
  destruct (decide (starts_at k t)) as [Ht|Ht];
    destruct (decide (starts_at k s)) as [Hs|Hs]; try reflexivity.
  exfalso. unfold starts_at in *. rewrite Ht, Hs in Hlt.
  now apply Qlt_irrefl in Hlt.
Qed.

Lemma sort_by_start_stable (k : Q) (l : list Segment) :
  filter (starts_at k) (sort_by_start l) = filter (starts_at k) l.
Proof.
  induction l as [|s l IH]; [reflexivity|].
  change (sort_by_start (s :: l)) with (insert_by_start s (sort_by_start l)).
  now rewrite insert_by_start_stable, !filter_cons, IH.
Qed.

Lemma sorted_same_classes (l1 l2 : list Segment) :
  sorted_by_start l1 -> sorted_by_start l2 ->
  (forall k, filter (starts_at k) l1 = filter (starts_at k) l2) ->
  l1 = l2.
Proof.
  unfold sorted_by_start. intros H1. revert l2.
  induction H1 as [|x l1 H1 IH Hx]; intros l2 H2 Hcl.
  - destruct l2 as [|y l2]; [reflexivity|].
    specialize (Hcl (seg_start y)). rewrite filter_cons in Hcl.
    rewrite decide_True in Hcl by (unfold starts_at; reflexivity). discriminate.
  - destruct H2 as [|y l2 H2 Hy].
    { specialize (Hcl (seg_start x)). rewrite filter_cons in Hcl.
      rewrite decide_True in Hcl by (unfold starts_at; reflexivity). discriminate. }
    assert (Hxin : x ∈ y :: l2).
    { pose proof (Hcl (seg_start x)) as Hc. rewrite filter_cons in Hc.
      rewrite decide_True in Hc by (unfold starts_at; reflexivity).
      assert (Hm : x ∈ filter (starts_at (seg_start x)) (y :: l2))
        by (rewrite <- Hc; left).
      now apply list_elem_of_filter in Hm as [_ Hm]. }
    assert (Hyin : y ∈ x :: l1).
    { pose proof (Hcl (seg_start y)) as Hc. rewrite (filter_cons _ y) in Hc.
      rewrite decide_True in Hc by (unfold starts_at; reflexivity).
      assert (Hm : y ∈ filter (starts_at (seg_start y)) (x :: l1))
        by (rewrite Hc; left).
      now apply list_elem_of_filter in Hm as [_ Hm]. }
    assert (Hle1 : (seg_start x <= seg_start y)%Q).
    { apply elem_of_cons in Hyin as [->|Hin]; [apply Qle_refl|].
      rewrite Forall_forall in Hx. now apply Hx. }
    assert (Hle2 : (seg_start y <= seg_start x)%Q).
    { apply elem_of_cons in Hxin as [->|Hin]; [apply Qle_refl|].
      rewrite Forall_forall in Hy. now apply Hy. }
    assert (Heq : (seg_start y == seg_start x)%Q) by now apply Qle_antisym.
    assert (x = y) as <-.
    { pose proof (Hcl (seg_start x)) as Hc. rewrite !filter_cons in Hc.
      rewrite decide_True in Hc by (unfold starts_at; reflexivity).
      rewrite decide_True in Hc by exact Heq. now injection Hc. }
    f_equal. apply IH; [exact H2|]. intros k.
    specialize (Hcl k). rewrite !filter_cons in Hcl.
    destruct (decide (starts_at k x)); [now injection Hcl|exact Hcl].
Qed.

Lemma no_common_start_sym (l1 l2 : list Segment) :
  no_common_start l1 l2 -> no_common_start l2 l1.
Proof. intros H s t Hs Ht Heq. apply (H t s Ht Hs). now symmetry. Qed.

Lemma apart_perm (blocks blocks' : list (list Segment)) :
  blocks ≡ₚ blocks' -> apart blocks -> apart blocks'.
Proof.
  induction 1 as [|x l l' Hp IH|x y l|l l' l'' _ IH1 _ IH2]; intros Ha.
  - constructor.
  - inversion Ha as [|? ? Hx Hl]; subst. constructor; [|now apply IH].
    now rewrite <- Hp.
  - inversion Ha as [|? ? Hy Hyl]; subst.
    inversion Hyl as [|? ? Hx Hl]; subst.
    apply Forall_cons in Hy as [Hyx Hy].
    constructor; [constructor; [now apply no_common_start_sym|exact Hx]|].
    now constructor.
  - auto.
Qed.

Lemma filter_concat_perm (k : Q) (blocks blocks' : list (list Segment)) :
  blocks ≡ₚ blocks' -> apart blocks ->
  filter (starts_at k) (concat blocks) = filter (starts_at k) (concat blocks').
Proof.
  induction 1 as [|x l l' Hp IH|x y l|l l' l'' Hp1 IH1 Hp2 IH2]; intros Ha.
  - reflexivity.
  - inversion Ha; subst. simpl. rewrite !filter_app. f_equal. now apply IH.
  - inversion Ha as [|? ? Hy Hyl]; subst.
    apply Forall_cons in Hy as [Hyx _].
    simpl. rewrite !filter_app, !app_assoc. f_equal.
    destruct (filter (starts_at k) y) as [|a fy] eqn:Hfy;
      [now rewrite app_nil_r|].
    destruct (filter (starts_at k) x) as [|c fx] eqn:Hfx;
      [now rewrite app_nil_r|].
    exfalso.
    assert (Ha' : a ∈ filter (starts_at k) y) by (rewrite Hfy; left).
    assert (Hc' : c ∈ filter (starts_at k) x) by (rewrite Hfx; left).
    apply list_elem_of_filter in Ha' as [Hak Hay].
    apply list_elem_of_filter in Hc' as [Hck Hcx].
    apply (Hyx a c Hay Hcx). unfold starts_at in *. now rewrite Hak, Hck.
  - rewrite IH1 by exact Ha. apply IH2. eapply apart_perm; eauto.
Qed.

(** [transcribe_chunks] is the Reassembler applied to the results of the
    successful jobs, in their order of arrival (first pass, then retries). *)
Lemma transcribe_chunks_reassemble (cfg : Config) (b : Backend)
    (r2_urls : list string) (language : string) (chunk_seconds : Z) :
  truthy (RUNPOD_ENDPOINT_ID cfg) = true ->
  truthy (RUNPOD_API_KEY cfg) = true ->
  (forall jobs, completion_order b jobs ≡ₚ jobs) ->
  exists arrived,
    fst (transcribe_chunks cfg b r2_urls language chunk_seconds)
    = inr (reassemble chunk_seconds (omap (chunk_result b) arrived)).
Proof.
  intros He Hk Hperm.
  destruct (transcribe_chunks_jobs cfg b r2_urls language chunk_seconds
              He Hk Hperm) as (jobs & retry_jobs & _ & _ & Hout).
  exists (completion_order b jobs ++ completion_order b retry_jobs).
  rewrite Hout. unfold reassemble, merged.
  now rewrite omap_app, map_app, concat_app.
Qed.

(** C6 (as amended).  Whatever the order in which the per-chunk results
    reach the Reassembler, the transcript is sorted ascending by [start] and
    holds the same segments.  It is the same transcript, with the same full
    text, whenever no two chunks produce a segment with the same shifted
    [start]: the sort is stable and compares [start] only, so segments of
    different chunks with equal [start] stay in their order of arrival. *)
Theorem reassemble_order (chunk_seconds : Z)
    (results results' : list (nat * list Segment)) :
  results ≡ₚ results' ->
  sorted_by_start (reassemble chunk_seconds results')
  /\ reassemble chunk_seconds results' ≡ₚ reassemble chunk_seconds results
  /\ (apart (map (merge_chunk chunk_seconds) results) ->
      reassemble chunk_seconds results' = reassemble chunk_seconds results
      /\ full_text (reassemble chunk_seconds results')
         = full_text (reassemble chunk_seconds results)).
Proof.
  intros Hperm.
  assert (Hblocks : map (merge_chunk chunk_seconds) results
                    ≡ₚ map (merge_chunk chunk_seconds) results')
    by now apply Permutation_map.
  split; [apply sort_by_start_sorted|]. split.
  - unfold reassemble. rewrite !sort_by_start_perm.
    symmetry. clear Hperm. induction Hblocks; simpl.
    + reflexivity.
    + now apply Permutation_app_head.
    + rewrite !app_assoc. apply Permutation_app_tail, Permutation_app_comm.
    + etransitivity; eauto.
  - intros Hapart.
    assert (Heq : reassemble chunk_seconds results'
                  = reassemble chunk_seconds results).
    { apply sorted_same_classes; try apply sort_by_start_sorted.
      intros k. unfold reassemble. rewrite !sort_by_start_stable.
      symmetry. now apply filter_concat_perm. }
    split; [exact Heq|now rewrite Heq].
Qed.

(** The three successful chunks of the flaky backend, in two orders. *)
Lemma reassemble_order_witness :
  let results :=
    [ (1%nat, [mkSegment (1 # 2) (3 # 2) "annyeong" None]);
      (2%nat, [mkSegment 0 (5 # 2) "hello there" None]);
      (3%nat, [mkSegment 2 (23 # 10) "hello" None]) ] in
  let results' := reverse results in
  sorted_by_start (reassemble 30 results')
  /\ reassemble 30 results' ≡ₚ reassemble 30 results
  /\ (apart (map (merge_chunk 30) results) ->
      reassemble 30 results' = reassemble 30 results
      /\ full_text (reassemble 30 results') = full_text (reassemble 30 results)).
Proof.
  intros results results'.
  apply (reassemble_order 30 results results').
  symmetry. apply reverse_Permutation.
Defined.

Example reassemble_apart :
  apart (map (merge_chunk 30)
           [ (1%nat, [mkSegment (1 # 2) (3 # 2) "annyeong" None]);
             (2%nat, [mkSegment 0 (5 # 2) "hello there" None]);
             (3%nat, [mkSegment 2 (23 # 10) "hello" None]) ]).
Proof.
  repeat constructor;
    intros s t [->|Hs%elem_of_nil]%elem_of_cons [->|Ht%elem_of_nil]%elem_of_cons;
    try contradiction; now vm_compute.
Qed.

(** C6, as the claim states it, fails: the same two per-chunk results,
    completing in the two possible orders, give two different transcripts
    (both sorted by [start]). *)
Lemma arrival_order_shows :
  let first_then_second :=
    fst (transcribe_chunks Scenario.cfg (Scenario.tie (fun jobs => jobs))
           Scenario.urls2 "ko" 30) in
  let second_then_first :=
    fst (transcribe_chunks Scenario.cfg (Scenario.tie reverse)
           Scenario.urls2 "ko" 30) in
  first_then_second
  = inr [mkSegment (3000 # 100) (3050 # 100) "late" None;
         mkSegment (3000 # 100) (3100 # 100) "early" None]
  /\ second_then_first
     = inr [mkSegment (3000 # 100) (3100 # 100) "early" None;
            mkSegment (3000 # 100) (3050 # 100) "late" None]
  /\ first_then_second <> second_then_first
  /\ reassemble 30 [(0%nat, [mkSegment 30 (61 # 2) "late" None]);
                    (1%nat, [mkSegment 0 1 "early" None])]
     <> reassemble 30 [(1%nat, [mkSegment 0 1 "early" None]);
                       (0%nat, [mkSegment 30 (61 # 2) "late" None])].
Proof.
  intros a b. subst a b.
  split; [vm_compute; reflexivity|]. split; [vm_compute; reflexivity|].
  split; vm_compute; discriminate.
Qed.

End TranscribeFacts.

(** ** Word Extractor *)

Section WordFacts.

Import PyNum PyStr PyDict Audio Transcribe WordClips WordSpec.

Lemma mem_elem {V : Type} (k : string) (d : dict V) :
  mem k d = true <-> k ∈ d.*1.
Proof.
  induction d as [|[k' v] d IH]; simpl.
  - split; [discriminate|]. intros H. inversion H.
  - rewrite elem_of_cons. destruct (String.eqb_spec k' k) as [->|Hne].
    + split; auto.
    + rewrite IH. split; [auto|]. intros [->|H]; [contradiction|exact H].
Qed.

Lemma mem_false {V : Type} (k : string) (d : dict V) :
  mem k d = false <-> k ∉ d.*1.
Proof.
  rewrite <- mem_elem. destruct (mem k d); split; congruence.
Qed.

Lemma set_fresh {V : Type} (k : string) (v : V) (d : dict V) :
  mem k d = false -> set k v d = d ++ [(k, v)].
Proof.
  induction d as [|[k' v'] d IH]; simpl; [reflexivity|].
  destruct (String.eqb k' k); [discriminate|]. intros H. now rewrite IH.
Qed.

Lemma mem_app {V : Type} (k : string) (d1 d2 : dict V) :
  mem k (d1 ++ d2) = mem k d1 || mem k d2.
Proof.
  induction d1 as [|[k' v] d1 IH]; simpl; [reflexivity|].
  destruct (String.eqb k' k); [reflexivity|exact IH].
Qed.

Lemma keep_word_spec (w : Word) (seen : dict Word) :
  keep_word (key w) w seen = true <-> qualifies w /\ mem (key w) seen = false.
Proof.
  unfold keep_word, qualifies.
  rewrite !andb_true_iff, negb_true_iff, Nat.ltb_lt, Qle_bool_iff.
  assert (Ht : truthy (key w) = true <-> key w <> EmptyString).
  { destruct (key w); simpl; split; congruence. }
  rewrite Ht. tauto.
Qed.

Lemma collect_words_spec (ws : list Word) :
  forall seen : dict Word,
  exists news : dict Word,
    collect_words ws seen = seen ++ news
    /\ news.*2 `sublist_of` ws
    /\ NoDup news.*1
    /\ forall text w,
         (text, w) ∈ news <-> first_occurrence ws text w /\ mem text seen = false.
Proof.
  induction ws as [|w0 rest IH]; intros seen.
  - exists []. simpl. rewrite app_nil_r.
    split; [reflexivity|]. split; [constructor|]. split; [constructor|].
    intros text w. split.
    + intros Hin. inversion Hin.
    + intros [(pre & post & Heq & _) _]. now destruct pre.
  - simpl. fold (key w0).
    destruct (keep_word (key w0) w0 seen) eqn:Hkeep.
    + apply keep_word_spec in Hkeep as [Hq Hfresh].
      rewrite (set_fresh _ _ _ Hfresh).
      destruct (IH (seen ++ [(key w0, w0)])) as (news & -> & Hsub & Hnd & Hiff).
      exists ((key w0, w0) :: news). rewrite <- app_assoc. simpl.
      split; [reflexivity|]. split; [now apply sublist_skip|]. split.
      * constructor; [|exact Hnd]. intros Hin.
        apply list_elem_of_fmap in Hin as ([t w] & Ht & Hin). simpl in Ht. subst t.
        apply Hiff in Hin as [_ Hm]. rewrite mem_app in Hm. simpl in Hm.
        rewrite String.eqb_refl in Hm. now destruct (mem (key w0) seen).
      * intros text w. rewrite elem_of_cons, Hiff, mem_app. simpl. split.
        -- intros [[= -> ->]|[(pre & post & -> & Hk & Hqw & Hpre) Hm]].
           ++ split; [|exact Hfresh]. exists [], rest. split_and!; auto.
              intros w' Hw'. inversion Hw'.
           ++ apply orb_false_iff in Hm as [Hm Hne].
              destruct (String.eqb_spec (key w0) text) as [|Hne']; [discriminate|].
              split; [|exact Hm]. exists (w0 :: pre), post.
              split_and!; auto.
              intros w' [->|Hw']%elem_of_cons; auto.
        -- intros [(pre & post & Heq & Hk & Hqw & Hpre) Hm].
           destruct pre as [|p pre]; simpl in Heq; injection Heq as <- ->.
           ++ left. now rewrite Hk.
           ++ right. split.
              ** exists pre, post. split_and!; auto.
                 intros w' Hw'. apply Hpre. now right.
              ** rewrite Hm. simpl.
                 destruct (String.eqb_spec (key w0) text) as [He|]; [|reflexivity].
                 exfalso. apply (Hpre w0); [now left|exact Hq|exact He].
    + destruct (IH seen) as (news & -> & Hsub & Hnd & Hiff).
      exists news. split; [reflexivity|]. split; [now apply sublist_cons|].
      split; [exact Hnd|].
      intros text w. rewrite Hiff. split.
      * intros [(pre & post & -> & Hk & Hqw & Hpre) Hm]. split; [|exact Hm].
        exists (w0 :: pre), post. split_and!; auto.
        intros w' [->|Hw']%elem_of_cons; [|now auto].
        intros Hq0 Hk0. rewrite <- Hk0 in Hm.
        assert (keep_word (key w0) w0 seen = true)
          by (apply keep_word_spec; auto).
        congruence.
      * intros [(pre & post & Heq & Hk & Hqw & Hpre) Hm]. split; [|exact Hm].
        destruct pre as [|p pre]; simpl in Heq; injection Heq as <- ->.
        -- exfalso. rewrite <- Hk in Hm.
           assert (keep_word (key w0) w0 seen = true)
             by (apply keep_word_spec; auto).
           congruence.
        -- exists pre, post. split_and!; auto.
           intros w' Hw'. apply Hpre. now right.
Qed.

Lemma collect_words_app (ws1 ws2 : list Word) (seen : dict Word) :
  collect_words (ws1 ++ ws2) seen = collect_words ws2 (collect_words ws1 seen).
Proof.
  revert seen. induction ws1 as [|w ws1 IH]; intros seen; [reflexivity|].
  simpl. destruct (keep_word _ w seen); apply IH.
Qed.

Lemma collect_seen_words (segments : list Segment) (seen : dict Word) :
  collect_seen segments seen = collect_words (all_words segments) seen.
Proof.
  revert seen. induction segments as [|seg rest IH]; intros seen; [reflexivity|].
  unfold all_words. simpl. rewrite collect_words_app. apply IH.
Qed.

(** The collecting loop keeps the first qualifying occurrence of each
    stripped text, once, in document order. *)
Lemma collect_seen_spec (segments : list Segment) :
  let seen := collect_seen segments [] in
  (forall text w,
      (text, w) ∈ seen <-> first_occurrence (all_words segments) text w)
  /\ NoDup seen.*1
  /\ seen.*2 `sublist_of` all_words segments.
Proof.
  intros seen. subst seen. rewrite collect_seen_words.
  destruct (collect_words_spec (all_words segments) [])
    as (news & -> & Hsub & Hnd & Hiff).
  simpl. split; [|split; assumption].
  intros text w. rewrite Hiff. simpl. tauto.
Qed.

(** C3 (as amended).  The Word Extractor goes through the words in
    document order and keeps, under its text stripped of surrounding
    whitespace, the first qualifying word with that stripped text: words
    are told apart by exact match of the stripped text (case is kept), and a
    word qualifies iff its stripped text is non-empty and longer than one
    character and its duration [end - start] is at least 0.2 s.  Each text
    is kept once, in the order of the first occurrences. *)
Theorem first_occurrences_kept (segments : list Segment) :
  let seen := collect_seen segments [] in
  (forall text w,
      (text, w) ∈ seen <-> first_occurrence (all_words segments) text w)
  /\ NoDup seen.*1
  /\ seen.*2 `sublist_of` all_words segments.
Proof. exact (collect_seen_spec segments). Qed.

(** A word lasting exactly 0.2 s is kept, one lasting 0.199 s is not. *)
Example duration_boundary :
  collect_seen
    [mkSegment 1 2 "ab cd"
       (Some [mkWord "ab" 1 (1199 # 1000) None; mkWord "cd" 1 (12 # 10) None])]
    []
  = [("cd"%string, mkWord "cd" 1 (12 # 10) None)].
Proof. vm_compute. reflexivity. Qed.

(** The second occurrence of a word is not the one kept. *)
Example hello_twice :
  (collect_seen
     [mkSegment 1 (13 # 10) "hello" (Some [mkWord "hello" 1 (13 # 10) None]);
      mkSegment 40 (81 # 2) "hello" (Some [mkWord "hello" 40 (81 # 2) None])]
     []).*2
  = [mkWord "hello" 1 (13 # 10) None].
Proof. vm_compute. reflexivity. Qed.

(** C3, as the claim states it, fails: [" hello"] and ["hello"] are two
    different texts, both longer than one character and lasting 0.5 s, so
    matching the text as it stands keeps both; the code strips the text
    first and keeps one entry, under ["hello"]. *)
Lemma word_text_is_stripped :
  let segments :=
    [mkSegment 1 41 " hello hello"
       (Some [mkWord " hello" 1 (3 # 2) None; mkWord "hello" 40 (81 # 2) None])] in
  collect_seen segments [] = [("hello"%string, mkWord " hello" 1 (3 # 2) None)]
  /\ spec_collect_seen segments
     = [(" hello"%string, mkWord " hello" 1 (3 # 2) None);
        ("hello"%string, mkWord "hello" 40 (81 # 2) None)]
  /\ collect_seen segments [] <> spec_collect_seen segments.
Proof.
  intros segments. subst segments.
  split; [vm_compute; reflexivity|]. split; [vm_compute; reflexivity|].
  vm_compute. discriminate.
Qed.

(** *** The clipping loop *)

Lemma r2_key_not_url (video_id hash : string) :
  startswith (r2_key_of video_id hash) "http" = false.
Proof. reflexivity. Qed.

Lemma load_chunk_ok (chunk_paths : list AudioSegment) (idx : Z)
    (cache cache' : gmap Z AudioSegment) (audio : AudioSegment) :
  (forall i a, cache !! i = Some a -> index chunk_paths i = Some a) ->
  load_chunk chunk_paths idx cache = Some (audio, cache') ->
  index chunk_paths idx = Some audio
  /\ (forall i a, cache' !! i = Some a -> index chunk_paths i = Some a).
Proof.
  intros Hok. unfold load_chunk.
  destruct (cache !! idx) as [a|] eqn:Hc.
  - intros [= <- <-]. auto.
  - destruct (index chunk_paths idx) as [a|] eqn:Hi; [|discriminate].
    intros [= <- <-]. split; [reflexivity|].
    intros i a'. rewrite lookup_insert. destruct (decide (idx = i)) as [<-|Hne].
    + intros [= <-]. exact Hi.
    + apply Hok.
Qed.

Lemma load_chunk_some (chunk_paths : list AudioSegment) (idx : Z)
    (cache : gmap Z AudioSegment) (audio : AudioSegment) :
  (forall i a, cache !! i = Some a -> index chunk_paths i = Some a) ->
  index chunk_paths idx = Some audio ->
  exists cache', load_chunk chunk_paths idx cache = Some (audio, cache').
Proof.
  intros Hok Hi. unfold load_chunk.
  destruct (cache !! idx) as [a|] eqn:Hc.
  - apply Hok in Hc. rewrite Hi in Hc. injection Hc as <-. eauto.
  - rewrite Hi. eauto.
Qed.

Lemma clip_word_ok (h : Host) (chunk_paths : list AudioSegment)
    (video_id : string) (chunk_seconds : Z) (texts : list string)
    (st : Clipper) (text : string) (w : Word) :
  clipper_ok chunk_paths texts st -> text ∉ texts ->
  clipper_ok chunk_paths (texts ++ [text])
    (clip_word h chunk_paths video_id chunk_seconds st (text, w)).
Proof.
  intros (Hcache & Hpairs & Hsub & Hkeys) Hfresh.
  assert (Hweak : clipper_ok chunk_paths (texts ++ [text]) st).
  { split_and!; auto. now apply sublist_inserts_r. }
  unfold clip_word.
  destruct (chunk_idx_of w chunk_seconds (length chunk_paths)) as [idx|];
    [|exact Hweak].
  destruct (load_chunk chunk_paths idx (chunk_cache st)) as [[audio cache]|] eqn:Hl;
    [|exact Hweak].
  apply (load_chunk_ok _ _ _ _ _ Hcache) in Hl as [_ Hcache'].
  assert (Hm : mem text (word_clips st) = false).
  { apply mem_false. intros Hin. apply Hfresh. eapply elem_of_sublist; eauto. }
  unfold clipper_ok. cbn [chunk_cache word_clips clip_tasks].
  rewrite (set_fresh _ _ _ Hm), !fmap_app. cbn [fmap list_fmap fst snd].
  split_and!.
  - exact Hcache'.
  - now rewrite Hpairs.
  - now apply sublist_app.
  - apply Forall_app. split; [exact Hkeys|]. repeat constructor.
Qed.

Lemma clip_loop_ok (h : Host) (chunk_paths : list AudioSegment)
    (video_id : string) (chunk_seconds : Z) (seen : dict Word) :
  forall (texts : list string) (st : Clipper),
    clipper_ok chunk_paths texts st -> NoDup (texts ++ seen.*1) ->
    clipper_ok chunk_paths (texts ++ seen.*1)
      (foldl (clip_word h chunk_paths video_id chunk_seconds) st seen).
Proof.
  induction seen as [|[text w] seen IH]; intros texts st Hok Hnd.
  - simpl. now rewrite app_nil_r.
  - rewrite fmap_cons in Hnd |- *. cbn [fst] in Hnd |- *. cbn [foldl].
    rewrite (cons_middle text texts), app_assoc in Hnd |- *.
    apply IH; [|exact Hnd]. apply clip_word_ok; [exact Hok|].
    apply NoDup_app in Hnd as (Hnd & _ & _).
    apply NoDup_app in Hnd as (_ & Hdisj & _).
    intros Hin. apply (Hdisj text Hin). left.
Qed.

Lemma clip_all_ok (h : Host) (chunk_paths : list AudioSegment)
    (video_id : string) (chunk_seconds : Z) (seen : dict Word) :
  NoDup seen.*1 ->
  clipper_ok chunk_paths seen.*1
    (clip_all h chunk_paths video_id chunk_seconds seen).
Proof.
  intros Hnd. unfold clip_all.
  apply (clip_loop_ok h chunk_paths video_id chunk_seconds seen []); [|exact Hnd].
  unfold clipper_ok. cbn [chunk_cache word_clips clip_tasks]. split_and!.
  - intros idx audio Hc. rewrite lookup_empty in Hc. discriminate.
  - reflexivity.
  - constructor.
  - constructor.
Qed.

(** *** The uploads *)

Lemma prefix_append (p s t : string) :
  String.prefix p s = true -> String.prefix p (s +:+ t) = true.
Proof.
  revert s. induction p as [|c p IH]; intros s.
  { intros _. now destruct (s +:+ t). }
  destruct s as [|d s]; simpl; [discriminate|].
  destruct (Ascii.ascii_dec c d); [apply IH|discriminate].
Qed.

Lemma mark_uploaded_here (r2_key full_url text : string)
    (done todo : dict string) :
  r2_key ∉ done.*2 ->
  mark_uploaded r2_key full_url (done ++ (text, r2_key) :: todo)
  = done ++ (text, full_url) :: todo.
Proof.
  induction done as [|[t k] done IH]; intros Hk; simpl.
  - now rewrite String.eqb_refl.
  - rewrite fmap_cons in Hk. apply not_elem_of_cons in Hk as [Hne Hk].
    simpl in Hne. destruct (String.eqb_spec k r2_key) as [->|_]; [contradiction|].
    now rewrite IH.
Qed.

Lemma collect_uploads_settled (todo : dict string) :
  forall (results : list (string * option string)) (done : dict string),
    todo.*2 = results.*1 -> NoDup todo.*2 ->
    (forall v, v ∈ done.*2 -> v ∉ todo.*2) ->
    (forall r u, r ∈ results -> snd r = Some u -> u ∉ todo.*2) ->
    collect_uploads results (done ++ todo)
    = done ++ zip_with settled todo results.
Proof.
  induction todo as [|[t k] todo IH]; intros results done Hkeys Hnd Hdone Hurl.
  - destruct results; [|discriminate]. reflexivity.
  - destruct results as [|[k' o] results]; [discriminate|].
    rewrite !fmap_cons in Hkeys. cbn [fst snd] in Hkeys.
    injection Hkeys as <- Hkeys.
    rewrite fmap_cons in Hnd. cbn [snd] in Hnd.
    apply NoDup_cons in Hnd as [Hk Hnd].
    assert (Hstep : forall v,
      (forall x, x ∈ (done ++ [(t, v)]).*2 -> x ∉ todo.*2) ->
      collect_uploads results (done ++ (t, v) :: todo)
      = done ++ (t, v) :: zip_with settled todo results).
    { intros v Hv. rewrite (cons_middle (t, v) done todo), app_assoc.
      rewrite IH; [now rewrite <- app_assoc|exact Hkeys|exact Hnd|exact Hv|].
      intros r u Hr Hu Hin. apply (Hurl r u); [now right|exact Hu|].
      rewrite fmap_cons. now right. }
    assert (Hkeep : forall x, x ∈ (done ++ [(t, k)]).*2 -> x ∉ todo.*2).
    { intros x. rewrite fmap_app, elem_of_app. intros [Hx|Hx].
      - intros Hin. apply (Hdone x Hx). rewrite fmap_cons. now right.
      - apply list_elem_of_singleton in Hx. now subst x. }
    cbn [zip_with]. unfold settled at 1. cbn [collect_uploads fst snd].
    destruct o as [u|]; [destruct (truthy u)|].
    + rewrite mark_uploaded_here.
      * apply Hstep. intros x. rewrite fmap_app, elem_of_app. intros [Hx|Hx].
        -- intros Hin. apply (Hdone x Hx). rewrite fmap_cons. now right.
        -- apply list_elem_of_singleton in Hx. subst x. intros Hin.
           apply (Hurl (k, Some u) u); [now left|reflexivity|].
           rewrite fmap_cons. now right.
      * intros Hin. apply (Hdone k Hin). rewrite fmap_cons. now left.
    + now apply Hstep.
    + now apply Hstep.
Qed.

Lemma upload_results_keys (h : Host) (cfg : Config)
    (tasks : list (string * string)) :
  (imap (upload_clip h cfg) tasks).*1 = tasks.*2.
Proof.
  apply list_eq. intros n. rewrite !list_lookup_fmap, list_lookup_imap.
  destruct (tasks !! n) as [[path key]|]; [|reflexivity].
  simpl. now destruct (r2_put_clip h n path key).
Qed.

Lemma clip_and_upload_words_eq (h : Host) (cfg : Config)
    (segments : list Segment) (chunk_paths : list AudioSegment)
    (video_id : string) (chunk_seconds : Z) :
  let st := clip_all h chunk_paths video_id chunk_seconds
              (collect_seen segments []) in
  clip_and_upload_words h cfg segments chunk_paths video_id chunk_seconds
  = only_uploaded
      (collect_uploads (imap (upload_clip h cfg) (clip_tasks st))
         (word_clips st)).
Proof.
  intros st. subst st. unfold clip_and_upload_words.
  destruct (collect_seen segments []); reflexivity.
Qed.

Lemma url_truthy (u : string) : startswith u "http" = true -> truthy u = true.
Proof. now destruct u. Qed.

(** C8.  Distinct clipped words having distinct storage keys (no collision
    of the 12-digit hash) and the worker URL starting with ["http"] (as both
    defaults do), the result maps a word to a value exactly when the upload
    of its own clip succeeded, and the value is then the worker URL followed
    by the relative URL that upload returned.  So a word whose upload failed
    has no entry, no entry holds a placeholder key, and the fate of one
    upload has no bearing on the entry of another word. *)
Theorem uploaded_clips_only (h : Host) (cfg : Config)
    (segments : list Segment) (chunk_paths : list AudioSegment)
    (video_id : string) (chunk_seconds : Z) :
  startswith (CLOUDFLARE_WORKER_URL cfg) "http" = true ->
  let st := clip_all h chunk_paths video_id chunk_seconds
              (collect_seen segments []) in
  NoDup (word_clips st).*2 ->
  let result :=
    clip_and_upload_words h cfg segments chunk_paths video_id chunk_seconds in
  (forall text v,
      (text, v) ∈ result <->
      exists n path key relative_url,
        word_clips st !! n = Some (text, key)
        /\ clip_tasks st !! n = Some (path, key)
        /\ r2_put_clip h n path key = Some relative_url
        /\ v = CLOUDFLARE_WORKER_URL cfg +:+ relative_url)
  /\ (forall n text key path,
        word_clips st !! n = Some (text, key) ->
        clip_tasks st !! n = Some (path, key) ->
        r2_put_clip h n path key = None ->
        text ∉ result.*1)
  /\ (forall text v,
        (text, v) ∈ result ->
        startswith v "http" = true /\ v ∉ (word_clips st).*2).
Proof.
  intros Hworker st Hkeys result.
  destruct (collect_seen_spec segments) as (_ & Hseen_nd & _).
  destruct (clip_all_ok h chunk_paths video_id chunk_seconds _ Hseen_nd)
    as (_ & Hpairs & Hsub & Hnot_url).
  fold st in Hpairs, Hsub, Hnot_url.
  assert (Htexts : NoDup (word_clips st).*1) by (eapply sublist_NoDup; eauto).
  set (results := imap (upload_clip h cfg) (clip_tasks st)).
  assert (Hres : forall n r, results !! n = Some r ->
            exists path key, clip_tasks st !! n = Some (path, key)
              /\ r = upload_clip h cfg n (path, key)).
  { intros n r Hr. unfold results in Hr.
    apply list_lookup_imap_Some in Hr as ([path key] & Ht & ->). eauto. }
  assert (Hurl : forall u, startswith u "http" = true -> u ∉ (word_clips st).*2).
  { intros u Hu Hin. rewrite Forall_forall in Hnot_url.
    apply Hnot_url in Hin. congruence. }
  assert (Hfinal : result
            = only_uploaded (zip_with settled (word_clips st) results)).
  { unfold result. rewrite clip_and_upload_words_eq. fold st. fold results.
    f_equal.
    apply (collect_uploads_settled (word_clips st) results []).
    - unfold results. now rewrite upload_results_keys.
    - exact Hkeys.
    - intros v Hv. inversion Hv.
    - intros r u Hr Hu. apply Hurl.
      apply list_elem_of_lookup in Hr as [n Hr].
      apply Hres in Hr as (path & key & _ & ->). simpl in Hu.
      destruct (r2_put_clip h n path key); [|discriminate].
      injection Hu as <-. now apply prefix_append. }
  assert (Hpart1 : forall text v,
      (text, v) ∈ result <->
      exists n path key relative_url,
        word_clips st !! n = Some (text, key)
        /\ clip_tasks st !! n = Some (path, key)
        /\ r2_put_clip h n path key = Some relative_url
        /\ v = CLOUDFLARE_WORKER_URL cfg +:+ relative_url).
  { intros text v. rewrite Hfinal. unfold only_uploaded.
    rewrite list_elem_of_filter, elem_of_lookup_zip_with. cbn [snd]. split.
    - intros [Hv (n & [t k] & r & Heq & Hwc & Hr)].
      apply Is_true_true in Hv.
      apply Hres in Hr as (path & key & Ht & ->).
      assert (key = k) as ->.
      { apply (f_equal (fun l => l !! n)) in Hpairs.
        rewrite !list_lookup_fmap, Hwc, Ht in Hpairs. simpl in Hpairs. congruence. }
      unfold settled, upload_clip in Heq. cbn [fst snd] in Heq.
      destruct (r2_put_clip h n path k) as [rel|] eqn:Hput; cbn [snd] in Heq.
      + rewrite (url_truthy _ (prefix_append _ _ rel Hworker)) in Heq.
        injection Heq as -> ->. exists n, path, k, rel. auto.
      + injection Heq as -> ->. exfalso.
        rewrite Forall_forall in Hnot_url.
        assert (Hk : k ∈ (word_clips st).*2).
        { apply list_elem_of_fmap. exists (t, k). split; [reflexivity|].
          eapply list_elem_of_lookup_2; eauto. }
        apply Hnot_url in Hk. congruence.
    - intros (n & path & key & rel & Hwc & Ht & Hput & ->).
      split; [apply Is_true_true; now apply prefix_append|].
      exists n, (text, key), (upload_clip h cfg n (path, key)).
      split_and!; [|exact Hwc|].
      + unfold settled, upload_clip. rewrite Hput. cbn [fst snd].
        now rewrite (url_truthy _ (prefix_append _ _ rel Hworker)).
      + unfold results. rewrite list_lookup_imap, Ht. reflexivity. }
  split; [exact Hpart1|]. split.
  - intros n text key path Hwc Ht Hput Hin.
    apply list_elem_of_fmap in Hin as ([t v] & Heq & Hin). simpl in Heq. subst t.
    apply Hpart1 in Hin as (n' & path' & key' & rel & Hwc' & Ht' & Hput' & _).
    assert (Hn : (word_clips st).*1 !! n = Some text)
      by (rewrite list_lookup_fmap; exact (f_equal (fmap fst) Hwc)).
    assert (Hn' : (word_clips st).*1 !! n' = Some text)
      by (rewrite list_lookup_fmap; exact (f_equal (fmap fst) Hwc')).
    pose proof (NoDup_lookup _ _ _ _ Htexts Hn' Hn) as ->.
    rewrite Hwc in Hwc'. injection Hwc' as <-.
    rewrite Ht in Ht'. injection Ht' as <-. congruence.
  - intros text v Hin.
    apply Hpart1 in Hin as (n & path & key & rel & _ & _ & _ & ->).
    assert (Hu : startswith (CLOUDFLARE_WORKER_URL cfg +:+ rel) "http" = true)
      by now apply prefix_append.
    split; [exact Hu|now apply Hurl].
Qed.

(** *** Where a clip is cut *)

Lemma clip_word_grows (h : Host) (chunk_paths : list AudioSegment)
    (video_id : string) (chunk_seconds : Z) (texts : list string)
    (st : Clipper) (text : string) (w : Word) :
  clipper_ok chunk_paths texts st -> text ∉ texts ->
  let st' := clip_word h chunk_paths video_id chunk_seconds st (text, w) in
  exists new_clips new_files,
    word_clips st' = word_clips st ++ new_clips
    /\ exported st' = exported st ++ new_files
    /\ forall idx audio,
         chunk_idx_of w chunk_seconds (length chunk_paths) = Some idx ->
         index chunk_paths idx = Some audio ->
         let hash := clip_hash h text (word_start w) in
         new_clips = [(text, r2_key_of video_id hash)]
         /\ new_files
            = [(clip_path_of h hash,
                cut_clip audio (local_start w idx chunk_seconds)
                  (local_end w idx chunk_seconds))].
Proof.
  intros (Hcache & Hpairs & Hsub & Hkeys) Hfresh st'. subst st'.
  assert (Hm : mem text (word_clips st) = false).
  { apply mem_false. intros Hin. apply Hfresh. eapply elem_of_sublist; eauto. }
  unfold clip_word.
  destruct (chunk_idx_of w chunk_seconds (length chunk_paths)) as [idx|].
  - destruct (load_chunk chunk_paths idx (chunk_cache st))
      as [[audio cache]|] eqn:Hl.
    + apply (load_chunk_ok _ _ _ _ _ Hcache) in Hl as [Hidx _].
      cbn [word_clips exported]. rewrite (set_fresh _ _ _ Hm).
      eexists _, _. split; [reflexivity|]. split; [reflexivity|].
      intros idx' audio' [= <-] Hidx'. rewrite Hidx in Hidx'.
      injection Hidx' as <-. split; reflexivity.
    + exists [], []. rewrite !app_nil_r. split; [reflexivity|].
      split; [reflexivity|]. intros idx' audio' [= <-] Hidx'.
      destruct (load_chunk_some _ _ _ _ Hcache Hidx') as [cache' Hl'].
      congruence.
  - exists [], []. rewrite !app_nil_r. split; [reflexivity|].
    split; [reflexivity|]. discriminate.
Qed.

Lemma clip_loop_grows (h : Host) (chunk_paths : list AudioSegment)
    (video_id : string) (chunk_seconds : Z) (seen : dict Word) :
  forall (texts : list string) (st : Clipper),
    clipper_ok chunk_paths texts st -> NoDup (texts ++ seen.*1) ->
    let st' := foldl (clip_word h chunk_paths video_id chunk_seconds) st seen in
    (exists new_clips new_files,
        word_clips st' = word_clips st ++ new_clips
        /\ exported st' = exported st ++ new_files)
    /\ forall text w idx audio,
         (text, w) ∈ seen ->
         chunk_idx_of w chunk_seconds (length chunk_paths) = Some idx ->
         index chunk_paths idx = Some audio ->
         let hash := clip_hash h text (word_start w) in
         (text, r2_key_of video_id hash) ∈ word_clips st'
         /\ (clip_path_of h hash,
             cut_clip audio (local_start w idx chunk_seconds)
               (local_end w idx chunk_seconds)) ∈ exported st'.
Proof.
  induction seen as [|[text0 w0] seen IH]; intros texts st Hok Hnd.
  - cbn [foldl]. split.
    + exists [], []. now rewrite !app_nil_r.
    + intros text w idx audio Hin. inversion Hin.
  - rewrite fmap_cons in Hnd. cbn [fst] in Hnd. cbn [foldl].
    rewrite (cons_middle text0 texts), app_assoc in Hnd.
    assert (Hfresh : text0 ∉ texts).
    { apply NoDup_app in Hnd as (Hnd' & _ & _).
      apply NoDup_app in Hnd' as (_ & Hdisj & _).
      intros Hin. apply (Hdisj text0 Hin). left. }
    pose proof (clip_word_ok h chunk_paths video_id chunk_seconds texts st
                  text0 w0 Hok Hfresh) as Hok1.
    destruct (clip_word_grows h chunk_paths video_id chunk_seconds texts st
                text0 w0 Hok Hfresh) as (nc & nf & Hwc & Hex & Hhead).
    destruct (IH _ _ Hok1 Hnd) as [(nc' & nf' & Hwc' & Hex') Htail].
    cbv zeta in *. split.
    + exists (nc ++ nc'), (nf ++ nf').
      rewrite Hwc', Hex', Hwc, Hex, <- !app_assoc. auto.
    + intros text w idx audio [[= -> ->]|Hin]%elem_of_cons Hidx Haudio.
      * destruct (Hhead idx audio Hidx Haudio) as [-> ->].
        rewrite Hwc', Hex', Hwc, Hex. split.
        -- apply elem_of_app. left. apply elem_of_app. right. left.
        -- apply elem_of_app. left. apply elem_of_app. right. left.
      * now apply Htail.
Qed.

Lemma py_int_floor (x : Q) : (0 <= x)%Q -> py_int x = Qfloor x.
Proof.
  intros Hx. unfold py_int. apply Qle_bool_iff in Hx. now rewrite Hx.
Qed.

Lemma py_int_inject (z : Z) : py_int (inject_Z z) = z.
Proof.
  unfold py_int. destruct (Qle_bool 0 (inject_Z z)).
  - apply Qfloor_Z.
  - apply Qceiling_Z.
Qed.

Lemma Qfloor_nonneg (x : Q) : (0 <= x)%Q -> 0 <= Qfloor x.
Proof. intros Hx. change 0 with (Qfloor 0). now apply Qfloor_resp_le. Qed.

Lemma floor_times (x : Q) (n : Z) :
  0 < n ->
  (inject_Z (Qfloor (x / inject_Z n) * n) <= x
   /\ x < inject_Z ((Qfloor (x / inject_Z n) + 1) * n))%Q.
Proof.
  intros Hn.
  assert (HnQ : (0 < inject_Z n)%Q) by (change 0%Q with (inject_Z 0); now rewrite <- Zlt_Qlt).
  pose proof (Qfloor_le (x / inject_Z n)) as Hlo.
  pose proof (Qlt_floor (x / inject_Z n)) as Hhi.
  rewrite !inject_Z_mult.
  assert (Hx : (x == x / inject_Z n * inject_Z n)%Q).
  { field. intros H0. rewrite H0 in HnQ. now apply Qlt_irrefl in HnQ. }
  split.
  - rewrite Hx at 2. apply Qmult_le_r; assumption.
  - rewrite Hx at 1. apply Qmult_lt_r; assumption.
Qed.

(** C7.  For a kept word and a chunk length [chunk_seconds > 0], the source
    chunk index is [floor(start / chunk_seconds)] clamped to the last chunk
    index, the local offsets are [start] and [end] minus
    [index * chunk_seconds] (the local start is not negative, and below the
    chunk length when the index was not clamped), the chunk audio is sliced
    from the local start to the local end, both truncated to milliseconds,
    and a clip shorter than 300 ms gets 50 ms of silence on each side. *)
Theorem clip_geometry (h : Host) (chunk_paths : list AudioSegment)
    (video_id : string) (chunk_seconds : Z) (segments : list Segment)
    (text : string) (w : Word) :
  0 < chunk_seconds ->
  (text, w) ∈ collect_seen segments [] ->
  let st := clip_all h chunk_paths video_id chunk_seconds
              (collect_seen segments []) in
  let floor_idx := Qfloor (word_start w / inject_Z chunk_seconds) in
  let idx := Z.min floor_idx (Z.of_nat (length chunk_paths) - 1) in
  let ls := (word_start w - inject_Z (idx * chunk_seconds))%Q in
  let le := (word_end w - inject_Z (idx * chunk_seconds))%Q in
  chunk_idx_of w chunk_seconds (length chunk_paths) = Some idx
  /\ (0 <= ls)%Q /\ (ls + (2 # 10) <= le)%Q
  /\ (idx = floor_idx -> (ls < inject_Z chunk_seconds)%Q)
  /\ forall audio,
       index chunk_paths idx = Some audio ->
       let clip :=
         ChunkerSpec.frames audio (Qfloor (ls * 1000))
           (Z.min (Qfloor (le * 1000)) (len audio)) in
       let stored :=
         if len clip <? 300 then silent 50 ++ clip ++ silent 50 else clip in
       (clip_path_of h (clip_hash h text (word_start w)), stored) ∈ exported st
       /\ (text, r2_key_of video_id (clip_hash h text (word_start w)))
          ∈ word_clips st
       /\ len stored = if len clip <? 300 then len clip + 100 else len clip.
Proof.
  intros HL Hkept st floor_idx idx ls le.
  destruct (collect_seen_spec segments) as (Hiff & Hseen_nd & _).
  apply Hiff in Hkept as Hfirst. destruct Hfirst as (pre & post & _ & _ & Hq & _).
  destruct Hq as (_ & _ & Hdur).
  pose proof (floor_times (word_start w) chunk_seconds HL) as [Hlo Hhi].
  fold floor_idx in Hlo, Hhi.
  assert (Hidx : chunk_idx_of w chunk_seconds (length chunk_paths) = Some idx).
  { unfold chunk_idx_of. destruct (Z.eqb_spec chunk_seconds 0); [lia|].
    unfold floordiv. now rewrite py_int_inject. }
  assert (Hls : (0 <= ls)%Q).
  { unfold ls. assert (Hle : (inject_Z (idx * chunk_seconds)
                              <= inject_Z (floor_idx * chunk_seconds))%Q).
    { rewrite <- Zle_Qle. apply Z.mul_le_mono_nonneg_r; [lia|]. unfold idx. lia. }
    lra. }
  assert (Hlen : (ls + (2 # 10) <= le)%Q) by (unfold ls, le; lra).
  split; [exact Hidx|]. split; [exact Hls|]. split; [exact Hlen|]. split.
  { intros Heq. unfold ls. rewrite Heq.
    rewrite Z.mul_add_distr_r, Z.mul_1_l, inject_Z_plus in Hhi. lra. }
  intros audio Haudio clip stored.
  assert (Hcut : cut_clip audio (local_start w idx chunk_seconds)
                   (local_end w idx chunk_seconds) = stored).
  { unfold cut_clip, local_start, local_end. fold ls le.
    assert (Hls' : (0 <= ls * 1000)%Q) by lra.
    assert (Hle' : (0 <= le * 1000)%Q) by lra.
    rewrite !py_int_floor by assumption.
    rewrite slice_frames; [reflexivity|now apply Qfloor_nonneg|].
    apply Qfloor_resp_le. lra. }
  destruct (clip_loop_grows h chunk_paths video_id chunk_seconds
              (collect_seen segments []) [] (mkClipper ∅ [] [] [])) as [_ Hin].
  { unfold clipper_ok. cbn [chunk_cache word_clips clip_tasks]. split_and!.
    - intros i a Hc. rewrite lookup_empty in Hc. discriminate.
    - reflexivity.
    - constructor.
    - constructor. }
  { exact Hseen_nd. }
  destruct (Hin text w idx audio Hkept Hidx Haudio) as [Hwc Hex].
  rewrite Hcut in Hex. split; [exact Hex|]. split; [exact Hwc|].
  unfold stored. destruct (len clip <? 300); [|reflexivity].
  unfold len, silent. rewrite !length_app, !length_replicate. lia.
Qed.

(** The word "hello" of the sample transcript, cut from the second chunk. *)
Lemma clip_geometry_witness :
  let h := Scenario.second_upload_fails in
  let chunk_paths := Scenario.chunks3 in
  let w := Scenario.hello in
  let st := clip_all h chunk_paths "vid" 1 (collect_seen Scenario.spoken []) in
  let floor_idx := Qfloor (word_start w / inject_Z 1) in
  let idx := Z.min floor_idx (Z.of_nat (length chunk_paths) - 1) in
  let ls := (word_start w - inject_Z (idx * 1))%Q in
  let le := (word_end w - inject_Z (idx * 1))%Q in
  chunk_idx_of w 1 (length chunk_paths) = Some idx
  /\ (0 <= ls)%Q /\ (ls + (2 # 10) <= le)%Q
  /\ (idx = floor_idx -> (ls < inject_Z 1)%Q)
  /\ forall audio,
       index chunk_paths idx = Some audio ->
       let clip :=
         ChunkerSpec.frames audio (Qfloor (ls * 1000))
           (Z.min (Qfloor (le * 1000)) (len audio)) in
       let stored :=
         if len clip <? 300 then silent 50 ++ clip ++ silent 50 else clip in
       (clip_path_of h (clip_hash h "hello" (word_start w)), stored) ∈ exported st
       /\ ("hello"%string, r2_key_of "vid" (clip_hash h "hello" (word_start w)))
          ∈ word_clips st
       /\ len stored = if len clip <? 300 then len clip + 100 else len clip.
Proof.
  apply (clip_geometry Scenario.second_upload_fails Scenario.chunks3 "vid" 1
           Scenario.spoken "hello" Scenario.hello).
  - lia.
  - vm_compute. right. left.
Defined.

(** "hello" starts at 1.1 s: chunk 1, local 100 ms to 350 ms, 250 ms long,
    hence padded to 350 ms (its frame 50 is frame 1100 of the recording);
    "annyeong" (500 ms) and "hi" (350 ms) are left as cut. *)
Example sample_clips :
  map (fun file => (fst file, len (snd file), file.2 !! 50%nat))
    (exported (clip_all Scenario.second_upload_fails Scenario.chunks3 "vid" 1
                 (collect_seen Scenario.spoken [])))
  = [ ("/tmp/word_annyeong.wav"%string, 500, Some 250);
      ("/tmp/word_hello.wav"%string, 350, Some 1100);
      ("/tmp/word_hi.wav"%string, 350, Some 2150) ].
Proof. vm_compute. reflexivity. Qed.

Lemma uploaded_clips_only_witness :
  let h := Scenario.second_upload_fails in
  let cfg := Scenario.cfg in
  let st := clip_all h Scenario.chunks3 "vid" 1
              (collect_seen Scenario.spoken []) in
  let result :=
    clip_and_upload_words h cfg Scenario.spoken Scenario.chunks3 "vid" 1 in
  (forall text v,
      (text, v) ∈ result <->
      exists n path key relative_url,
        word_clips st !! n = Some (text, key)
        /\ clip_tasks st !! n = Some (path, key)
        /\ r2_put_clip h n path key = Some relative_url
        /\ v = CLOUDFLARE_WORKER_URL cfg +:+ relative_url)
  /\ (forall n text key path,
        word_clips st !! n = Some (text, key) ->
        clip_tasks st !! n = Some (path, key) ->
        r2_put_clip h n path key = None ->
        text ∉ result.*1)
  /\ (forall text v,
        (text, v) ∈ result ->
        startswith v "http" = true /\ v ∉ (word_clips st).*2).
Proof.
  apply (uploaded_clips_only Scenario.second_upload_fails Scenario.cfg
           Scenario.spoken Scenario.chunks3 "vid" 1).
  - reflexivity.
  - vm_compute.
    repeat (apply NoDup_cons; split;
            [rewrite ?elem_of_cons, elem_of_nil; intuition discriminate|]).
    apply NoDup_nil_2.
Defined.

(** The clip of "hello" failed to upload: it has no entry. *)
Example sample_word_clips :
  clip_and_upload_words Scenario.second_upload_fails Scenario.cfg
    Scenario.spoken Scenario.chunks3 "vid" 1
  = [ ("annyeong", "https://worker.example/audio/words/vid/annyeong.wav");
      ("hi", "https://worker.example/audio/words/vid/hi.wav") ]%string.
Proof. vm_compute. reflexivity. Qed.

End WordFacts.

(** ** Video identifiers *)

Section VideoIdFacts.

Import VideoId VideoIdSpec.

Lemma append_cancel_l (m x y : string) : m +:+ x = m +:+ y -> x = y.
Proof.
  induction m as [|c m IH]; [auto|].
  change (String c (m +:+ x) = String c (m +:+ y) -> x = y).
  intros [= H]. auto.
Qed.

Lemma append_assoc (x y z : string) : (x +:+ y) +:+ z = x +:+ (y +:+ z).
Proof.
  induction x as [|c x IH]; [reflexivity|].
  change (String c ((x +:+ y) +:+ z) = String c (x +:+ (y +:+ z))).
  now f_equal.
Qed.

Lemma literal_spec (p s tail : string) :
  literal p s = Some tail <-> s = p +:+ tail.
Proof.
  revert s. induction p as [|a p IH]; intros s; simpl.
  - split; [intros [= ->]; reflexivity|intros ->; reflexivity].
  - destruct s as [|b s]; [split; discriminate|].
    destruct (Ascii.eqb_spec a b) as [->|Hne].
    + rewrite IH. split; [intros ->; reflexivity|intros [= ->]; reflexivity].
    + split; [discriminate|intros [= ? ?]; congruence].
Qed.

Lemma id_chars_spec (n : nat) (s id : string) :
  id_chars n s = Some id <->
  exists after, s = id +:+ after /\ String.length id = n
    /\ forall c, c ∈ list_ascii_of_string id -> id_char c = true.
Proof.
  revert s id. induction n as [|n IH]; intros s id; simpl.
  - split.
    + intros [= <-]. exists s. split; [reflexivity|]. split; [reflexivity|].
      intros c Hc. inversion Hc.
    + intros (after & _ & Hlen & _). destruct id; [reflexivity|discriminate].
  - destruct s as [|c s].
    + split; [discriminate|]. intros (after & Heq & Hlen & _).
      destruct id; discriminate.
    + destruct (id_char c) eqn:Hc.
      * destruct (id_chars n s) as [id'|] eqn:Hid; simpl.
        -- apply IH in Hid as (after & -> & Hlen & Hall). split.
           ++ intros [= <-]. exists after. split; [reflexivity|].
              split; [simpl; now rewrite Hlen|].
              intros d [->|Hd]%elem_of_cons; auto.
           ++ intros (after' & Heq & Hlen' & Hall').
              destruct id as [|d id]; [discriminate|].
              simpl in Heq. injection Heq as <- Heq.
              simpl in Hlen'. injection Hlen' as Hlen'.
              assert (Hsome : id_chars n (id' +:+ after) = Some id).
              { apply IH. exists after'. split; [exact Heq|]. split; [exact Hlen'|].
                intros e He. apply Hall'. simpl. now right. }
              assert (Hsome' : id_chars n (id' +:+ after) = Some id').
              { apply IH. eauto. }
              congruence.
        -- split; [discriminate|]. intros (after' & Heq & Hlen' & Hall').
           destruct id as [|d id]; [discriminate|].
           simpl in Heq. injection Heq as <- Heq.
           simpl in Hlen'. injection Hlen' as Hlen'.
           assert (Hsome : id_chars n s = Some id).
           { apply IH. exists after'. split; [exact Heq|]. split; [exact Hlen'|].
             intros e He. apply Hall'. simpl. now right. }
           congruence.
      * split; [discriminate|]. intros (after' & Heq & Hlen' & Hall').
        destruct id as [|d id]; [discriminate|].
        simpl in Heq. injection Heq as <- Heq.
        rewrite Hall' in Hc; [discriminate|]. simpl. left.
Qed.

Lemma match_here_some (markers : list string) (s id : string) :
  match_here markers s = Some id ->
  exists marker after,
    marker ∈ markers /\ s = marker +:+ id +:+ after /\ is_id id.
Proof.
  induction markers as [|m rest IH]; cbn [match_here]; [discriminate|].
  destruct (literal m s) as [tail|] eqn:Hlit.
  - destruct (id_chars 11 tail) as [id'|] eqn:Hid.
    + intros [= ->]. apply literal_spec in Hlit as ->.
      apply id_chars_spec in Hid as (after & -> & Hlen & Hall).
      exists m, after. split; [left|]. split; [reflexivity|]. now split.
    + intros H. destruct (IH H) as (marker & after & Hin & Heq & Hid').
      exists marker, after. split; [now right|auto].
  - intros H. destruct (IH H) as (marker & after & Hin & Heq & Hid').
    exists marker, after. split; [now right|auto].
Qed.

Lemma match_here_none (markers : list string) (s : string) :
  match_here markers s = None ->
  forall marker id after,
    marker ∈ markers -> s = marker +:+ id +:+ after -> ~ is_id id.
Proof.
  induction markers as [|m rest IH]; cbn [match_here];
    intros Hnone marker id after Hin Heq.
  - inversion Hin.
  - intros [Hlen Hall].
    destruct (literal m s) as [tail|] eqn:Hlit;
      [destruct (id_chars 11 tail) as [id'|] eqn:Hid; [discriminate|]|].
    + apply elem_of_cons in Hin as [->|Hin].
      * apply literal_spec in Hlit. rewrite Heq in Hlit.
        apply append_cancel_l in Hlit as Htail.
        assert (id_chars 11 tail = Some id); [|congruence].
        apply id_chars_spec. exists after. rewrite <- Htail. auto.
      * now apply (IH Hnone marker id after Hin Heq).
    + apply elem_of_cons in Hin as [->|Hin].
      * assert (literal m s = Some (id +:+ after)); [|congruence].
        now apply literal_spec.
      * now apply (IH Hnone marker id after Hin Heq).
Qed.

Lemma re_search_unfold (markers : list string) (s : string) :
  re_search markers s
  = match match_here markers s with
    | Some id => Some id
    | None =>
        match s with
        | EmptyString => None
        | String _ s' => re_search markers s'
        end
    end.
Proof. destruct s; reflexivity. Qed.

Lemma re_search_some (markers : list string) (s id : string) :
  re_search markers s = Some id -> holds markers s id.
Proof.
  induction s as [|c s IH]; rewrite re_search_unfold;
    destruct (match_here markers _) as [id'|] eqn:Hhere.
  - intros [= ->]. apply match_here_some in Hhere as (m & after & Hm & Heq & Hid).
    now exists EmptyString, m, after.
  - discriminate.
  - intros [= ->]. apply match_here_some in Hhere as (m & after & Hm & Heq & Hid).
    now exists EmptyString, m, after.
  - intros H. destruct (IH H) as (before & m & after & Hm & -> & Hid).
    now exists (String c before), m, after.
Qed.

Lemma re_search_none (markers : list string) (s : string) :
  re_search markers s = None -> forall id, ~ holds markers s id.
Proof.
  induction s as [|c s IH]; rewrite re_search_unfold;
    destruct (match_here markers _) as [id'|] eqn:Hhere; try discriminate;
    intros Hnone id (before & m & after & Hm & Heq & Hid).
  - destruct before; [|discriminate].
    now apply (match_here_none _ _ Hhere m id after Hm Heq).
  - destruct before as [|d before].
    + now apply (match_here_none _ _ Hhere m id after Hm Heq).
    + change (String c s = String d (before +:+ m +:+ id +:+ after)) in Heq.
      injection Heq as _ Heq. apply (IH Hnone id). now exists before, m, after.
Qed.



(** X2.  [extract_video_id] raises its [ValueError] exactly when no marker
    of any pattern is followed, anywhere in the URL, by eleven characters of
    [a-zA-Z0-9_-]. *)
Theorem extract_video_id_fails (url : string) :
  extract_video_id url = None <->
  forall markers id, markers ∈ patterns -> ~ holds markers url id.
Proof.
  unfold extract_video_id. generalize patterns as ps.
  induction ps as [|markers ps IH]; cbn [first_match].
  - split; [|reflexivity]. intros _ ms id Hin. inversion Hin.
  - destruct (re_search markers url) as [id'|] eqn:Hs.
    + split; [discriminate|]. intros Hnone. exfalso.
      apply (Hnone markers id'); [left|now apply re_search_some].
    + rewrite IH. split.
      * intros Hrest ms id [->|Hin]%elem_of_cons.
        -- now apply re_search_none.
        -- now apply Hrest.
      * intros Hall ms id Hin. apply Hall. now right.
Qed.

Example no_video_id :
  extract_video_id "https://vimeo.com/76979871" = None
  /\ extract_video_id "https://www.youtube.com/watch?v=short" = None.
Proof. vm_compute. split; reflexivity. Qed.

(** The patterns are tried in order over the whole URL: a [v=] parameter
    wins over an [embed/] path that comes before it. *)
Example watch_marker_first :
  extract_video_id "https://www.youtube.com/embed/AAAAAAAAAAA?v=BBBBBBBBBBB"
  = Some "BBBBBBBBBBB"%string.
Proof. vm_compute. reflexivity. Qed.

Lemma id_chars_here (id after : string) :
  is_id id -> id_chars 11 (id +:+ after) = Some id.
Proof. intros [Hlen Hall]. apply id_chars_spec. eauto. Qed.

Lemma re_search_skip (markers : list string) (c : ascii) (s : string) :
  match_here markers (String c s) = None ->
  re_search markers (String c s) = re_search markers s.
Proof. intros H. rewrite re_search_unfold. now rewrite H. Qed.

Lemma re_search_here (markers : list string) (s id : string) :
  match_here markers s = Some id -> re_search markers s = Some id.
Proof. intros H. rewrite re_search_unfold. now rewrite H. Qed.

Lemma match_here_first (m : string) (rest : list string) (s tail id : string) :
  literal m s = Some tail -> id_chars 11 tail = Some id ->
  match_here (m :: rest) s = Some id.
Proof. intros Hl Hi. cbn [match_here]. now rewrite Hl, Hi. Qed.

Lemma match_here_next (m : string) (rest : list string) (s : string) :
  literal m s = None -> match_here (m :: rest) s = match_here rest s.
Proof. intros Hl. cbn [match_here]. now rewrite Hl. Qed.

(** X3.  For the usual forms of a YouTube address, the watch page and the
    short link, the identifier that follows the marker is returned, whatever
    comes after it. *)
Theorem extract_video_id_usual (id after : string) :
  is_id id ->
  extract_video_id ("https://www.youtube.com/watch?v=" +:+ id +:+ after) = Some id
  /\ extract_video_id ("https://youtu.be/" +:+ id +:+ after) = Some id.
Proof.
  intros Hid. pose proof (id_chars_here id after Hid) as Hhere.
  unfold extract_video_id, patterns. cbn [first_match].
  set (rest := id +:+ after) in *. clearbody rest. split.
  - assert (Hm : re_search ["v="; "/v/"; "youtu.be/"]%string ("v=" +:+ rest)
                 = Some id).
    { apply re_search_here.
      apply (match_here_first _ _ _ rest); [reflexivity|exact Hhere]. }
    cbv [append] in Hm |- *.
    do 30 (rewrite re_search_skip by reflexivity). now rewrite Hm.
  - assert (Hm : re_search ["v="; "/v/"; "youtu.be/"]%string
                   ("youtu.be/" +:+ rest) = Some id).
    { apply re_search_here. do 2 (rewrite match_here_next by reflexivity).
      apply (match_here_first _ _ _ rest); [reflexivity|exact Hhere]. }
    cbv [append] in Hm |- *.
    do 8 (rewrite re_search_skip by reflexivity). now rewrite Hm.
Qed.

Lemma extract_video_id_usual_witness :
  extract_video_id ("https://www.youtube.com/watch?v=" +:+ "dQw4w9WgXcQ" +:+ "&t=42s")
  = Some "dQw4w9WgXcQ"%string
  /\ extract_video_id ("https://youtu.be/" +:+ "dQw4w9WgXcQ" +:+ "&t=42s")
     = Some "dQw4w9WgXcQ"%string.
Proof.
  apply (extract_video_id_usual "dQw4w9WgXcQ" "&t=42s").
  split; [reflexivity|].
  intros c Hc. simpl in Hc.
  repeat (apply elem_of_cons in Hc as [->|Hc]; [reflexivity|]). inversion Hc.
Defined.

End VideoIdFacts.

(** ** Further properties of the language code, the Chunker and the uploads *)

Section MoreFacts.

Import PyStr PyDict Audio Transcribe WordClips Pipeline Whisper.

Lemma first_code_in_table (langs : list string) (code : string) :
  first_code langs = Some code ->
  exists lang, lang ∈ langs /\ CONTACT_LANG_TO_WHISPER !! lang = Some code.
Proof.
  induction langs as [|lang rest IH]; [discriminate|].
  rewrite first_code_cons.
  destruct (CONTACT_LANG_TO_WHISPER !! lang) as [c|] eqn:Hl.
  - destruct (truthy c).
    + intros [= ->]. exists lang. split; [left|exact Hl].
    + intros H. destruct (IH H) as (l & Hin & Hc). exists l. split; [now right|exact Hc].
  - intros H. destruct (IH H) as (l & Hin & Hc). exists l. split; [now right|exact Hc].
Qed.

Lemma table_codes_two (lang code : string) :
  CONTACT_LANG_TO_WHISPER !! lang = Some code -> String.length code = 2%nat.
Proof.
  intros Hlook. apply elem_of_list_to_map_2 in Hlook.
  assert (Hall : forallb (fun kv => (String.length (snd kv) =? 2)%nat)
                   CONTACT_LANG_TO_WHISPER_items = true) by (vm_compute; reflexivity).
  rewrite forallb_forall in Hall.
  apply Nat.eqb_eq. apply (Hall (lang, code)). now apply list_elem_of_In.
Qed.

(** X4.  Whatever the contact languages and the language code,
    [resolve_whisper_language] returns a two-character code: a code of the
    table, the given code when it has two characters, or ["en"]. *)
Theorem resolve_whisper_language_two_chars
    (contact_languages : option (list string)) (language_code : string) :
  String.length (resolve_whisper_language contact_languages language_code)
  = 2%nat.
Proof.
  assert (Hfb : String.length
                  (if (String.length language_code =? 2)%nat then language_code
                   else "en"%string) = 2%nat).
  { destruct (Nat.eqb_spec (String.length language_code) 2); auto. }
  destruct contact_languages as [langs|]; [|exact Hfb].
  rewrite resolve_some. destruct (first_code langs) as [code|] eqn:Hc; [|exact Hfb].
  apply first_code_in_table in Hc as (lang & _ & Hl).
  now apply (table_codes_two lang).
Qed.

Lemma chunk_loop_diverges (fuel : nat) (audio : AudioSegment) (chunk_ms : Z) :
  chunk_ms <= 0 -> 0 < len audio ->
  forall offset acc, offset <= 0 ->
    chunk_loop fuel audio chunk_ms offset acc = None.
Proof.
  intros Hc Hlen. induction fuel as [|fuel IH]; intros offset acc Hoff.
  - reflexivity.
  - simpl. destruct (Z.ltb_spec offset (len audio)); [|lia].
    apply IH. lia.
Qed.

(** X5.  With a chunk length of zero or less and audio that is not empty,
    the chunking loop never ends: the offset does not advance past the end
    of the audio, however many turns are allowed. *)
Theorem chunk_audio_diverges (fuel : nat) (audio : AudioSegment)
    (chunk_seconds : Z) :
  chunk_seconds <= 0 -> audio <> [] ->
  chunk_audio fuel audio chunk_seconds = None.
Proof.
  intros Hc Hne. unfold chunk_audio.
  apply chunk_loop_diverges; [lia| |lia].
  unfold len. destruct audio; [contradiction|simpl; lia].
Qed.

Lemma chunk_audio_diverges_witness :
  chunk_audio 1000 (Scenario.ramp 0 10) 0 = None.
Proof.
  apply (chunk_audio_diverges 1000 (Scenario.ramp 0 10) 0); [lia|discriminate].
Defined.

Example chunk_audio_no_audio (chunk_seconds : Z) :
  chunk_audio 1 [] chunk_seconds = Some [].
Proof. reflexivity. Qed.

Lemma upload_chunks_loop_spec (h : Host) (cfg : Config) (video_id : string)
    (items : list (nat * AudioSegment)) :
  forall r2_urls,
    match upload_chunks_loop h cfg video_id items r2_urls with
    | inr urls =>
        exists new, urls = r2_urls ++ new
          /\ Forall2 (fun item url =>
                exists relative_url,
                  r2_put_chunk h video_id (fst item) = Some relative_url
                  /\ url = CLOUDFLARE_WORKER_URL cfg +:+ relative_url)
               items new
    | inl e =>
        exists done i rest,
          items.*1 = done ++ i :: rest /\ e = UploadError i
          /\ r2_put_chunk h video_id i = None
          /\ forall j, j ∈ done -> is_Some (r2_put_chunk h video_id j)
    end.
Proof.
  induction items as [|[i a] items IH]; intros r2_urls; cbn [upload_chunks_loop].
  - exists []. rewrite app_nil_r. split; [reflexivity|constructor].
  - destruct (r2_put_chunk h video_id i) as [rel|] eqn:Hput.
    + specialize (IH (r2_urls ++ [CLOUDFLARE_WORKER_URL cfg +:+ rel])).
      destruct (upload_chunks_loop h cfg video_id items _) as [e|urls].
      * destruct IH as (done & k & rest & Heq & He & Hk & Hdone).
        exists (i :: done), k, rest. rewrite fmap_cons, Heq. split_and!; auto.
        intros j [->|Hj]%elem_of_cons; [rewrite Hput; eauto|auto].
      * destruct IH as (new & -> & Hall).
        exists ((CLOUDFLARE_WORKER_URL cfg +:+ rel) :: new).
        rewrite <- app_assoc. split; [reflexivity|].
        constructor; [eauto|exact Hall].
    + exists [], i, items.*1. split_and!; auto.
      intros j Hj. inversion Hj.
Qed.

(** X6.  [upload_chunks_to_r2] either uploads every chunk and returns one
    URL per chunk, in chunk order, each the worker URL followed by what the
    upload of that chunk returned; or it raises at the first chunk whose
    upload fails, every chunk before it having been uploaded. *)
Theorem upload_chunks_all_or_first (h : Host) (cfg : Config)
    (chunk_paths : list AudioSegment) (video_id : string) :
  match upload_chunks_to_r2 h cfg chunk_paths video_id with
  | inr urls =>
      length urls = length chunk_paths
      /\ forall i url, urls !! i = Some url ->
           exists relative_url,
             r2_put_chunk h video_id i = Some relative_url
             /\ url = CLOUDFLARE_WORKER_URL cfg +:+ relative_url
  | inl e =>
      exists i, e = UploadError i /\ (i < length chunk_paths)%nat
        /\ r2_put_chunk h video_id i = None
        /\ forall j, (j < i)%nat -> is_Some (r2_put_chunk h video_id j)
  end.
Proof.
  unfold upload_chunks_to_r2.
  pose proof (upload_chunks_loop_spec h cfg video_id (enumerate chunk_paths) [])
    as Hspec.
  assert (Hfst : (enumerate chunk_paths).*1 = seq 0 (length chunk_paths)).
  { unfold enumerate. apply enumerate_from_fst. }
  destruct (upload_chunks_loop h cfg video_id (enumerate chunk_paths) [])
    as [e|urls].
  - destruct Hspec as (done & i & rest & Heq & -> & Hi & Hdone).
    rewrite Hfst in Heq.
    assert (Hlen : length done = i).
    { assert (Hl : seq 0 (length chunk_paths) !! length done = Some i)
        by (rewrite Heq; apply list_lookup_middle; reflexivity).
      apply lookup_seq in Hl. lia. }
    assert (Htot : length chunk_paths = (length done + S (length rest))%nat).
    { apply (f_equal length) in Heq.
      rewrite length_seq, length_app in Heq. exact Heq. }
    exists i. split_and!; auto; [lia|].
    intros j Hj. apply Hdone.
    assert (Hl : seq 0 (length chunk_paths) !! j = Some j)
      by (apply lookup_seq; lia).
    rewrite Heq, lookup_app_l in Hl by lia.
    eapply list_elem_of_lookup_2; eauto.
  - destruct Hspec as (new & -> & Hall). simpl.
    assert (Hlen : length new = length chunk_paths).
    { apply Forall2_length in Hall. rewrite <- Hall.
      rewrite <- (length_fmap fst), Hfst. apply length_seq. }
    split; [exact Hlen|].
    intros i url Hurl.
    destruct (Forall2_lookup_r _ _ _ _ _ Hall Hurl) as ([k a] & Hitem & Hrel).
    assert (k = i) as ->.
    { assert (Hl : (enumerate chunk_paths).*1 !! i = Some k)
        by (rewrite list_lookup_fmap, Hitem; reflexivity).
      rewrite Hfst in Hl. apply lookup_seq in Hl. lia. }
    exact Hrel.
Qed.

End MoreFacts.

(** ** Further properties of [transcribe_chunks] *)

Section MoreTranscribeFacts.

Import PyNum PyStr PyDict Transcribe TranscribeSpec.

(** X7.  Whenever [transcribe_chunks] returns, the segments it returns are
    in ascending order of [start], whatever the backend did and in whatever
    order the jobs completed. *)
Theorem transcribe_chunks_sorted (cfg : Config) (b : Backend)
    (r2_urls : list string) (language : string) (chunk_seconds : Z)
    (out : list Segment) :
  fst (transcribe_chunks cfg b r2_urls language chunk_seconds) = inr out ->
  sorted_by_start out.
Proof.
  unfold transcribe_chunks.
  destruct (negb (truthy (RUNPOD_ENDPOINT_ID cfg))
            || negb (truthy (RUNPOD_API_KEY cfg))); [discriminate|].
  destruct (fp_jobs _).
  - intros [= <-]. constructor.
  - destruct (retry_pass _ _ _ _) as [segs c]. intros [= <-].
    apply sort_by_start_sorted.
Qed.

Lemma transcribe_chunks_sorted_witness :
  sorted_by_start
    [ mkSegment (3050 # 100) (3150 # 100) "annyeong"
        (Some [mkWord " annyeong" (3050 # 100) (3150 # 100) None]);
      mkSegment (6000 # 100) (6250 # 100) "hello there" None;
      mkSegment (9200 # 100) (9230 # 100) "hello"
        (Some [mkWord "hello" (9200 # 100) (9230 # 100) (Some (9 # 10))]) ].
Proof.
  apply (transcribe_chunks_sorted Scenario.cfg Scenario.flaky Scenario.urls4
           "ko" 30).
  vm_compute. reflexivity.
Defined.

Lemma first_pass_calls (b : Backend) (r2_urls : list string)
    (language : string) (chunk_seconds : Z) :
  calls (fp_client (first_pass b r2_urls language chunk_seconds))
  = length r2_urls.
Proof.
  unfold first_pass.
  destruct (submit_phase_log b language (enumerate r2_urls) [] (mkClient 0 []))
    as (ev & Heq & Hev).
  rewrite Heq. cbn [app calls].
  assert (Hlen : length (enumerate r2_urls) = length r2_urls).
  { rewrite <- (length_fmap fst). unfold enumerate.
    rewrite enumerate_from_fst. apply length_seq. }
  destruct (omap event_job ev) as [|job jobs].
  - cbn [fp_client calls]. exact Hlen.
  - destruct (poll_phase _ _ _ _ _ _). cbn [fp_client calls]. exact Hlen.
Qed.

Lemma transcribe_chunks_calls (cfg : Config) (b : Backend)
    (r2_urls : list string) (language : string) (chunk_seconds : Z) :
  truthy (RUNPOD_ENDPOINT_ID cfg) = true ->
  truthy (RUNPOD_API_KEY cfg) = true ->
  (forall jobs, completion_order b jobs ≡ₚ jobs) ->
  let fp := first_pass b r2_urls language chunk_seconds in
  calls (snd (transcribe_chunks cfg b r2_urls language chunk_seconds))
  = (length r2_urls + length (fp_failed_chunks fp))%nat.
Proof.
  intros He Hk Hperm fp.
  pose proof (first_pass_calls b r2_urls language chunk_seconds) as Hcalls.
  destruct (first_pass_spec b r2_urls language chunk_seconds Hperm)
    as (ev1 & _ & _ & _ & _ & Hfailed).
  fold fp in Hcalls, Hfailed.
  unfold transcribe_chunks. rewrite He, Hk. cbn [negb orb]. fold fp.
  destruct (fp_jobs fp) as [|job jobs] eqn:Hjobs.
  - rewrite (completion_order_nil b Hperm) in Hfailed. rewrite Hfailed.
    cbn [snd logged calls]. unfold failures. simpl. lia.
  - unfold retry_pass.
    destruct (fp_failed_chunks fp) as [|f fs] eqn:Hf.
    + cbn [snd]. simpl. lia.
    + destruct (retry_submit_phase_log b language (f :: fs) [] (fp_client fp))
        as (ev2 & Heq & _).
      rewrite Heq. cbn [app].
      destruct (omap event_job ev2); cbn [snd calls]; lia.
Qed.

(** The accounts of the submissions of one run. *)
Lemma submission_accounts (cfg : Config) (b : Backend)
    (r2_urls : list string) (language : string) (chunk_seconds : Z) :
  truthy (RUNPOD_ENDPOINT_ID cfg) = true ->
  truthy (RUNPOD_API_KEY cfg) = true ->
  (forall jobs, completion_order b jobs ≡ₚ jobs) ->
  let fp := first_pass b r2_urls language chunk_seconds in
  let failed := (fp_failed_chunks fp).*1 in
  let lg := log (snd (transcribe_chunks cfg b r2_urls language chunk_seconds)) in
  NoDup failed
  /\ NoDup (fp_jobs fp).*1
  /\ (forall j, j ∈ failed -> j ∈ (fp_jobs fp).*1)
  /\ (forall j, j ∈ (fp_jobs fp).*1 -> (j < length r2_urls)%nat)
  /\ (forall j job_id, Submitted j job_id ∈ lg <-> (j, job_id) ∈ fp_jobs fp)
  /\ (forall j job_id, RetrySubmitted j job_id ∈ lg -> j ∈ failed)
  /\ (forall j job_id,
        (j, job_id) ∈ fp_jobs fp -> poll_segments b job_id = None -> j ∈ failed)
  /\ (forall j, j ∈ failed ->
        exists job_id, (j, job_id) ∈ fp_jobs fp /\ poll_segments b job_id = None)
  /\ (forall j,
        submissions j lg
        = ((if decide (j < length r2_urls)%nat then 1 else 0)
           + (if decide (j ∈ failed) then 1 else 0))%nat).
Proof.
  intros He Hk Hperm fp failed lg.
  destruct (transcribe_chunks_spec cfg b r2_urls language chunk_seconds
              He Hk Hperm)
    as (ev1 & ev2 & tail & Hev1 & Hjobs & Hev2 & Htail & Hlog & _).
  destruct (first_pass_spec b r2_urls language chunk_seconds Hperm)
    as (_ & _ & _ & _ & _ & Hfailed).
  fold fp in Hjobs, Hev2, Hfailed. fold lg in Hlog.
  assert (Hitems_fst : (enumerate r2_urls).*1 = seq 0 (length r2_urls)).
  { unfold enumerate. apply enumerate_from_fst. }
  assert (Hitems : NoDup (enumerate r2_urls).*1).
  { rewrite Hitems_fst. apply NoDup_seq. }
  assert (Hjobs_sub : (fp_jobs fp).*1 `sublist_of` (enumerate r2_urls).*1).
  { rewrite Hjobs. now apply jobs_sublist. }
  assert (Hjobs_nd : NoDup (fp_jobs fp).*1) by (eapply sublist_NoDup; eauto).
  assert (Hfailed_fst : failed
            = (filter (fun job => poll_segments b (snd job) = None)
                 (completion_order b (fp_jobs fp))).*1).
  { unfold failed. rewrite Hfailed. unfold failures.
    rewrite <- list_fmap_compose. reflexivity. }
  assert (Hfailed_sub : failed `sublist_of` (completion_order b (fp_jobs fp)).*1).
  { rewrite Hfailed_fst. apply fmap_sublist, sublist_filter. }
  assert (Harr_nd : NoDup (completion_order b (fp_jobs fp)).*1).
  { now rewrite (Hperm (fp_jobs fp)). }
  assert (Hfailed_nd : NoDup failed) by (eapply sublist_NoDup; eauto).
  assert (Hfailed_job : forall j, j ∈ failed -> j ∈ (fp_jobs fp).*1).
  { intros j Hj. rewrite <- (Hperm (fp_jobs fp)).
    eapply elem_of_sublist; eauto. }
  assert (Hin_range : forall j, j ∈ (enumerate r2_urls).*1 <-> (j < length r2_urls)%nat).
  { intros j. rewrite Hitems_fst, elem_of_seq. lia. }
  split_and!; try assumption.
  - intros j Hj. apply Hin_range. eapply elem_of_sublist; eauto.
  - intros j job_id. rewrite Hjobs, (jobs_submitted _ _ _ _ Hev1), Hlog, !elem_of_app.
    split; [|auto]. intros [?|[Hin|Hin]]; [assumption|exfalso..].
    + apply list_elem_of_lookup in Hin as [k Hlk].
      destruct (Forall2_lookup_r _ _ _ _ _ Hev2 Hlk) as (item & _ & Hitem).
      apply event_chunk_retry in Hitem as [_ Hitem]. discriminate.
    + rewrite Forall_forall in Htail. apply Htail in Hin. discriminate.
  - intros j job_id. rewrite Hlog, !elem_of_app. intros [Hin|[Hin|Hin]].
    + exfalso. apply list_elem_of_lookup in Hin as [k Hlk].
      destruct (Forall2_lookup_r _ _ _ _ _ Hev1 Hlk) as (item & _ & Hitem).
      apply event_chunk_first in Hitem as [_ Hitem]. discriminate.
    + apply list_elem_of_lookup in Hin as [k Hlk].
      destruct (Forall2_lookup_r _ _ _ _ _ Hev2 Hlk) as ([i u] & Hitem & Hev).
      apply event_chunk_retry in Hev as [Hev _]. simpl in Hev. injection Hev as <-.
      unfold failed. apply list_elem_of_fmap. exists (j, u).
      split; [reflexivity|]. eapply list_elem_of_lookup_2; eauto.
    + exfalso. rewrite Forall_forall in Htail. apply Htail in Hin. discriminate.
  - intros j job_id Hjob Hnone. rewrite Hfailed_fst.
    apply list_elem_of_fmap. exists (j, job_id). split; [reflexivity|].
    apply list_elem_of_filter. split; [exact Hnone|]. now rewrite (Hperm (fp_jobs fp)).
  - intros j. rewrite Hfailed_fst, list_elem_of_fmap.
    intros ([j' job_id] & -> & [Hnone Harr]%list_elem_of_filter).
    exists job_id. split; [|exact Hnone]. now rewrite <- (Hperm (fp_jobs fp)).
  - intros j. unfold submissions. rewrite Hlog, !filter_app, !length_app.
    rewrite (count_events first_event j
               (fun it e H => proj1 (event_chunk_first it e H)) _ _ Hev1).
    rewrite (count_events retry_event j
               (fun it e H => proj1 (event_chunk_retry it e H)) _ _ Hev2).
    rewrite (count_index _ j Hitems).
    rewrite (count_index (fp_failed_chunks fp) j Hfailed_nd). fold failed.
    rewrite (filter_no_chunk _ _ tail Htail) by (intros e Hc; congruence).
    simpl. rewrite Nat.add_0_r.
    destruct (decide (j ∈ (enumerate r2_urls).*1)) as [Hin|Hnin];
      destruct (decide (j < length r2_urls)%nat) as [Hlt|Hge];
      try reflexivity; exfalso.
    + apply Hge. now apply Hin_range.
    + apply Hnin. now apply Hin_range.
Qed.

(** X8.  One run submits every chunk at least once and at most twice, and
    nothing else: the number of [/run] calls is the number of chunks plus
    the number of chunks collected for retry, hence at most twice the
    number of chunks. *)
Theorem submission_budget (cfg : Config) (b : Backend)
    (r2_urls : list string) (language : string) (chunk_seconds : Z) :
  truthy (RUNPOD_ENDPOINT_ID cfg) = true ->
  truthy (RUNPOD_API_KEY cfg) = true ->
  (forall jobs, completion_order b jobs ≡ₚ jobs) ->
  let run := transcribe_chunks cfg b r2_urls language chunk_seconds in
  let failed :=
    fp_failed_chunks (first_pass b r2_urls language chunk_seconds) in
  calls (snd run) = (length r2_urls + length failed)%nat
  /\ (calls (snd run) <= 2 * length r2_urls)%nat
  /\ forall i,
       ((i < length r2_urls)%nat ->
          (1 <= submissions i (log (snd run)) <= 2)%nat)
       /\ ((length r2_urls <= i)%nat -> submissions i (log (snd run)) = 0%nat).
Proof.
  intros He Hk Hperm run failed.
  pose proof (transcribe_chunks_calls cfg b r2_urls language chunk_seconds
                He Hk Hperm) as Hcalls.
  destruct (submission_accounts cfg b r2_urls language chunk_seconds He Hk Hperm)
    as (Hnd & Hjnd & Hfj & Hrange & _ & _ & _ & _ & Hcount).
  cbv zeta in Hcalls, Hnd, Hfj, Hrange, Hcount. fold run failed in Hcalls.
  fold failed in Hnd, Hfj, Hcount. fold run in Hcount.
  assert (Hlen : (length failed <= length r2_urls)%nat).
  { rewrite <- (length_fmap fst failed).
    rewrite <- (length_seq (length r2_urls) 0).
    apply submseteq_length, NoDup_submseteq; [exact Hnd|].
    intros j Hj. apply elem_of_seq. split; [lia|]. simpl. apply Hrange, Hfj, Hj. }
  split; [exact Hcalls|]. split; [lia|].
  intros i. rewrite (Hcount i).
  destruct (decide (i < length r2_urls)%nat) as [Hlt|Hge];
    destruct (decide (i ∈ failed.*1)) as [Hin|Hnin]; split; try lia.
  intros _. apply Hfj, Hrange in Hin. contradiction.
Qed.

Lemma submission_budget_witness :
  let run :=
    transcribe_chunks Scenario.cfg Scenario.flaky Scenario.urls4 "ko" 30 in
  let failed :=
    fp_failed_chunks (first_pass Scenario.flaky Scenario.urls4 "ko" 30) in
  calls (snd run) = (length Scenario.urls4 + length failed)%nat
  /\ (calls (snd run) <= 2 * length Scenario.urls4)%nat
  /\ forall i,
       ((i < length Scenario.urls4)%nat ->
          (1 <= submissions i (log (snd run)) <= 2)%nat)
       /\ ((length Scenario.urls4 <= i)%nat ->
             submissions i (log (snd run)) = 0%nat).
Proof.
  apply (submission_budget Scenario.cfg Scenario.flaky Scenario.urls4 "ko" 30).
  - reflexivity.
  - reflexivity.
  - intros jobs. apply reverse_Permutation.
Defined.

(** X9.  A chunk whose first job succeeded is never submitted again: it is
    submitted once in the whole run and no retry is logged for it, so its
    segments enter the transcript from one job only. *)
Theorem succeeded_chunk_not_retried (cfg : Config) (b : Backend)
    (r2_urls : list string) (language : string) (chunk_seconds : Z)
    (i : nat) (job_id : string) (segments : list Segment) :
  truthy (RUNPOD_ENDPOINT_ID cfg) = true ->
  truthy (RUNPOD_API_KEY cfg) = true ->
  (forall jobs, completion_order b jobs ≡ₚ jobs) ->
  let lg := log (snd (transcribe_chunks cfg b r2_urls language chunk_seconds)) in
  Submitted i job_id ∈ lg ->
  poll_segments b job_id = Some segments ->
  submissions i lg = 1%nat
  /\ (forall job_id', Submitted i job_id' ∈ lg -> job_id' = job_id)
  /\ forall job_id', ~ RetrySubmitted i job_id' ∈ lg.
Proof.
  intros He Hk Hperm lg Hsub Hok.
  destruct (submission_accounts cfg b r2_urls language chunk_seconds He Hk Hperm)
    as (Hnd & Hjnd & Hfj & Hrange & Hjob & Hretry & _ & Hfailed & Hcount).
  cbv zeta in Hnd, Hjnd, Hfj, Hrange, Hjob, Hretry, Hfailed, Hcount.
  fold lg in Hjob, Hretry, Hcount.
  set (fp := first_pass b r2_urls language chunk_seconds) in *.
  assert (Huniq : forall job_id', Submitted i job_id' ∈ lg -> job_id' = job_id).
  { intros job_id' Hsub'. apply Hjob in Hsub, Hsub'.
    apply list_elem_of_lookup in Hsub as [k Hk1].
    apply list_elem_of_lookup in Hsub' as [k' Hk2].
    assert (k' = k) as ->.
    { eapply NoDup_lookup; [exact Hjnd| |]; rewrite list_lookup_fmap.
      - exact (f_equal (fmap fst) Hk2).
      - exact (f_equal (fmap fst) Hk1). }
    congruence. }
  assert (Hnot_failed : i ∉ (fp_failed_chunks fp).*1).
  { intros Hf. apply Hfailed in Hf as (job' & Hj' & Hnone).
    apply Hjob in Hj'. apply Huniq in Hj'. subst job'. congruence. }
  split; [|split; [exact Huniq|]].
  - assert (Hlt : (i < length r2_urls)%nat).
    { apply Hrange. apply Hjob in Hsub. apply list_elem_of_fmap.
      now exists (i, job_id). }
    rewrite (Hcount i).
    destruct (decide (i < length r2_urls)%nat); [|contradiction].
    destruct (decide (i ∈ (fp_failed_chunks fp).*1)); [contradiction|reflexivity].
  - intros job_id' Hr. apply Hnot_failed. now apply (Hretry i job_id').
Qed.

Lemma succeeded_chunk_not_retried_witness :
  let lg :=
    log (snd (transcribe_chunks Scenario.cfg Scenario.flaky Scenario.urls4
                "ko" 30)) in
  submissions 2 lg = 1%nat
  /\ (forall job_id', Submitted 2 job_id' ∈ lg -> job_id' = "job-2"%string)
  /\ forall job_id', ~ RetrySubmitted 2 job_id' ∈ lg.
Proof.
  apply (succeeded_chunk_not_retried Scenario.cfg Scenario.flaky Scenario.urls4
           "ko" 30 2 "job-2" [mkSegment 0 (5 # 2) "hello there" None]).
  - reflexivity.
  - reflexivity.
  - intros jobs. apply reverse_Permutation.
  - vm_compute. do 2 right. left.
  - reflexivity.
Defined.

End MoreTranscribeFacts.

(** ** Further properties of the Word Extractor *)

Section MoreWordFacts.

Import PyNum PyStr PyDict Audio Transcribe WordClips WordSpec.

Lemma mark_uploaded_keys (r2_key full_url : string) (word_clips : dict string) :
  (mark_uploaded r2_key full_url word_clips).*1 = word_clips.*1.
Proof.
  induction word_clips as [|[text key] rest IH]; [reflexivity|].
  cbn [mark_uploaded]. destruct (String.eqb key r2_key); [reflexivity|].
  rewrite !fmap_cons, IH. reflexivity.
Qed.

Lemma collect_uploads_keys (results : list (string * option string)) :
  forall word_clips, (collect_uploads results word_clips).*1 = word_clips.*1.
Proof.
  induction results as [|[key [url|]] results IH]; intros wc;
    cbn [collect_uploads]; [reflexivity| |apply IH].
  destruct (truthy url); [|apply IH]. now rewrite IH, mark_uploaded_keys.
Qed.

Lemma result_keys_kept (h : Host) (cfg : Config)
    (segments : list Segment) (chunk_paths : list AudioSegment)
    (video_id : string) (chunk_seconds : Z) :
  (clip_and_upload_words h cfg segments chunk_paths video_id chunk_seconds).*1
  `sublist_of` (collect_seen segments []).*1.
Proof.
  destruct (collect_seen_spec segments) as (_ & Hnd & _).
  destruct (clip_all_ok h chunk_paths video_id chunk_seconds _ Hnd)
    as (_ & _ & Hsub & _).
  rewrite clip_and_upload_words_eq. cbv zeta.
  etransitivity; [apply fmap_sublist, sublist_filter|].
  now rewrite collect_uploads_keys.
Qed.

Lemma result_values_http (h : Host) (cfg : Config)
    (segments : list Segment) (chunk_paths : list AudioSegment)
    (video_id : string) (chunk_seconds : Z) (text v : string) :
  (text, v) ∈ clip_and_upload_words h cfg segments chunk_paths video_id
                chunk_seconds ->
  startswith v "http" = true
  /\ exists w, first_occurrence (all_words segments) text w.
Proof.
  intros Hin. destruct (collect_seen_spec segments) as (Hiff & _ & _). split.
  - rewrite clip_and_upload_words_eq in Hin.
    apply list_elem_of_filter in Hin as [Hv _]. now apply Is_true_true.
  - assert (Htext : text ∈ (collect_seen segments []).*1).
    { eapply elem_of_sublist; [|apply (result_keys_kept h cfg)].
      apply list_elem_of_fmap. exists (text, v). split; [reflexivity|exact Hin]. }
    apply list_elem_of_fmap in Htext as ([t w] & -> & Hw).
    exists w. now apply Hiff.
Qed.

(** X10.  The result of [clip_and_upload_words] is keyed by kept words only:
    its keys are, in order and without repetition, among the stripped texts
    of the first qualifying words of the transcript, and every value starts
    with ["http"]. *)
Theorem word_clips_shape (h : Host) (cfg : Config)
    (segments : list Segment) (chunk_paths : list AudioSegment)
    (video_id : string) (chunk_seconds : Z) :
  let result :=
    clip_and_upload_words h cfg segments chunk_paths video_id chunk_seconds in
  result.*1 `sublist_of` (collect_seen segments []).*1
  /\ NoDup result.*1
  /\ (forall text v, (text, v) ∈ result ->
        startswith v "http" = true
        /\ exists w, first_occurrence (all_words segments) text w).
Proof.
  intros result.
  destruct (collect_seen_spec segments) as (_ & Hnd & _).
  pose proof (result_keys_kept h cfg segments chunk_paths video_id
                chunk_seconds) as Hkeys.
  split; [exact Hkeys|]. split; [eapply sublist_NoDup; eauto|].
  intros text v. apply result_values_http.
Qed.

Lemma clip_word_skipped (h : Host) (chunk_paths : list AudioSegment)
    (video_id : string) (chunk_seconds : Z) (st : Clipper)
    (item : string * Word) :
  chunk_seconds = 0 \/ chunk_paths = [] ->
  chunk_cache st = ∅ ->
  clip_word h chunk_paths video_id chunk_seconds st item = st.
Proof.
  intros Hbad Hcache. destruct item as [text w]. unfold clip_word, chunk_idx_of.
  destruct (Z.eqb_spec chunk_seconds 0) as [|Hne]; [reflexivity|].
  destruct Hbad as [Hz | ->]; [contradiction|].
  unfold load_chunk. rewrite Hcache, lookup_empty.
  assert (Hidx : forall i, index (@nil AudioSegment) i = None).
  { intros i. unfold index. cbn [length].
    repeat case_match; try reflexivity; apply lookup_nil. }
  now rewrite Hidx.
Qed.

(** X11.  With a chunk length of zero, or with no chunk file at all, every
    word is skipped (the division by zero, or the index error, is caught
    word by word): no clip is cut, nothing is uploaded, and the result is
    empty. *)
Theorem no_clip_without_chunks (h : Host) (cfg : Config)
    (segments : list Segment) (chunk_paths : list AudioSegment)
    (video_id : string) (chunk_seconds : Z) :
  chunk_seconds = 0 \/ chunk_paths = [] ->
  let st := clip_all h chunk_paths video_id chunk_seconds
              (collect_seen segments []) in
  exported st = [] /\ clip_tasks st = []
  /\ clip_and_upload_words h cfg segments chunk_paths video_id chunk_seconds = [].
Proof.
  intros Hbad st.
  assert (Hst : st = mkClipper ∅ [] [] []).
  { unfold st, clip_all. generalize (collect_seen segments []) as seen.
    induction seen as [|item seen IH]; [reflexivity|].
    cbn [foldl]. now rewrite clip_word_skipped. }
  rewrite clip_and_upload_words_eq. fold st. rewrite Hst. repeat split.
Qed.

Lemma no_clip_without_chunks_witness :
  let st := clip_all Scenario.second_upload_fails Scenario.chunks3 "vid" 0
              (collect_seen Scenario.spoken []) in
  exported st = [] /\ clip_tasks st = []
  /\ clip_and_upload_words Scenario.second_upload_fails Scenario.cfg
       Scenario.spoken Scenario.chunks3 "vid" 0 = [].
Proof.
  apply (no_clip_without_chunks Scenario.second_upload_fails Scenario.cfg
           Scenario.spoken Scenario.chunks3 "vid" 0).
  left. reflexivity.
Defined.

(** X12.  The cache of loaded chunks is faithful: whatever index it holds,
    it holds the audio of that chunk file, so reading a chunk through the
    cache is reading the file. *)
Theorem chunk_cache_faithful (h : Host) (chunk_paths : list AudioSegment)
    (video_id : string) (chunk_seconds : Z) (segments : list Segment)
    (idx : Z) (audio : AudioSegment) :
  chunk_cache (clip_all h chunk_paths video_id chunk_seconds
                 (collect_seen segments [])) !! idx = Some audio ->
  index chunk_paths idx = Some audio.
Proof.
  destruct (collect_seen_spec segments) as (_ & Hnd & _).
  destruct (clip_all_ok h chunk_paths video_id chunk_seconds _ Hnd)
    as (Hcache & _). apply Hcache.
Qed.

Lemma chunk_cache_faithful_witness :
  index Scenario.chunks3 1 = Some (Scenario.ramp 1000 1000).
Proof.
  apply (chunk_cache_faithful Scenario.second_upload_fails Scenario.chunks3
           "vid" 1 Scenario.spoken 1 (Scenario.ramp 1000 1000)).
  vm_compute. reflexivity.
Defined.

End MoreWordFacts.

(** ** Further properties of the orchestrator *)

Section MorePipelineFacts.

Import PyNum PyStr PyDict Audio Transcribe WordClips Pipeline.
Import ChunkerSpec TranscribeSpec WordSpec.

Lemma chunk_loop_some (audio : AudioSegment) (chunk_ms : Z) :
  0 < chunk_ms ->
  forall (fuel : nat) (offset : Z) (acc chunks : list AudioSegment),
    chunk_loop fuel audio chunk_ms offset acc = Some chunks ->
    chunks = acc ++ tiles (turns audio chunk_ms offset) audio chunk_ms offset.
Proof.
  intros Hc. induction fuel as [|fuel IH]; intros offset acc chunks; [discriminate|].
  cbn [chunk_loop]. destruct (Z.ltb_spec offset (len audio)) as [Hlt|Hge].
  - intros Hrun. apply IH in Hrun. rewrite Hrun.
    rewrite (turns_step audio chunk_ms offset) by lia.
    cbn [tiles]. now rewrite <- app_assoc.
  - intros [= <-]. rewrite turns_done by lia. cbn [tiles].
    now rewrite app_nil_r.
Qed.

Lemma chunk_audio_count (fuel : nat) (audio : AudioSegment)
    (chunk_seconds : Z) (chunks : list AudioSegment) :
  0 < chunk_seconds ->
  chunk_audio fuel audio chunk_seconds = Some chunks ->
  Z.of_nat (length chunks)
  = (len audio + chunk_seconds * 1000 - 1) / (chunk_seconds * 1000).
Proof.
  intros Hpos Hrun. unfold chunk_audio in Hrun.
  apply chunk_loop_some in Hrun; [|lia]. subst chunks.
  rewrite app_nil_l, tiles_length. unfold turns. rewrite Z.sub_0_r.
  rewrite Z2Nat.id; [reflexivity|].
  pose proof (len_nonneg audio). apply Z.div_pos; lia.
Qed.

Lemma upload_chunks_length (h : Host) (cfg : Config) (video_id : string)
    (items : list (nat * AudioSegment)) :
  forall r2_urls urls,
    upload_chunks_loop h cfg video_id items r2_urls = inr urls ->
    length urls = (length r2_urls + length items)%nat.
Proof.
  induction items as [|[i a] items IH]; intros r2_urls urls;
    cbn [upload_chunks_loop].
  - intros [= <-]. cbn [length]. lia.
  - destruct (r2_put_chunk h video_id i); [|discriminate].
    intros Hrun. apply IH in Hrun. rewrite Hrun, length_app. cbn [length]. lia.
Qed.

Lemma enumerate_length {A : Type} (l : list A) :
  length (enumerate l) = length l.
Proof.
  rewrite <- (length_fmap fst). unfold enumerate.
  rewrite enumerate_from_fst. apply length_seq.
Qed.

(** X13.  What a returned result of [process_video] holds together: the
    transcript is the texts of the returned segments joined by single
    spaces; the segments are in order of start; there is one audio URL per
    chunk of the downloaded audio, so [ceil(D / L)] of them for a positive
    chunk length; the duration is that of the audio, rounded to hundredths
    of a second; every word clip is keyed by the stripped text of a first
    qualifying word of these segments and its value starts with ["http"];
    and the corrected transcript is the transcript itself or the answer of
    the correction request. *)
Theorem process_video_result (h : Host) (cfg : Config) (b : Backend)
    (fuel : nat) (video_url : string) (chunk_seconds : Z)
    (known_vocabulary : option (list string))
    (language_name language_code : string)
    (contact_languages : option (list string)) (r : Result) :
  process_video h cfg b fuel video_url chunk_seconds known_vocabulary
    language_name language_code contact_languages = inr r ->
  res_video_url r = video_url
  /\ video_id_of h video_url = Some (res_video_id r)
  /\ res_transcript r = full_text (res_segments r)
  /\ sorted_by_start (res_segments r)
  /\ (exists audio chunks,
        download h video_url = Some audio
        /\ chunk_audio fuel audio chunk_seconds = Some chunks
        /\ res_duration_seconds r = round2 (Qmake (len audio) 1000)
        /\ length (res_audio_urls r) = length chunks
        /\ (0 < chunk_seconds ->
            Z.of_nat (length (res_audio_urls r))
            = (len audio + chunk_seconds * 1000 - 1) / (chunk_seconds * 1000)))
  /\ (forall text v, (text, v) ∈ res_word_clips r ->
        startswith v "http" = true
        /\ exists w, first_occurrence (all_words (res_segments r)) text w)
  /\ (res_corrected_transcript r = res_transcript r
      \/ (ANTHROPIC_API_KEY cfg <> EmptyString
          /\ exists contact_language,
              claude h (res_transcript r) language_name contact_language
                known_vocabulary = Some (res_corrected_transcript r))).
Proof.
  unfold process_video.
  destruct (video_id_of h video_url) as [video_id|]; [|discriminate].
  destruct (download h video_url) as [audio|]; [|discriminate].
  destruct (chunk_audio fuel audio chunk_seconds) as [chunk_paths|] eqn:Hch;
    [|discriminate].
  destruct (upload_chunks_to_r2 h cfg chunk_paths video_id)
    as [e|r2_urls] eqn:Hup; [discriminate|].
  destruct (fst (transcribe_chunks cfg b r2_urls _ chunk_seconds))
    as [e|segments] eqn:Htr; [discriminate|].
  assert (Hsorted : sorted_by_start segments).
  { revert Htr. unfold transcribe_chunks.
    destruct (negb (truthy (RUNPOD_ENDPOINT_ID cfg))
              || negb (truthy (RUNPOD_API_KEY cfg))); [discriminate|].
    destruct (fp_jobs _).
    - intros [= <-]. constructor.
    - destruct (retry_pass _ _ _ _) as [segs c]. intros [= <-].
      apply sort_by_start_sorted. }
  assert (Hlen : length r2_urls = length chunk_paths).
  { unfold upload_chunks_to_r2 in Hup. apply upload_chunks_length in Hup.
    rewrite Hup, enumerate_length. reflexivity. }
  assert (Hclips : forall text v,
             (text, v) ∈ match segments, chunk_paths with
                         | _ :: _, _ :: _ =>
                             clip_and_upload_words h cfg segments chunk_paths
                               video_id chunk_seconds
                         | _, _ => []
                         end ->
             startswith v "http" = true
             /\ exists w, first_occurrence (all_words segments) text w).
  { intros text v.
    destruct segments as [|seg segments]; [intros Hin; inversion Hin|].
    destruct chunk_paths as [|chunk chunk_paths]; [intros Hin; inversion Hin|].
    apply result_values_http. }
  assert (Haudio : exists audio' chunks,
             Some audio = Some audio'
             /\ chunk_audio fuel audio' chunk_seconds = Some chunks
             /\ round2 (Qmake (len audio) 1000)
                = round2 (Qmake (len audio') 1000)
             /\ length r2_urls = length chunks
             /\ (0 < chunk_seconds ->
                 Z.of_nat (length r2_urls)
                 = (len audio' + chunk_seconds * 1000 - 1)
                   / (chunk_seconds * 1000))).
  { exists audio, chunk_paths. split_and!; auto.
    intros Hpos. rewrite Hlen. now apply (chunk_audio_count fuel). }
  destruct (truthy (strip (full_text segments))).
  - destruct (correct_transcription _ _ _ _ _ _) as [e|corrected] eqn:Hco;
      [discriminate|].
    intros [= <-].
    cbn [res_video_url res_video_id res_transcript res_corrected_transcript
         res_audio_urls res_segments res_duration_seconds res_word_clips].
    do 3 (split; [reflexivity|]). split; [exact Hsorted|].
    split; [exact Haudio|]. split; [exact Hclips|].
    revert Hco. unfold correct_transcription.
    destruct (ANTHROPIC_API_KEY cfg) as [|c key]; cbn [truthy negb].
    + intros [= <-]. now left.
    + destruct (claude h _ _ _ _) as [answer|] eqn:Hc; [|discriminate].
      intros [= <-]. right. split; [discriminate|eauto].
  - intros [= <-].
    cbn [res_video_url res_video_id res_transcript res_corrected_transcript
         res_audio_urls res_segments res_duration_seconds res_word_clips].
    do 3 (split; [reflexivity|]). split; [exact Hsorted|].
    split; [exact Haudio|]. split; [exact Hclips|].
    now left.
Qed.

Lemma process_video_result_witness :
  exists r,
    process_video Scenario.second_upload_fails Scenario.cfg Scenario.flaky
      2501 "https://youtu.be/dQw4w9WgXcQ" 1 None "Jejueo" "jje"
      (Some ["Korean"%string]) = inr r
    /\ res_transcript r = full_text (res_segments r)
    /\ sorted_by_start (res_segments r)
    /\ length (res_audio_urls r) = 3%nat.
Proof.
  eexists. split; [vm_compute; reflexivity|].
  destruct (process_video_result Scenario.second_upload_fails Scenario.cfg
              Scenario.flaky 2501 "https://youtu.be/dQw4w9WgXcQ" 1 None
              "Jejueo" "jje" (Some ["Korean"%string]) _
              ltac:(vm_compute; reflexivity))
    as (_ & _ & Htext & Hsorted & _).
  split; [exact Htext|]. split; [exact Hsorted|]. vm_compute. reflexivity.
Defined.

(** X14.  A run returns a result whatever the transcription backend does,
    once the steps around it succeed: the video id is found, the audio is
    downloaded, the chunk length is positive, every chunk upload is
    accepted, RunPod is configured, and the correction is either switched
    off or answers. *)
Theorem process_video_returns (h : Host) (cfg : Config) (b : Backend)
    (fuel : nat) (video_url : string) (chunk_seconds : Z)
    (known_vocabulary : option (list string))
    (language_name language_code : string)
    (contact_languages : option (list string))
    (video_id : string) (audio : AudioSegment) :
  video_id_of h video_url = Some video_id ->
  download h video_url = Some audio ->
  0 < chunk_seconds ->
  (length audio < fuel)%nat ->
  (forall i, is_Some (r2_put_chunk h video_id i)) ->
  truthy (RUNPOD_ENDPOINT_ID cfg) = true ->
  truthy (RUNPOD_API_KEY cfg) = true ->
  (ANTHROPIC_API_KEY cfg = EmptyString
   \/ forall transcript contact_language,
        is_Some (claude h transcript language_name contact_language
                   known_vocabulary)) ->
  exists r,
    process_video h cfg b fuel video_url chunk_seconds known_vocabulary
      language_name language_code contact_languages = inr r
    /\ res_video_id r = video_id
    /\ Z.of_nat (length (res_audio_urls r))
       = (len audio + chunk_seconds * 1000 - 1) / (chunk_seconds * 1000).
Proof.
  intros Hvid Hdl Hpos Hfuel Hput He Hk Hcorr.
  unfold process_video. rewrite Hvid, Hdl.
  assert (Hch : chunk_audio fuel audio chunk_seconds
                = Some (tiles (turns audio (chunk_seconds * 1000) 0) audio
                          (chunk_seconds * 1000) 0)).
  { unfold chunk_audio.
    rewrite chunk_loop_tiles; [reflexivity|lia|lia|unfold len; lia]. }
  rewrite Hch.
  set (chunk_paths := tiles _ audio _ 0) in *.
  destruct (upload_chunks_to_r2 h cfg chunk_paths video_id)
    as [e|r2_urls] eqn:Hup.
  { apply upload_chunks_loop_raises in Hup as (i & _ & Hi).
    destruct (Hput i) as [u Hu]. congruence. }
  assert (Hlen : Z.of_nat (length r2_urls)
                 = (len audio + chunk_seconds * 1000 - 1)
                   / (chunk_seconds * 1000)).
  { unfold upload_chunks_to_r2 in Hup. apply upload_chunks_length in Hup.
    rewrite Hup, enumerate_length. cbn [length Nat.add].
    now apply (chunk_audio_count fuel). }
  destruct (fst (transcribe_chunks cfg b r2_urls _ chunk_seconds))
    as [e|segments] eqn:Htr.
  { apply transcribe_chunks_raises in Htr as [_ [Hc|Hc]];
      [rewrite Hc in He|rewrite Hc in Hk]; discriminate. }
  destruct (truthy (strip (full_text segments))).
  - destruct (correct_transcription _ _ _ _ _ _) as [e|corrected] eqn:Hco.
    + apply correct_transcription_raises in Hco as (_ & Hkey & Hc).
      destruct Hcorr as [Hoff|Hans]; [contradiction|].
      destruct (Hans (full_text segments)
                  match contact_languages with
                  | Some (first :: _) => first
                  | _ => "English"%string
                  end) as [answer Ha]. congruence.
    + eexists. split; [reflexivity|]. split; [reflexivity|exact Hlen].
  - eexists. split; [reflexivity|]. split; [reflexivity|exact Hlen].
Qed.

Lemma process_video_returns_witness :
  exists r,
    process_video Scenario.host Scenario.cfg Scenario.flaky 2501
      "https://youtu.be/dQw4w9WgXcQ" 1 None "Jejueo" "jje"
      (Some ["Korean"%string]) = inr r
    /\ res_video_id r = "dQw4w9WgXcQ"%string
    /\ Z.of_nat (length (res_audio_urls r))
       = (len (replicate 2500 0) + 1 * 1000 - 1) / (1 * 1000).
Proof.
  apply (process_video_returns Scenario.host Scenario.cfg Scenario.flaky 2501
           "https://youtu.be/dQw4w9WgXcQ" 1 None "Jejueo" "jje"
           (Some ["Korean"%string]) "dQw4w9WgXcQ" (replicate 2500 0)).
  - reflexivity.
  - reflexivity.
  - lia.
  - vm_compute. lia.
  - intros i. eexists. reflexivity.
  - reflexivity.
  - reflexivity.
  - left. reflexivity.
Defined.

End MorePipelineFacts.

(** ** The handler's reply as the pipeline reads it *)

Section HandlerFacts.

Import PyNum PyStr PyDict Transcribe WordClips Handler.
Import TranscribeSpec WordSpec.

Lemma rstrip_cons (c : ascii) (s : string) :
  rstrip (String c s)
  = match rstrip s with
    | EmptyString => if isspace c then EmptyString else String c EmptyString
    | String c' r => String c (String c' r)
    end.
Proof. cbn [rstrip]. now destruct (rstrip s). Qed.

Lemma rstrip_idem (s : string) : rstrip (rstrip s) = rstrip s.
Proof.
  induction s as [|c s IH]; [reflexivity|].
  rewrite (rstrip_cons c s). destruct (rstrip s) as [|c' r] eqn:Hr.
  - destruct (isspace c) eqn:Hc; [reflexivity|].
    rewrite rstrip_cons. cbn [rstrip]. now rewrite Hc.
  - rewrite rstrip_cons, IH. reflexivity.
Qed.

Lemma rstrip_head (c : ascii) (s : string) :
  isspace c = false -> exists r, rstrip (String c s) = String c r.
Proof.
  intros Hc. cbn [rstrip]. destruct (rstrip s); rewrite ?Hc; eauto.
Qed.

Lemma lstrip_head (s : string) :
  lstrip s = EmptyString
  \/ exists c r, lstrip s = String c r /\ isspace c = false.
Proof.
  induction s as [|c s IH]; [now left|].
  cbn [lstrip]. destruct (isspace c) eqn:Hc; [exact IH|]. right. eauto.
Qed.

Lemma strip_idem (s : string) : strip (strip s) = strip s.
Proof.
  unfold strip. destruct (lstrip_head s) as [->|(c & r & -> & Hc)];
    [reflexivity|].
  destruct (rstrip_head c r Hc) as [r' Hr]. rewrite Hr.
  cbn [lstrip]. rewrite Hc, <- Hr. apply rstrip_idem.
Qed.

Lemma round2_shift_exact (x : Q) (offset : Z) :
  (round2 (round2 x + inject_Z offset) == round2 x + inject_Z offset)%Q.
Proof.
  destruct (round2_spec (round2 x + inject_Z offset)) as (_ & _ & Hexact).
  apply (Hexact (round_half_even (x * 100) + 100 * offset)).
  unfold round2. rewrite !Qmake_100, inject_Z_plus, inject_Z_mult.
  change (inject_Z 100) with 100%Q. field.
Qed.

(** [local] moved by exactly [offset] seconds. *)
Lemma word_entry_shift (offset : Z) (w : RawWord) :
  let global := offset_word offset (word_entry w) in
  word_text global = strip (raw_word w)
  /\ (word_start global == round2 (raw_start w) + inject_Z offset)%Q
  /\ (word_end global == round2 (raw_end w) + inject_Z offset)%Q.
Proof.
  cbn. split; [reflexivity|]. split; apply round2_shift_exact.
Qed.

(** X15.  The two roundings compose without loss: the handler rounds every
    timestamp to hundredths of a second, the pipeline adds a whole number
    of seconds and rounds again, and the second rounding changes nothing.
    A segment of the handler's reply for the chunk at [offset] seconds is
    merged with its stripped text and with start and end exactly [offset]
    later than the handler's, and so is each of its words; a segment whose
    word list is empty or missing is merged without words. *)
Theorem handler_reply_shifted_exactly (offset : Z)
    (segments_gen : list RawSegment) :
  Forall2
    (fun raw seg =>
       seg_text seg = strip (raw_seg_text raw)
       /\ (seg_start seg == round2 (raw_seg_start raw) + inject_Z offset)%Q
       /\ (seg_end seg == round2 (raw_seg_end raw) + inject_Z offset)%Q
       /\ match raw_seg_words raw with
          | Some (w :: ws) =>
              exists words, seg_words seg = Some words
                /\ Forall2
                     (fun rw word =>
                        word_text word = strip (raw_word rw)
                        /\ (word_start word
                            == round2 (raw_start rw) + inject_Z offset)%Q
                        /\ (word_end word
                            == round2 (raw_end rw) + inject_Z offset)%Q)
                     (w :: ws) words
          | _ => seg_words seg = None
          end)
    segments_gen
    (map (offset_segment offset) (handler_segments segments_gen)).
Proof.
  induction segments_gen as [|raw rest IH]; [constructor|].
  cbn [handler_segments map] in *. constructor; [|exact IH].
  unfold offset_segment, seg_data.
  cbn [seg_text seg_start seg_end seg_words].
  split; [reflexivity|]. split; [apply round2_shift_exact|].
  split; [apply round2_shift_exact|].
  destruct (raw_seg_words raw) as [[|w ws]|]; [reflexivity| |reflexivity].
  eexists. split; [reflexivity|].
  generalize (w :: ws) as l. intros l.
  induction l as [|rw l IHl]; [constructor|].
  cbn [map]. constructor; [apply word_entry_shift|exact IHl].
Qed.

Example heard_merged :
  map (offset_segment 30) (handler_segments Scenario.heard)
  = [ mkSegment (3123 # 100) (3300 # 100) "annyeong hello"
        (Some [ mkWord "annyeong" (3123 # 100) (3188 # 100) (Some (900 # 1000));
                mkWord "hello" (3200 # 100) (3300 # 100) (Some (800 # 1000)) ]);
      mkSegment (3350 # 100) (3390 # 100) "hello" None ].
Proof. vm_compute. reflexivity. Qed.

Lemma collect_words_as_spec (ws : list Word) :
  (forall w, w ∈ ws -> strip (word_text w) = word_text w) ->
  forall seen, collect_words ws seen = spec_collect_words ws seen.
Proof.
  induction ws as [|w ws IH]; intros Hstripped seen; [reflexivity|].
  cbn [collect_words spec_collect_words].
  assert (Hw : strip (word_text w) = word_text w)
    by (apply Hstripped; left).
  rewrite Hw.
  assert (Hsame : keep_word (word_text w) w seen = spec_keep_word w seen)
    by reflexivity.
  rewrite Hsame. destruct (spec_keep_word w seen) eqn:Hkeep.
  - assert (Hfresh : mem (word_text w) seen = false).
    { unfold spec_keep_word in Hkeep.
      apply andb_true_iff in Hkeep as [_ Hm]. now apply negb_true_iff. }
    rewrite (set_fresh _ _ _ Hfresh).
    apply IH. intros w' Hw'. apply Hstripped. now right.
  - apply IH. intros w' Hw'. apply Hstripped. now right.
Qed.

Lemma handler_words_stripped (offset : Z) (raw : RawSegment) (w : Word) :
  w ∈ default [] (seg_words (offset_segment offset (seg_data raw))) ->
  strip (word_text w) = word_text w.
Proof.
  unfold offset_segment, seg_data. cbn [seg_words].
  destruct (raw_seg_words raw) as [[|rw rws]|]; cbn [option_map default];
    [intros H; inversion H| |intros H; inversion H].
  intros Hin. apply elem_of_map in Hin as (w1 & -> & Hin).
  apply elem_of_map in Hin as (rw' & -> & _).
  cbn [offset_word word_entry word_text]. apply strip_idem.
Qed.

(** X16.  On what the handler replies, the Word Extractor can as well
    compare the words' texts as they stand: every word text of a reply is
    already stripped, merging and sorting keep it so, and the words kept
    from a merged transcript are those kept when texts are neither
    stripped again nor re-keyed. *)
Theorem handler_words_kept_as_they_stand (chunk_seconds : Z)
    (replies : list (nat * list RawSegment)) :
  let segments :=
    reassemble chunk_seconds
      (map (fun r => (fst r, handler_segments (snd r))) replies) in
  (forall w, w ∈ all_words segments -> key w = word_text w)
  /\ collect_seen segments [] = spec_collect_seen segments.
Proof.
  intros segments.
  assert (Hstripped : forall w, w ∈ all_words segments ->
                        strip (word_text w) = word_text w).
  { intros w Hw. unfold all_words in Hw.
    apply elem_of_concat in Hw as (ws & Hw & Hws).
    apply elem_of_map in Hws as (seg & -> & Hseg).
    unfold segments, reassemble in Hseg.
    rewrite sort_by_start_perm in Hseg.
    apply elem_of_concat in Hseg as (block & Hseg & Hblock).
    apply elem_of_map in Hblock as (r & -> & Hr).
    apply elem_of_map in Hr as ([i gen] & -> & _).
    unfold merge_chunk in Hseg. cbn [fst snd] in Hseg.
    apply elem_of_map in Hseg as (s & -> & Hs).
    apply elem_of_map in Hs as (raw & -> & _).
    now apply handler_words_stripped in Hw. }
  split; [exact Hstripped|].
  rewrite collect_seen_words. unfold spec_collect_seen.
  now apply collect_words_as_spec.
Qed.

Example heard_words :
  (collect_seen (reassemble 30 [(1%nat, handler_segments Scenario.heard)]) []).*1
  = ["annyeong"; "hello"]%string.
Proof. vm_compute. reflexivity. Qed.

End HandlerFacts.
